(** * TwitchDropsMiner: the orchestrator of [twitch.py]

    A shallow embedding of the [Twitch] class: the orchestration state machine
    ([run]), the watch loop and its progress reconciliation, the channel
    ranking, the inventory refresh, session validation and the retrying
    request wrapper, followed by the properties proved about them.

    Conventions.
    - Python [int] is [Z]; a [dict] is a [gmap]; an [OrderedDict] whose order
      is observable is an association list; [None]-able values are [option].
    - Objects that are mutated through several references (the [TimedDrop]s,
      reachable from [self._drops] and from every campaign of
      [self.inventory]) live in an object store [heap], and the references
      are indices into it.
    - Code that awaits or raises runs in the monad [M]: state passing over the
      [Twitch] record with an exception result.  Effects on the outside world
      are appended to the [effects] trace of the record.
    - What the classes of [inventory.py], [channel.py], [websocket.py],
      [gui.py] and [constants.py] compute is not part of [twitch.py]; the
      predicates of the inventory are the operations of the class
      [InventoryAPI], the two constants are the fields of [Constants]. *)

From stdpp Require Import base option list gmap strings sorting pretty.
From Stdlib Require Import ZArith Lia.

Local Open Scope Z_scope.

(* ===================================================================== *)
(** * Part I: the embedding                                              *)
(* ===================================================================== *)

(** ** Python built-ins used by the code *)

Section PyBuiltins.
Context {A : Type}.

(** One insertion step of a stable sort: [x], which preceded every element of
    [l] in the input, stays in front of the elements with an equal key. *)
Fixpoint insert_by (key : A → Z) (x : A) (l : list A) : list A :=
  match l with
  | [] => [x]
  | y :: l' =>
      if bool_decide (key x ≤ key y) then x :: y :: l'
      else y :: insert_by key x l'
  end.

(** [sorted(l, key=key)] and [l.sort(key=key)]: Python's sort is stable, and
    a stable sort is determined by its input and its key. *)
Definition sorted_by (key : A → Z) (l : list A) : list A :=
  foldr (insert_by key) [] l.

(** [sorted(l, key=key, reverse=True)]: descending keys; the [reverse] flag
    keeps the original order of elements with equal keys. *)
Definition sorted_by_rev (key : A → Z) (l : list A) : list A :=
  sorted_by (λ a, - key a) l.

(** [l[k:]] for an integer [k]; a negative [k] counts from the end. *)
Definition slice_from (l : list A) (k : Z) : list A :=
  if bool_decide (0 ≤ k) then drop (Z.to_nat k) l
  else drop (Z.to_nat (Z.of_nat (length l) + k)) l.

(** [l[:k]] for an integer [k]; a negative [k] counts from the end. *)
Definition slice_to (l : list A) (k : Z) : list A :=
  if bool_decide (0 ≤ k) then take (Z.to_nat k) l
  else take (Z.to_nat (Z.of_nat (length l) + k)) l.

(** The order a stable sort by [key] makes of an order [R] that its input
    respects: the key decides, and [R] decides between equal keys. *)
Definition then_by (key : A → Z) (R : relation A) : relation A :=
  λ a b, key a < key b ∨ (key a = key b ∧ R a b).
End PyBuiltins.

(** [bool] keys compare as the integers 0 and 1. *)
Definition int_of_bool (b : bool) : Z := if b then 1 else 0.

(** ** Data model *)

(** [State] of [constants.py]: the members that [twitch.py] names. *)
Inductive State :=
  | IDLE | INVENTORY_FETCH | GAMES_UPDATE | CHANNELS_CLEANUP
  | CHANNELS_FETCH | CHANNEL_SWITCH | EXIT.

Global Instance State_eq_dec : EqDecision State.
Proof. solve_decision. Defined.

(** Modelled from the spec: [Game] of [utils.py], which is not part of
    [twitch.py]; a game is an "identity + display name". *)
Record Game := { game_id : Z; game_name : string }.

Global Instance Game_eq_dec : EqDecision Game.
Proof. solve_decision. Defined.

Global Instance Game_countable : Countable Game.
Proof.
  refine (inj_countable' (λ g, (game_id g, game_name g))
            (λ p, {| game_id := p.1; game_name := p.2 |}) _).
  by intros [].
Defined.

(** Modelled from the spec: [Channel] of [channel.py], which is not part of
    [twitch.py]; a channel has an "identifier, name, online flag, viewer count
    (nullable), current game (nullable), drops-enabled flag, priority flag".
    These are the attributes that [twitch.py] reads. *)
Record Channel := {
  channel_id : Z;
  channel_name : string;
  online : bool;
  viewers : option Z;
  game : option Game;
  drops_enabled : bool;
  priority : bool;
}.

Global Instance Channel_eq_dec : EqDecision Channel.
Proof. solve_decision. Defined.

(** A reference to a [TimedDrop] object. *)
Abbreviation loc := nat (only parsing).

(** Modelled from the spec: [TimedDrop] of [inventory.py], which is not part
    of [twitch.py]; a drop has an "identifier" and "required/current progress
    minutes", and is "claimed exactly once". *)
Record TimedDrop := {
  drop_id : string;
  current_minutes : Z;
  required_minutes : Z;
  is_claimed : bool;
}.

(** The campaign data a backend response carries: what [DropsCampaign]
    parses from the JSON of an inventory or campaign-details response. *)
Record CampaignData := {
  cd_id : string;
  cd_game : Game;
  cd_box_art : string;
  cd_ends_at : Z;
  cd_upcoming : bool;
}.

(** Modelled from the spec: [DropsCampaign] of [inventory.py], which is not
    part of [twitch.py]; a campaign has an "identifier, associated game, time
    window (ends-at determines sort)" and a "set of drops".  It is made of
    the parsed data and of the references to its drop objects. *)
Record Campaign := {
  campaign_data : CampaignData;
  drops : list loc;
}.

Definition campaign_id (c : Campaign) : string := cd_id (campaign_data c).
Definition campaign_game (c : Campaign) : Game := cd_game (campaign_data c).
Definition ends_at (c : Campaign) : Z := cd_ends_at (campaign_data c).
Definition upcoming (c : Campaign) : bool := cd_upcoming (campaign_data c).

(** The methods of [inventory.py] that [twitch.py] calls and that decide
    something; [None] as the channel is the call without an argument. *)
Class InventoryAPI := {
  (** [campaign.can_earn(channel)] *)
  campaign_can_earn : Campaign → option Channel → bool;
  (** [drop.can_earn(channel)] *)
  drop_can_earn : TimedDrop → option Channel → bool;
  (** [drop.can_claim] *)
  drop_can_claim : TimedDrop → bool;
  (** what [await drop.claim()] leaves of the drop object *)
  drop_claim : TimedDrop → TimedDrop;
  (** the drop objects [DropsCampaign(self, data, claimed_benefits)] creates *)
  parse_drops : CampaignData → gmap string Z → list TimedDrop;
}.

(** [MAX_WEBSOCKETS] and [WS_TOPICS_LIMIT] of [constants.py]. *)
Class Constants := {
  MAX_WEBSOCKETS : Z;
  WS_TOPICS_LIMIT : Z;
}.

(** The part of [settings.Settings] the state machine reads, with the
    mapping returned by [gui.settings.priorities()]. *)
Record Settings := {
  exclude : gset string;
  priority_names : list string;
  priority_only : bool;
  priorities : gmap string Z;
}.

(** Websocket topics: [WebsocketTopic("Channel", "StreamState", id, _)] and
    the two account-level topics added by [run]. *)
Inductive Topic :=
  | StreamState (id : Z)
  | UserDrops (uid : Z)
  | UserCommunityPoints (uid : Z).

Global Instance Topic_eq_dec : EqDecision Topic.
Proof. solve_decision. Defined.

Global Instance Topic_countable : Countable Topic.
Proof.
  refine (inj_countable'
    (λ t, match t with
          | StreamState i => inl i
          | UserDrops i => inr (inl i)
          | UserCommunityPoints i => inr (inr i)
          end)
    (λ s, match s with
          | inl i => StreamState i
          | inr (inl i) => UserDrops i
          | inr (inr i) => UserCommunityPoints i
          end) _).
  by intros [].
Defined.

(** Exceptions raised or passed on by [twitch.py], connection errors apart
    (see [Attempt]).  The cause of a [RequestException] is the tag of a
    connection error; [UnboundLocalError] is a read of a name that no loop
    has bound; [OtherError] stands for the exceptions of the libraries. *)
Inductive Exn :=
  | RequestException (cause : option Z)
  | RuntimeError (msg : string)
  | LoginException (msg : string)
  | CaptchaRequired
  | ExitRequest
  | AssertionError
  | KeyError (key : string)
  | UnboundLocalError
  | OtherError (msg : string).

(** Effects on the outside world, in the order they happen. *)
Inductive Effect :=
  | Sleep (tenths : Z)               (* [asyncio.sleep(0.1 * tenths)] *)
  | WatchSleep (seconds : Z)         (* [self._watch_sleep(seconds)] *)
  | WatchSleepNext                   (* [self._watch_sleep(last_watch + interval - time())] *)
  | SendWatch (channel : Z)          (* [channel.send_watch()] *)
  | SessionRequest (attempt : Z)     (* [session.request(...)] *)
  | GqlCurrentDrop                   (* [gql_request(GQL_OPERATIONS["CurrentDrop"])] *)
  | GqlInventory
  | GqlCampaigns
  | GqlCampaignDetails (id : string)
  | LoginFlow                        (* [self._login()] *)
  | Validate (token : option string) (* GET oauth2/validate *)
  | ClearDomain                      (* [jar.clear_domain(url.host)] *)
  | Display (l : loc)                (* [drop.display()] *)
  | LogError (msg : string)
  | GuiPrint (msg : string).

(** The [Twitch] object together with what it shares with its
    collaborators: the drop objects ([heap]), the local [full_cleanup] of
    [run], the selection held by the GUI channel list ([gui_selection]), the
    topics the websocket pool is subscribed to ([ws_topics]), the cookie
    file on disk ([cookies_file]) and the trace of outside effects.
    [_session] is the session's cookie jar, restricted to the cookies of
    [BASE_URL]; [_drop_update] tells whether a future is pending. *)
Record Twitch := {
  settings : Settings;
  _state : State;
  _state_change : bool;
  games : gmap Game Z;
  inventory : list Campaign;
  _drops : gmap string loc;
  heap : list TimedDrop;
  channels : list (Z * Channel);
  watching_channel : option Channel;
  _drop_update : bool;
  full_cleanup : bool;
  gui_selection : option Channel;
  ws_topics : gset Topic;
  _session : option (gmap string string);
  cookies_file : gmap string string;
  _access_token : option string;
  _user_id : option Z;
  _is_logged_in : bool;
  effects : list Effect;
}.

(** Field updates. *)
Definition set_state (v : State) (t : Twitch) : Twitch :=
  let 'Build_Twitch a _ c d e f g h i j k l m n o p q r s := t in
  Build_Twitch a v c d e f g h i j k l m n o p q r s.
Definition set_state_change (v : bool) (t : Twitch) : Twitch :=
  let 'Build_Twitch a b _ d e f g h i j k l m n o p q r s := t in
  Build_Twitch a b v d e f g h i j k l m n o p q r s.
Definition set_games (v : gmap Game Z) (t : Twitch) : Twitch :=
  let 'Build_Twitch a b c _ e f g h i j k l m n o p q r s := t in
  Build_Twitch a b c v e f g h i j k l m n o p q r s.
Definition set_inventory (v : list Campaign) (t : Twitch) : Twitch :=
  let 'Build_Twitch a b c d _ f g h i j k l m n o p q r s := t in
  Build_Twitch a b c d v f g h i j k l m n o p q r s.
Definition set_drops (v : gmap string loc) (t : Twitch) : Twitch :=
  let 'Build_Twitch a b c d e _ g h i j k l m n o p q r s := t in
  Build_Twitch a b c d e v g h i j k l m n o p q r s.
Definition set_heap (v : list TimedDrop) (t : Twitch) : Twitch :=
  let 'Build_Twitch a b c d e f _ h i j k l m n o p q r s := t in
  Build_Twitch a b c d e f v h i j k l m n o p q r s.
Definition set_channels (v : list (Z * Channel)) (t : Twitch) : Twitch :=
  let 'Build_Twitch a b c d e f g _ i j k l m n o p q r s := t in
  Build_Twitch a b c d e f g v i j k l m n o p q r s.
Definition set_watching_channel (v : option Channel) (t : Twitch) : Twitch :=
  let 'Build_Twitch a b c d e f g h _ j k l m n o p q r s := t in
  Build_Twitch a b c d e f g h v j k l m n o p q r s.
Definition set_drop_update (v : bool) (t : Twitch) : Twitch :=
  let 'Build_Twitch a b c d e f g h i _ k l m n o p q r s := t in
  Build_Twitch a b c d e f g h i v k l m n o p q r s.
Definition set_full_cleanup (v : bool) (t : Twitch) : Twitch :=
  let 'Build_Twitch a b c d e f g h i j _ l m n o p q r s := t in
  Build_Twitch a b c d e f g h i j v l m n o p q r s.
Definition set_gui_selection (v : option Channel) (t : Twitch) : Twitch :=
  let 'Build_Twitch a b c d e f g h i j k _ m n o p q r s := t in
  Build_Twitch a b c d e f g h i j k v m n o p q r s.
Definition set_ws_topics (v : gset Topic) (t : Twitch) : Twitch :=
  let 'Build_Twitch a b c d e f g h i j k l _ n o p q r s := t in
  Build_Twitch a b c d e f g h i j k l v n o p q r s.
Definition set_session (v : option (gmap string string)) (t : Twitch) : Twitch :=
  let 'Build_Twitch a b c d e f g h i j k l m _ o p q r s := t in
  Build_Twitch a b c d e f g h i j k l m v o p q r s.
Definition set_cookies_file (v : gmap string string) (t : Twitch) : Twitch :=
  let 'Build_Twitch a b c d e f g h i j k l m n _ p q r s := t in
  Build_Twitch a b c d e f g h i j k l m n v p q r s.
Definition set_access_token (v : option string) (t : Twitch) : Twitch :=
  let 'Build_Twitch a b c d e f g h i j k l m n o _ q r s := t in
  Build_Twitch a b c d e f g h i j k l m n o v q r s.
Definition set_user_id (v : option Z) (t : Twitch) : Twitch :=
  let 'Build_Twitch a b c d e f g h i j k l m n o p _ r s := t in
  Build_Twitch a b c d e f g h i j k l m n o p v r s.
Definition set_is_logged_in (v : bool) (t : Twitch) : Twitch :=
  let 'Build_Twitch a b c d e f g h i j k l m n o p q _ s := t in
  Build_Twitch a b c d e f g h i j k l m n o p q v s.
Definition emit (e : Effect) (t : Twitch) : Twitch :=
  let 'Build_Twitch a b c d e0 f g h i j k l m n o p q r s := t in
  Build_Twitch a b c d e0 f g h i j k l m n o p q r (s ++ [e]).

(** ** The monad of awaiting, raising code *)

Definition M (A : Type) : Type := Twitch → (Exn + A) * Twitch.

Definition ret {A} (a : A) : M A := λ s, (inr a, s).
Definition raise {A} (e : Exn) : M A := λ s, (inl e, s).
Definition bind {A B} (m : M A) (k : A → M B) : M B :=
  λ s, match m s with
       | (inr a, s') => k a s'
       | (inl e, s') => (inl e, s')
       end.
Definition gets {A} (f : Twitch → A) : M A := λ s, (inr (f s), s).
Definition modify (f : Twitch → Twitch) : M unit := λ s, (inr tt, f s).
(** an awaited result that the outside world decides *)
Definition await {A} (r : Exn + A) : M A := λ s, (r, s).
Definition effect (e : Effect) : M unit := modify (emit e).
(** a task that runs to completion between two awaits of the caller *)
Definition handler {A} (f : Twitch → Twitch * A) : M A :=
  λ s, let '(s', a) := f s in (inr a, s').

Declare Scope M_scope.
Delimit Scope M_scope with M.
Notation "'do' x <- m ; k" := (bind m (λ x, k))
  (at level 10, x name, m at level 100, k at level 200,
   format "'[v' 'do'  x  <-  m ; '/' k ']'") : M_scope.
Notation "'do' ' p <- m ; k" := (bind m (λ x, match x with p => k end))
  (at level 10, p pattern, m at level 100, k at level 200,
   format "'[v' 'do'  ' p  <-  m ; '/' k ']'") : M_scope.
Notation "m >> k" := (bind m (λ _, k))
  (at level 100, k at level 200, right associativity) : M_scope.

(** [for x in l: body(x)] with a body that can raise. *)
Fixpoint for_each {A} (l : list A) (body : A → M unit) : M unit :=
  match l with
  | [] => ret tt
  | x :: l' => bind (body x) (λ _, for_each l' body)
  end.

(** [range(n)] *)
Definition range (n : Z) : list Z := Z.of_nat <$> seq 0 (Z.to_nat n).

(** ** State changes *)

(** [Twitch.change_state] *)
Definition change_state (state : State) (self : Twitch) : Twitch :=
  let self := if bool_decide (_state self ≠ EXIT)
              then set_state state self else self in
  set_state_change true self.

(** A sequence of [change_state] calls, in order. *)
Definition change_states (requests : list State) (self : Twitch) : Twitch :=
  foldl (λ s r, change_state r s) self requests.

(** [Twitch.watch].  The watched-channel cell is an [AwaitableValue] of
    [utils.py], "a single-slot holder", "settable/clearable"; the GUI call
    only displays. *)
Definition watch (channel : Channel) (self : Twitch) : Twitch :=
  set_watching_channel (Some channel) self.

(** [Twitch.stop_watching]; the GUI calls only display. *)
Definition stop_watching (self : Twitch) : Twitch :=
  set_watching_channel None self.

(** Modelled from the spec: [get_selection] of the GUI channel list, which
    is not part of [twitch.py]; the presentation collaborator holds "a
    settable/clearable selected channel value". *)
Definition get_selection (self : Twitch) : option Channel := gui_selection self.

(** Modelled from the spec: [clear_selection] of the GUI channel list, which
    is not part of [twitch.py]; the selected channel is surfaced "once" and
    then cleared. *)
Definition clear_selection (self : Twitch) : Twitch :=
  set_gui_selection None self.

(** ** Ordered dictionaries and the websocket pool *)

(** [d[k] = v] on an [OrderedDict]: an existing key keeps its position. *)
Fixpoint odict_set {K V} `{EqDecision K} (k : K) (v : V) (d : list (K * V))
    : list (K * V) :=
  match d with
  | [] => [(k, v)]
  | (k', v') :: d' =>
      if bool_decide (k = k') then (k, v) :: d'
      else (k', v') :: odict_set k v d'
  end.

(** The stream-state topic of every channel of a list. *)
Definition stream_state_topics (ids : list Z) : gset Topic :=
  list_to_set (StreamState <$> ids).

(** Modelled from the spec: [WebsocketPool.add_topics] of [websocket.py],
    which is not part of [twitch.py]; "subscribe(topic_name, handler)" adds
    the named topics to the subscriptions. *)
Definition add_topics (topics : gset Topic) (self : Twitch) : Twitch :=
  set_ws_topics (ws_topics self ∪ topics) self.

(** Modelled from the spec: [WebsocketPool.remove_topics] of [websocket.py],
    which is not part of [twitch.py]; "unsubscribe(topic_names)" removes the
    named topics from the subscriptions. *)
Definition remove_topics (topics : gset Topic) (self : Twitch) : Twitch :=
  set_ws_topics (ws_topics self ∖ topics) self.

(** ** Sort keys *)

(** [Twitch._viewers_key] *)
Definition _viewers_key (channel : Channel) : Z :=
  match viewers channel with
  | Some viewers => viewers
  | None => -1
  end.

(** [Twitch._game_key] *)
Definition _game_key (self : Twitch) (channel : Channel) : Z :=
  match game channel with
  | None => 1
  | Some game =>
      match games self !! game with
      | None => 0
      | Some rank => rank
      end
  end.

(** The key of [ordered_channels.sort(key=lambda ch: ch.priority, ...)]. *)
Definition _priority_key (channel : Channel) : Z := int_of_bool (priority channel).

Section Orchestrator.
Context `{!InventoryAPI} `{!Constants}.

(** ** [run], state [GAMES_UPDATE] *)

(** [if drop.can_claim: await drop.claim()] on the object behind [l]. *)
Definition claim_drop (h : list TimedDrop) (l : loc) : list TimedDrop :=
  match h !! l with
  | Some drop => if drop_can_claim drop then <[l := drop_claim drop]> h else h
  | None => h
  end.

(** The first loop over [self.inventory]: claim what can be claimed in
    every campaign that is not upcoming. *)
Definition claim_drops (inv : list Campaign) (h : list TimedDrop)
    : list TimedDrop :=
  foldl (λ h campaign,
           if negb (upcoming campaign) then foldl claim_drop h (drops campaign)
           else h) h inv.

(** The body of the second loop over [self.inventory]. *)
Definition collect_game (s : Settings) (gs : gmap Game Z) (campaign : Campaign)
    : gmap Game Z :=
  let game := campaign_game campaign in
  if bool_decide (gs !! game = None)
     && (priority_only s
         && bool_decide (game_name game ∈ priority_names s)
         && bool_decide (game_name game ∉ exclude s))
     && campaign_can_earn campaign None
  then <[game := default 0 (priorities s !! game_name game)]> gs
  else gs.

(** The handler of [State.GAMES_UPDATE]. *)
Definition games_update (self : Twitch) : Twitch :=
  let self := set_games ∅ self in
  let self := set_heap (claim_drops (inventory self) (heap self)) self in
  let self :=
    set_games (foldl (collect_game (settings self)) (games self) (inventory self))
              self in
  let self := set_full_cleanup true self in
  change_state CHANNELS_CLEANUP self.

(** ** [run], state [CHANNELS_FETCH]: ranking and capacity *)

(** The three sorts of [new_channels]. *)
Definition rank_channels (self : Twitch) (new_channels : list Channel)
    : list Channel :=
  let ordered_channels := sorted_by_rev _viewers_key new_channels in
  let ordered_channels := sorted_by_rev _priority_key ordered_channels in
  sorted_by (_game_key self) ordered_channels.

Definition max_channels : Z := MAX_WEBSOCKETS * WS_TOPICS_LIMIT - 2.

(** From the ranking to the subscription of the surviving channels:
    [new_channels] is the candidate set gathered before. *)
Definition channels_fetch_select (new_channels : list Channel) (self : Twitch)
    : Twitch :=
  let ordered_channels := rank_channels self new_channels in
  let to_remove := slice_from ordered_channels max_channels in
  let ordered_channels := slice_to ordered_channels max_channels in
  let self :=
    match to_remove with
    | [] => self
    | _ => remove_topics (stream_state_topics (channel_id <$> to_remove)) self
    end in
  let self := set_channels [] self in
  let self :=
    foldl (λ self channel,
             set_channels (odict_set (channel_id channel) channel (channels self))
                          self)
          self ordered_channels in
  add_topics (stream_state_topics (fst <$> channels self)) self.

(** ** Eligibility *)

(** [Twitch.can_watch] *)
Definition can_watch (self : Twitch) (channel : Channel) : bool :=
  if bool_decide (games self = ∅) then false
  else
    online channel
    && drops_enabled channel
    && match game channel with
       | Some game => bool_decide (is_Some (games self !! game))
       | None => false
       end
    && existsb (λ campaign, campaign_can_earn campaign (Some channel))
               (inventory self).

(** ** [run], state [CHANNEL_SWITCH] *)

(** [for channel in l: if self.can_watch(channel): new_watching = channel;
    break].  The result is [new_watching] and the loop variable [channel],
    which keeps its last binding after the loop. *)
Fixpoint scan_watchable (self : Twitch) (l : list Channel)
    (channel : option Channel) : option Channel * option Channel :=
  match l with
  | [] => (None, channel)
  | c :: l' =>
      if can_watch self c then (Some c, Some c)
      else scan_watchable self l' (Some c)
  end.

(** The handler of [State.CHANNEL_SWITCH]. *)
Definition channel_switch : M unit :=
  (do selected_channel <- gets get_selection;
   do priority_channels <-
     match selected_channel with
     | Some c => modify clear_selection >> ret [c]
     | None => ret []
     end;
   do watching_channel <- gets watching_channel;
   let priority_channels :=
     match watching_channel with
     | Some w => priority_channels ++ [w]
     | None => priority_channels
     end in
   do self <- gets id;
   let '(new_watching, channel) := scan_watchable self priority_channels None in
   let '(new_watching, channel) :=
     match new_watching with
     | None =>
         scan_watchable self
           (sorted_by (_game_key self) (snd <$> channels self)) channel
     | Some _ => (new_watching, channel)
     end in
   match new_watching with
   | Some _ =>
       match channel with
       | Some channel =>
           modify (watch channel) >> modify (set_state_change false)
       | None => raise UnboundLocalError
       end
   | None =>
       effect (GuiPrint "No available channels to watch. Waiting for an ONLINE channel...")
       >> modify (change_state IDLE)
   end)%M.

(** ** [get_active_drop] *)

(** Modelled from the spec: [TimedDrop.remaining_minutes] of
    [inventory.py], which is not part of [twitch.py]; a drop has
    "required/current progress minutes", what remains is their
    difference. *)
Definition remaining_minutes (drop : TimedDrop) : Z :=
  required_minutes drop - current_minutes drop.

(** [d.remaining_minutes] through a reference. *)
Definition remaining_at (self : Twitch) (l : loc) : Z :=
  from_option remaining_minutes 0 (heap self !! l).

(** [drop.can_earn(channel)] through a reference. *)
Definition can_earn_at (self : Twitch) (channel : option Channel) (l : loc)
    : bool :=
  from_option (λ drop, drop_can_earn drop channel) false (heap self !! l).

(** Modelled from the spec: [AwaitableValue.get_with_default] of [utils.py],
    which is not part of [twitch.py]; the cell holds "the channel currently
    being watched", and without one the default is the answer. *)
Definition get_with_default (self : Twitch) (default : option Channel)
    : option Channel :=
  match watching_channel self with
  | Some c => Some c
  | None => default
  end.

(** The body of the loop of [get_active_drop] over [self.inventory]; the
    accumulator is the pair of [drops] and [strict_drops]. *)
Definition gather_drops (self : Twitch) (watching_channel : option Channel)
    (game : option Game) (acc : list loc * list loc) (campaign : Campaign)
    : list loc * list loc :=
  let '(drops_acc, strict_drops) := acc in
  if bool_decide (is_Some (games self !! campaign_game campaign))
     && campaign_can_earn campaign watching_channel
  then
    let new_drops :=
      List.filter (can_earn_at self watching_channel) (drops campaign) in
    (drops_acc ++ new_drops,
     if bool_decide (game = Some (campaign_game campaign))
     then strict_drops ++ new_drops else strict_drops)
  else acc.

(** [Twitch.get_active_drop]; [game] is the game of the channel, if there
    is a channel and it has one (a [Game] object counts as true). *)
Definition get_active_drop (self : Twitch) (channel : option Channel)
    : option loc :=
  if bool_decide (games self = ∅) then None
  else
    let watching_channel := get_with_default self channel in
    let game := watching_channel ≫= game in
    let '(drops_acc, strict_drops) :=
      foldl (gather_drops self watching_channel game) ([], []) (inventory self) in
    let drops_acc :=
      match strict_drops with [] => drops_acc | _ => strict_drops end in
    match drops_acc with
    | [] => None
    | _ => head (sorted_by (remaining_at self) drops_acc)
    end.
End Orchestrator.

(** ** Progress of a drop *)

(** Modelled from the spec: [TimedDrop.update_minutes] of [inventory.py],
    which is not part of [twitch.py]; after it "progress equals the event's
    value" (or the poll's). *)
Definition update_minutes (minutes : Z) (drop : TimedDrop) : TimedDrop :=
  {| drop_id := drop_id drop; current_minutes := minutes;
     required_minutes := required_minutes drop; is_claimed := is_claimed drop |}.

(** Modelled from the spec: [TimedDrop.bump_minutes] of [inventory.py],
    which is not part of [twitch.py]; the local estimate is to "increment
    the best-candidate drop's progress by one minute". *)
Definition bump_minutes (drop : TimedDrop) : TimedDrop :=
  update_minutes (current_minutes drop + 1) drop.

(** A method call that mutates the drop object behind [l]. *)
Definition mutate_drop (l : loc) (f : TimedDrop → TimedDrop) (self : Twitch)
    : Twitch :=
  set_heap (alter f l (heap self)) self.

Section WatchLoop.
Context `{!InventoryAPI}.

(** [Twitch.process_drops], message type ["drop-progress"] (from the
    [assert] on): the state after the handler and the value it passes to
    [self._drop_update.set_result], if it resolves the future. *)
Definition process_drops_progress (drop_id : string)
    (current_progress_min : Z) (self : Twitch) : Twitch * option bool :=
  let drop := _drops self !! drop_id in
  if negb (_drop_update self) then (self, None)
  else
    match drop with
    | Some l =>
        if can_earn_at self (get_with_default self None) l then
          let self := mutate_drop l (update_minutes current_progress_min) self in
          let self := emit (Display l) self in
          (set_drop_update false self, Some true)
        else (set_drop_update false self, Some false)
    | None => (set_drop_update false self, Some false)
    end.

(** The poll of the watch loop: [use_active] after the [if not use_active]
    block, entered with [use_active = False].  [poll] is what
    [gql_request] gives: an exception, or the [dropCurrentSession] of the
    response as the pair of its [dropID] and [currentMinutesWatched]. *)
Definition poll_current_drop (channel : Channel)
    (poll : Exn + option (string * Z)) : M bool :=
  (effect GqlCurrentDrop >>
   do drop_data <- await poll;
   match drop_data with
   | Some (drop_id, minutes) =>
       do drop <- gets (λ self, _drops self !! drop_id);
       match drop with
       | None => effect (LogError "Missing drop") >> ret true
       | Some l =>
           do earnable <- gets (λ self, can_earn_at self (Some channel) l);
           if negb earnable then ret true
           else
             modify (mutate_drop l (update_minutes minutes))
             >> effect (Display l) >> ret false
       end
   | None => ret false
   end)%M.

(** The [if use_active] block of the watch loop. *)
Definition estimate_locally (channel : Channel) : M unit :=
  (do drop <- gets (λ self, get_active_drop self (Some channel));
   match drop with
   | Some l => modify (mutate_drop l bump_minutes) >> effect (Display l)
   | None => effect (LogError "Active drop search failed")
   end)%M.

(** One turn of the [while True] of [Twitch._watch_loop].  The outside
    world decides [succeeded] (the heartbeat), [push] (the first
    ["drop-progress"] message that [process_drops] receives within the 10
    seconds of [asyncio.wait_for], [None] being the timeout) and [poll].
    With no channel to watch, [self.watching_channel.get()] does not
    return and nothing happens. *)
Definition watch_turn (succeeded : bool) (push : option (string * Z))
    (poll : Exn + option (string * Z)) : M unit :=
  (do awaited <- gets watching_channel;
   match awaited with
   | None => ret tt
   | Some channel =>
       effect (SendWatch (channel_id channel)) >>
       if negb succeeded then
         effect (GuiPrint "Connection problems, retrying in 60 seconds...")
         >> effect (WatchSleep 60)
       else
         modify (set_drop_update true) >>
         let use_active := false in
         do resolution <-
           match push with
           | Some (drop_id, minutes) =>
               handler (process_drops_progress drop_id minutes)
           | None => ret None
           end;
         let '(handled, use_active) :=
           match resolution with
           | Some handled => (handled, use_active)
           | None => (false, true)
           end in
         modify (set_drop_update false) >>
         (if negb handled then
            do use_active <-
              (if negb use_active then poll_current_drop channel poll
               else ret use_active);
            if use_active then estimate_locally channel else ret tt
          else ret tt) >>
         effect WatchSleepNext
   end)%M.
End WatchLoop.

(** ** The retrying request wrapper *)

(** What one [async with session.request(...)] of [Twitch.request] comes to:
    a response that the caller's [async with] body consumes without raising,
    a [ClientConnectionError] raised by the session, an exception of another
    kind (raised by the session, or by the caller's body and thrown into the
    generator at its [yield]), or a response in whose handling the caller's
    body raises a [ClientConnectionError], which is thrown into the
    generator at its [yield] and caught by its [except] clause. *)
Inductive Attempt (R : Type) :=
  | Responded (response : R)
  | ConnectionFailed (tag : Z)
  | Failed (e : Exn)
  | BodyConnectionFailed (tag : Z).
Arguments Responded {R} _.
Arguments ConnectionFailed {R} _.
Arguments Failed {R} _.
Arguments BodyConnectionFailed {R} _.

(** [Twitch.initialize]: a session whose cookie jar is loaded from the
    cookie file, if there is one. *)
Definition initialize (self : Twitch) : Twitch :=
  set_session (Some (cookies_file self)) self.

(** The rest of the [for attempt in range(attempts)] of [Twitch.request]
    once a [ClientConnectionError] of the caller's body was thrown in and
    caught.  [Twitch.request] is an [@asynccontextmanager]: its [__aexit__]
    is waiting for the generator to end, so a further [yield response] makes
    it raise [RuntimeError], whatever the body would do with the response;
    an exception of the generator is passed on. *)
Fixpoint request_after_throw {R} (net : Z → Attempt R) (attempts : Z)
    (todo : list Z) (cause : option Z) : M R :=
  match todo with
  | [] => raise (RequestException cause)
  | attempt :: todo' =>
      (effect (SessionRequest attempt) >>
       match net attempt with
       | Responded _ | BodyConnectionFailed _ =>
           raise (RuntimeError "generator didn't stop after athrow()")
       | Failed e => raise e
       | ConnectionFailed tag =>
           (if bool_decide (attempt < attempts - 1)
            then effect (Sleep attempt) else ret tt) >>
           request_after_throw net attempts todo' (Some tag)
       end)%M
  end.

(** The [for attempt in range(attempts)] of [Twitch.request], with the
    [raise RequestException(...) from cause] that follows it. *)
Fixpoint request_attempts {R} (net : Z → Attempt R) (attempts : Z)
    (todo : list Z) (cause : option Z) : M R :=
  match todo with
  | [] => raise (RequestException cause)
  | attempt :: todo' =>
      (effect (SessionRequest attempt) >>
       match net attempt with
       | Responded response => ret response
       | Failed e => raise e
       | ConnectionFailed tag =>
           (if bool_decide (attempt < attempts - 1)
            then effect (Sleep attempt) else ret tt) >>
           request_attempts net attempts todo' (Some tag)
       | BodyConnectionFailed tag =>
           (if bool_decide (attempt < attempts - 1)
            then effect (Sleep attempt) else ret tt) >>
           request_after_throw net attempts todo' (Some tag)
       end)%M
  end.

(** [Twitch.request]; [net attempt] is what the attempt of that index comes
    to. *)
Definition request {R} (net : Z → Attempt R) (attempts : Z) : M R :=
  (do session <- gets _session;
   (match session with
    | None => modify initialize
    | Some _ => ret tt
    end) >>
   match session with
   | None => raise AssertionError
   | Some _ => request_attempts net attempts (range attempts) None
   end)%M.

(** ** Session validation *)

(** The result of leaving the [for attempt in range(2)] of
    [Twitch.check_login] through [break]: the local [cookie] and the
    [user_id] of the validation response. *)
Definition Validated : Type := gmap string string * Z.

(** The head of the loop body of [Twitch.check_login], up to the validation
    request: the local [cookie], with the access token in place.
    [login attempt] is what [self._login()] comes to in that attempt: an
    exception, or the access token it stores and returns. *)
Definition obtain_token (login : Z → Exn + string) (attempt : Z)
    : M (gmap string string) :=
  (do jar <- gets _session;
   let cookie := default ∅ jar in
   if bool_decide (cookie = ∅) then
     effect LoginFlow >>
     do token <- await (login attempt);
     modify (set_access_token (Some token)) >>
     ret (<["auth-token" := token]> cookie)
   else
     do token <- gets _access_token;
     match token with
     | Some _ => ret cookie
     | None =>
         match cookie !! "auth-token" with
         | Some value => modify (set_access_token (Some value)) >> ret cookie
         | None => raise (KeyError "auth-token")
         end
     end)%M.

(** The [for attempt in range(2)] of [Twitch.check_login]; [None] is the
    loop running out, which leads to its [else].
    [validate attempt token] is what the validation request of that attempt
    comes to: an exception of [self.request], or the status and the
    [user_id] of the response. *)
Fixpoint validate_attempts (login : Z → Exn + string)
    (validate : Z → option string → Exn + (Z * Z)) (todo : list Z)
    : M (option Validated) :=
  match todo with
  | [] => ret None
  | attempt :: todo' =>
      (do cookie <- obtain_token login attempt;
       do token <- gets _access_token;
       effect (Validate token) >>
       do '(status, user_id) <- await (validate attempt token);
       if bool_decide (status = 401) then
         modify (set_session (Some ∅)) >> effect ClearDomain >>
         validate_attempts login validate todo'
       else if bool_decide (status = 200) then ret (Some (cookie, user_id))
       else validate_attempts login validate todo')%M
  end.

(** [Twitch.check_login] *)
Definition check_login (login : Z → Exn + string)
    (validate : Z → option string → Exn + (Z * Z)) : M unit :=
  (do token <- gets _access_token;
   do user_id <- gets _user_id;
   if bool_decide (is_Some token ∧ is_Some user_id) then ret tt
   else
     do session <- gets _session;
     (match session with
      | None => modify initialize
      | Some _ => ret tt
      end) >>
     do validated <- validate_attempts login validate (range 2);
     match validated with
     | None => raise (RuntimeError "Login verification failure")
     | Some (cookie, user_id) =>
         modify (set_user_id (Some user_id)) >>
         let cookie := <["persistent" := pretty user_id]> cookie in
         modify (set_is_logged_in true) >>
         do jar <- gets _session;
         let jar := cookie ∪ default ∅ jar in
         modify (set_session (Some jar)) >>
         modify (set_cookies_file jar)
     end)%M.

(** ** Inventory refresh *)

(** An entry of the available-campaigns catalog. *)
Record AvailableData := {
  av_id : string;
  av_status : string;
  av_connected : bool;       (* [c["self"]["isAccountConnected"]] *)
  av_box_art : string;       (* [c["game"]["boxArtURL"]] *)
}.

(** The [inventory] of the inventory response. *)
Record InventoryData := {
  in_progress : option (list CampaignData);   (* [dropCampaignsInProgress] *)
  game_event_drops : list (string * Z);       (* id and [lastAwardedAt] *)
}.

(** [for x in l] with an accumulator and a body that can raise. *)
Fixpoint fold_m {A B} (body : B → A → M B) (acc : B) (l : list A) : M B :=
  match l with
  | [] => ret acc
  | x :: l' => bind (body acc x) (λ acc', fold_m body acc' l')
  end.

(** A dict comprehension over pairs: a later pair replaces an earlier one
    with the same key. *)
Definition dict_of {V} (l : list (string * V)) : gmap string V :=
  foldl (λ m kv, <[kv.1 := kv.2]> m) ∅ l.

Definition set_box_art (url : string) (data : CampaignData) : CampaignData :=
  {| cd_id := cd_id data; cd_game := cd_game data; cd_box_art := url;
     cd_ends_at := cd_ends_at data; cd_upcoming := cd_upcoming data |}.

Section Inventory.
Context `{!InventoryAPI}.

(** Modelled from the spec: the constructor
    [DropsCampaign(self, campaign_data, claimed_benefits)] of [inventory.py],
    which is not part of [twitch.py]; a campaign owns a "set of drops": the
    campaign object, with its drop objects freshly allocated. *)
Definition DropsCampaign (campaign_data : CampaignData)
    (claimed_benefits : gmap string Z) : M Campaign :=
  (do h <- gets heap;
   let new_drops := parse_drops campaign_data claimed_benefits in
   modify (set_heap (h ++ new_drops)) >>
   ret {| campaign_data := campaign_data;
          drops := seq (length h) (length new_drops) |})%M.

(** [Twitch.fetch_campaign]; [details id] is what the campaign-details
    request for [id] comes to. *)
Definition fetch_campaign (details : string → Exn + CampaignData)
    (campaign_id : string) (available_data : AvailableData)
    (claimed_benefits : gmap string Z) : M Campaign :=
  (effect (GqlCampaignDetails campaign_id) >>
   do campaign_data <- await (details campaign_id);
   let campaign_data := set_box_art (av_box_art available_data) campaign_data in
   DropsCampaign campaign_data claimed_benefits)%M.

(** The condition of the dict comprehension [available_campaigns]. *)
Definition applicable (existing_campaigns : list string) (c : AvailableData)
    : bool :=
  bool_decide (av_status c ∈ ["ACTIVE"; "UPCOMING"])
  && av_connected c
  && bool_decide (av_id c ∉ existing_campaigns).

(** The dict comprehension [available_campaigns], in insertion order. *)
Definition available_campaigns (existing_campaigns : list string)
    (available_list : list AvailableData) : list (string * AvailableData) :=
  foldl (λ d c, if applicable existing_campaigns c
                then odict_set (av_id c) c d else d)
        [] available_list.

(** [self._drops.update((drop.id, drop) for drop in campaign.drops)] *)
Definition index_drops (campaign : Campaign) (self : Twitch) : Twitch :=
  set_drops
    (foldl (λ m l, match heap self !! l with
                   | Some drop => <[drop_id drop := l]> m
                   | None => m
                   end)
           (_drops self) (drops campaign))
    self.

(** The list comprehension over [ongoing_campaigns], one element at a
    time; [campaigns] is the list being built. *)
Definition construct_campaign (claimed_benefits : gmap string Z)
    (campaigns : list Campaign) (campaign_data : CampaignData)
    : M (list Campaign) :=
  (do campaign <- DropsCampaign campaign_data claimed_benefits;
   ret (campaigns ++ [campaign]))%M.

(** The body of the loop over [available_campaigns.items()]; [campaigns]
    is the list being extended. *)
Definition fetch_if_earnable (details : string → Exn + CampaignData)
    (claimed_benefits : gmap string Z) (campaigns : list Campaign)
    (entry : string * AvailableData) : M (list Campaign) :=
  (do campaign <- fetch_campaign details entry.1 entry.2 claimed_benefits;
   if campaign_can_earn campaign None
   then ret (campaigns ++ [campaign]) else ret campaigns)%M.

(** The body of the loop that fills [self._drops] and [self.inventory]. *)
Definition store_campaign (campaign : Campaign) : M unit :=
  (modify (index_drops campaign) >>
   modify (λ self, set_inventory (inventory self ++ [campaign]) self))%M.

(** [Twitch.fetch_inventory]; [inv] and [catalog] are what the inventory
    and the campaigns requests come to.  The calls to [self.gui] only
    display. *)
Definition fetch_inventory (inv : Exn + InventoryData)
    (catalog : Exn + option (list AvailableData))
    (details : string → Exn + CampaignData) : M unit :=
  (effect GqlInventory >>
   do inventory_data <- await inv;
   let ongoing_campaigns := default [] (in_progress inventory_data) in
   let claimed_benefits := dict_of (game_event_drops inventory_data) in
   do campaigns <-
     fold_m (construct_campaign claimed_benefits) [] ongoing_campaigns;
   effect GqlCampaigns >>
   do available_list <- await catalog;
   let available_list := default [] available_list in
   let existing_campaigns := campaign_id <$> campaigns in
   do campaigns <-
     fold_m (fetch_if_earnable details claimed_benefits)
            campaigns (available_campaigns existing_campaigns available_list);
   let campaigns := sorted_by ends_at campaigns in
   modify (set_drops ∅) >>
   modify (set_inventory []) >>
   for_each campaigns store_campaign)%M.
End Inventory.

(** ** The initial object and sample data *)

(** [Twitch.__init__] *)
Definition Twitch_init (settings : Settings) : Twitch :=
  {| settings := settings; _state := IDLE; _state_change := false;
     games := ∅; inventory := []; _drops := ∅; heap := [];
     channels := []; watching_channel := None; _drop_update := false;
     full_cleanup := false; gui_selection := None; ws_topics := ∅;
     _session := None; cookies_file := ∅; _access_token := None;
     _user_id := None; _is_logged_in := false; effects := [] |}.

Definition default_settings : Settings :=
  {| exclude := ∅; priority_names := []; priority_only := false;
     priorities := ∅ |}.

(** ** The order of the ranking *)

(** The order that three stable sorts, least significant key first, make of
    any list: game rank ascending, then priority flag descending, then
    viewers descending. *)
Definition ranking_order (self : Twitch) : relation Channel :=
  then_by (_game_key self)
    (then_by (λ ch, - _priority_key ch)
       (then_by (λ ch, - _viewers_key ch) (λ _ _, True))).

(** The third clause of the ranking property, read on its own: wherever two
    channels stand in the ranking, one with an unknown viewer count is not
    in front of one with viewer count 0. *)
Definition unknown_viewers_never_outrank_zero : Prop :=
  ∀ (self : Twitch) (new_channels : list Channel) (i j : nat) (a b : Channel),
    rank_channels self new_channels !! i = Some a →
    rank_channels self new_channels !! j = Some b →
    viewers a = None → viewers b = Some 0 →
    ¬ (i < j)%nat.

(** Four channels without a game: one with priority and an unknown viewer
    count, and three without priority, with 0 viewers, with an unknown viewer
    count and with 250 viewers. *)
Definition acl_channel : Channel :=
  {| channel_id := 1; channel_name := "acl"; online := false; viewers := None;
     game := None; drops_enabled := false; priority := true |}.

Definition quiet_channel : Channel :=
  {| channel_id := 2; channel_name := "quiet"; online := true; viewers := Some 0;
     game := None; drops_enabled := true; priority := false |}.

Definition silent_channel : Channel :=
  {| channel_id := 4; channel_name := "silent"; online := false; viewers := None;
     game := None; drops_enabled := true; priority := false |}.

Definition busy_channel : Channel :=
  {| channel_id := 3; channel_name := "busy"; online := true; viewers := Some 250;
     game := None; drops_enabled := true; priority := false |}.

(** A pool of two websockets with two topics each. *)
Definition small_pool : Constants :=
  {| MAX_WEBSOCKETS := 2; WS_TOPICS_LIMIT := 2 |}.

(** A simple inventory: a campaign can be earned unless it is upcoming; a
    drop can be earned while unclaimed and short of its required minutes, and
    claimed when unclaimed and complete; campaigns come without drops. *)
Definition simple_inventory : InventoryAPI :=
  {| campaign_can_earn campaign _ := negb (upcoming campaign);
     drop_can_earn drop _ :=
       negb (is_claimed drop)
       && bool_decide (current_minutes drop < required_minutes drop);
     drop_can_claim drop :=
       negb (is_claimed drop)
       && bool_decide (required_minutes drop ≤ current_minutes drop);
     drop_claim drop :=
       {| drop_id := drop_id drop; current_minutes := current_minutes drop;
          required_minutes := required_minutes drop; is_claimed := true |};
     parse_drops _ _ := [] |}.

Definition chess : Game := {| game_id := 7; game_name := "Chess" |}.
Definition tetris : Game := {| game_id := 8; game_name := "Tetris" |}.

Definition chess_channel : Channel :=
  {| channel_id := 5; channel_name := "chess_live"; online := true;
     viewers := Some 40; game := Some chess; drops_enabled := true;
     priority := false |}.

Definition chess_campaign : Campaign :=
  {| campaign_data :=
       {| cd_id := "campaign-chess"; cd_game := chess; cd_box_art := "";
          cd_ends_at := 2000; cd_upcoming := false |};
     drops := [0%nat; 1%nat] |}.

Definition chess_drops : list TimedDrop :=
  [ {| drop_id := "drop-a"; current_minutes := 0; required_minutes := 60;
       is_claimed := false |};
    {| drop_id := "drop-b"; current_minutes := 10; required_minutes := 30;
       is_claimed := false |} ].

(** An orchestrator that mines chess: one campaign with two drops, one live
    channel, nothing watched yet. *)
Definition chess_miner : Twitch :=
  {| settings := default_settings; _state := CHANNEL_SWITCH;
     _state_change := true;
     games := {[ chess := 0 ]}; inventory := [chess_campaign];
     _drops := {[ "drop-a" := 0%nat; "drop-b" := 1%nat ]};
     heap := chess_drops;
     channels := [(2, quiet_channel); (5, chess_channel)];
     watching_channel := None; _drop_update := false;
     full_cleanup := false; gui_selection := Some quiet_channel;
     ws_topics := ∅; _session := Some ∅; cookies_file := ∅;
     _access_token := Some "token"; _user_id := Some 99;
     _is_logged_in := true; effects := [] |}.

Definition tetris_channel : Channel :=
  {| channel_id := 6; channel_name := "tetris_live"; online := true;
     viewers := Some 10; game := Some tetris; drops_enabled := true;
     priority := false |}.

(** An orchestrator with two live channels that can be watched, nothing
    selected and nothing watched: the channel that comes first plays chess,
    the game of rank 1; the other plays tetris, the game of rank 0. *)
Definition ranked_miner : Twitch :=
  {| settings := default_settings; _state := CHANNEL_SWITCH;
     _state_change := true;
     games := {[ chess := 1; tetris := 0 ]}; inventory := [chess_campaign];
     _drops := {[ "drop-a" := 0%nat; "drop-b" := 1%nat ]};
     heap := chess_drops;
     channels := [(5, chess_channel); (6, tetris_channel)];
     watching_channel := None; _drop_update := false;
     full_cleanup := false; gui_selection := None;
     ws_topics := ∅; _session := Some ∅; cookies_file := ∅;
     _access_token := Some "token"; _user_id := Some 99;
     _is_logged_in := true; effects := [] |}.

(** ** The candidates of [get_active_drop], in words *)

Section Candidates.
Context `{!InventoryAPI}.

(** A drop that can be earned on the channel [w], of a campaign of the
    inventory whose game is eligible and which can be progressed on [w]. *)
Definition candidate_drop (self : Twitch) (w : option Channel) (l : loc)
    : Prop :=
  ∃ campaign,
    campaign ∈ inventory self
    ∧ is_Some (games self !! campaign_game campaign)
    ∧ campaign_can_earn campaign w = true
    ∧ l ∈ drops campaign
    ∧ can_earn_at self w l = true.

(** A candidate of a campaign whose game is the game of the channel. *)
Definition strict_candidate_drop (self : Twitch) (w : option Channel)
    (l : loc) : Prop :=
  ∃ campaign,
    campaign ∈ inventory self
    ∧ is_Some (games self !! campaign_game campaign)
    ∧ campaign_can_earn campaign w = true
    ∧ l ∈ drops campaign
    ∧ can_earn_at self w l = true
    ∧ w ≫= game = Some (campaign_game campaign).

(** The drops the answer is chosen from: the strict candidates if there is
    one, all candidates otherwise. *)
Definition drop_pool (self : Twitch) (w : option Channel) (l : loc) : Prop :=
  strict_candidate_drop self w l
  ∨ ((∀ l', ¬ strict_candidate_drop self w l') ∧ candidate_drop self w l).

(** What a campaign adds to [drops]. *)
Definition campaign_candidates (self : Twitch) (w : option Channel)
    (campaign : Campaign) : list loc :=
  if bool_decide (is_Some (games self !! campaign_game campaign))
     && campaign_can_earn campaign w
  then List.filter (can_earn_at self w) (drops campaign) else [].

(** What a campaign adds to [strict_drops]. *)
Definition campaign_strict_candidates (self : Twitch) (w : option Channel)
    (campaign : Campaign) : list loc :=
  if bool_decide (w ≫= game = Some (campaign_game campaign))
  then campaign_candidates self w campaign else [].
End Candidates.

(** ** The games of [GAMES_UPDATE], in words *)

Section EligibleGames.
Context `{!InventoryAPI}.

(** The rank a game is recorded with. *)
Definition configured_rank (s : Settings) (g : Game) : Z :=
  default 0 (priorities s !! game_name g).

(** What the property asks of a campaign for its game to be recorded: the
    game is not excluded, it is in the priority list if priority-only mode
    is on, and the campaign can be progressed. *)
Definition should_record (s : Settings) (campaign : Campaign) : Prop :=
  (game_name (campaign_game campaign) ∉ exclude s)
  ∧ (priority_only s = true →
     game_name (campaign_game campaign) ∈ priority_names s)
  ∧ campaign_can_earn campaign None = true.

(** What the code asks of it. *)
Definition does_record (s : Settings) (campaign : Campaign) : Prop :=
  priority_only s = true
  ∧ game_name (campaign_game campaign) ∈ priority_names s
  ∧ (game_name (campaign_game campaign) ∉ exclude s)
  ∧ campaign_can_earn campaign None = true.
End EligibleGames.

(** The chess miner about to update its games, priority-only mode off. *)
Definition chess_updater : Twitch := set_state GAMES_UPDATE chess_miner.

(** The same with priority-only mode on and chess in the priority list. *)
Definition chess_only_settings : Settings :=
  {| exclude := ∅; priority_names := ["Chess"]; priority_only := true;
     priorities := {[ "Chess" := 3 ]} |}.

Definition chess_only_updater : Twitch :=
  let 'Build_Twitch _ b c d e f g h i j k l m n o p q r s := chess_updater in
  Build_Twitch chess_only_settings b c d e f g h i j k l m n o p q r s.

(** ** The fallback ladder of the watch loop, in words *)

Section Ladder.
Context `{!InventoryAPI}.

(** The identifier names a tracked drop that can be earned on the
    channel. *)
Definition tracked_earnable (self : Twitch) (channel : Channel)
    (drop_id : string) (l : loc) : Prop :=
  _drops self !! drop_id = Some l ∧ can_earn_at self (Some channel) l = true.

(** What the poll logs for a drop it does not know. *)
Definition missing_drop_log (self : Twitch) (drop_id : string) : list Effect :=
  match _drops self !! drop_id with
  | None => [LogError "Missing drop"]
  | Some _ => []
  end.

(** The local estimate took place between [self] and [self']: the
    best-candidate drop of [self], if there is one, has one minute more,
    and the effects after [before] are its display, or the log of a failed
    search, and the sleep until the next heartbeat. *)
Definition locally_estimated (self : Twitch) (channel : Channel)
    (before : list Effect) (self' : Twitch) : Prop :=
  match get_active_drop self (Some channel) with
  | Some l =>
      heap self' = alter bump_minutes l (heap self)
      ∧ effects self' = before ++ [Display l; WatchSleepNext]
  | None =>
      heap self' = heap self
      ∧ effects self'
        = before ++ [LogError "Active drop search failed"; WatchSleepNext]
  end.

(** The ladder as stated: whenever the rendezvous times out, the backend is
    asked for the current drop. *)
Definition timeout_is_followed_by_poll : Prop :=
  ∀ (self : Twitch) (channel : Channel) (poll : Exn + option (string * Z)),
    watching_channel self = Some channel →
    GqlCurrentDrop ∈ effects (watch_turn true None poll self).2.
End Ladder.

(** The chess miner watching its live channel. *)
Definition chess_watcher : Twitch :=
  set_watching_channel (Some chess_channel) chess_miner.

(** ** The retries of [request], in words *)

(** Several effects in a row. *)
Definition emit_all (es : list Effect) (t : Twitch) : Twitch :=
  let 'Build_Twitch a b c d e0 f g h i j k l m n o p q r s := t in
  Build_Twitch a b c d e0 f g h i j k l m n o p q r (s ++ es).

(** An attempt that failed on the connection and is retried: the request,
    then a sleep of [attempt] times a tenth of a second. *)
Definition retried (attempt : Z) : list Effect :=
  [SessionRequest attempt; Sleep attempt].

(** The connection error of an attempt, if the session's request failed on
    the connection. *)
Definition connection_error {R} (a : Attempt R) : option Z :=
  match a with
  | ConnectionFailed tag => Some tag
  | _ => None
  end.

(** What an attempt comes to once a connection error of the caller's body
    was thrown in, if the session's request does not fail on the connection:
    the exception of the session, or the [RuntimeError] of a second
    [yield]. *)
Definition after_throw {R} (a : Attempt R) : Exn :=
  match a with
  | Failed e => e
  | _ => RuntimeError "generator didn't stop after athrow()"
  end.

(** A network that drops the first two connections and then answers 200. *)
Definition flaky_network (attempt : Z) : Attempt Z :=
  if bool_decide (attempt < 2) then ConnectionFailed (100 + attempt)
  else Responded 200.

(** A network that is down. *)
Definition dead_network (attempt : Z) : Attempt Z :=
  ConnectionFailed (100 + attempt).

(** A network whose second answer cannot be decoded. *)
Definition garbled_network (attempt : Z) : Attempt Z :=
  if bool_decide (attempt < 1) then ConnectionFailed (100 + attempt)
  else Failed (OtherError "ContentTypeError").

(** A network whose first answer breaks off while the caller reads it, and
    that answers 200 afterwards. *)
Definition cut_network (attempt : Z) : Attempt Z :=
  if bool_decide (attempt < 1) then BodyConnectionFailed (100 + attempt)
  else Responded 200.

(** ** Session validation, in words *)

(** The end of [check_login], after the loop was left with the local
    [cookie] and the validated [user_id]. *)
Definition finish_login (cookie : gmap string string) (user_id : Z)
    (self : Twitch) : Twitch :=
  let self := set_is_logged_in true (set_user_id (Some user_id) self) in
  let jar := <["persistent" := pretty user_id]> cookie ∪ default ∅ (_session self) in
  set_cookies_file jar (set_session (Some jar) self).

(** The validation of [self] is due: [check_login] does not return at
    once. *)
Definition needs_validation (self : Twitch) : Prop :=
  ¬ (is_Some (_access_token self) ∧ is_Some (_user_id self)).

(** The last clause as stated: a status other than 200 and 401, on the first
    validation, makes the validation fail. *)
Definition other_status_is_fatal : Prop :=
  ∀ (self : Twitch) (login : Z → Exn + string)
    (validate : Z → option string → Exn + (Z * Z)),
    needs_validation self →
    is_Some (_session self) →
    (∀ token, ∃ status user_id,
       validate 0 token = inr (status, user_id) ∧ status ≠ 200 ∧ status ≠ 401) →
    ∃ e, (check_login login validate self).1 = inl e.

(** An orchestrator that starts with a session cookie from an earlier run. *)
Definition returning_user : Twitch :=
  set_session (Some {[ "auth-token" := "stale" ]}) (Twitch_init default_settings).

(** The login form gives the token ["fresh"]. *)
Definition fresh_login (attempt : Z) : Exn + string := inr "fresh".

(** A backend that is out of order once (status 500) and then accepts. *)
Definition recovering_backend (attempt : Z) (token : option string)
    : Exn + (Z * Z) :=
  if bool_decide (attempt = 0) then inr (500, 0) else inr (200, 99).

(** A backend that accepts the token ["fresh"] only. *)
Definition strict_backend (attempt : Z) (token : option string)
    : Exn + (Z * Z) :=
  if bool_decide (token = Some "fresh") then inr (200, 99) else inr (401, 0).

(** A backend that accepts nothing. *)
Definition rejecting_backend (attempt : Z) (token : option string)
    : Exn + (Z * Z) :=
  inr (401, 0).

(** ** The inventory refresh, in words *)

Section Refresh.
Context `{!InventoryAPI}.

(** The campaign objects made of campaign data, one after the other, with
    the drop objects they add to the store. *)
Fixpoint construct (claimed_benefits : gmap string Z) (h : list TimedDrop)
    (datas : list CampaignData) : list Campaign * list TimedDrop :=
  match datas with
  | [] => ([], h)
  | data :: datas' =>
      let new_drops := parse_drops data claimed_benefits in
      let campaign :=
        {| campaign_data := data;
           drops := seq (length h) (length new_drops) |} in
      let '(campaigns, h') :=
        construct claimed_benefits (h ++ new_drops) datas' in
      (campaign :: campaigns, h')
  end.

(** The data of the campaign fetched for a catalog entry, the backend
    answering the details request for [id] with [detail_of id]. *)
Definition fetched_data (detail_of : string → CampaignData)
    (entry : string * AvailableData) : CampaignData :=
  set_box_art (av_box_art entry.2) (detail_of entry.1).
End Refresh.

(** An inventory response with one campaign in progress, and a catalog with
    a campaign that ends earlier, the campaign in progress once more, an
    expired campaign and a campaign of an account that is not linked. *)
Definition tetris_data : CampaignData :=
  {| cd_id := "campaign-tetris"; cd_game := tetris; cd_box_art := "tetris.png";
     cd_ends_at := 300; cd_upcoming := false |}.

Definition chess_data : CampaignData :=
  {| cd_id := "campaign-chess"; cd_game := chess; cd_box_art := "";
     cd_ends_at := 100; cd_upcoming := false |}.

Definition sample_inventory_data : InventoryData :=
  {| in_progress := Some [tetris_data]; game_event_drops := [] |}.

Definition sample_catalog : list AvailableData :=
  [ {| av_id := "campaign-chess"; av_status := "ACTIVE"; av_connected := true;
       av_box_art := "chess.png" |};
    {| av_id := "campaign-tetris"; av_status := "ACTIVE"; av_connected := true;
       av_box_art := "tetris.png" |};
    {| av_id := "campaign-go"; av_status := "EXPIRED"; av_connected := true;
       av_box_art := "go.png" |};
    {| av_id := "campaign-shogi"; av_status := "UPCOMING"; av_connected := false;
       av_box_art := "shogi.png" |} ].

(** A backend that knows the details of the chess campaign, and answers any
    other details request with the details of the tetris campaign under the
    requested identifier. *)
Definition sample_detail_of (id : string) : CampaignData :=
  if bool_decide (id = "campaign-chess") then chess_data
  else {| cd_id := id; cd_game := tetris; cd_box_art := "";
          cd_ends_at := 300; cd_upcoming := false |}.

Definition sample_details (id : string) : Exn + CampaignData :=
  inr (sample_detail_of id).

(** A pool of one websocket with one topic: less than the two reserved
    slots. *)
Definition tiny_pool : Constants :=
  {| MAX_WEBSOCKETS := 1; WS_TOPICS_LIMIT := 1 |}.


(** ** Further code of [twitch.py] *)

(** *** Measures of a trace *)

(** The effect is a call of [session.request]. *)
Definition is_session_request (e : Effect) : bool :=
  match e with
  | SessionRequest _ => true
  | _ => false
  end.

(** The tenths of a second an [asyncio.sleep] effect lasts. *)
Definition slept_tenths (e : Effect) : Z :=
  match e with
  | Sleep tenths => tenths
  | _ => 0
  end.

(** The time slept in a trace, in tenths of a second. *)
Definition total_sleep (es : list Effect) : Z :=
  foldr (λ e acc, slept_tenths e + acc) 0 es.

(** What [Twitch.request] may do with a budget of [attempts]: requests with
    an index below the budget, and sleeps behind a request that is not the
    last one. *)
Definition within_budget (attempts : Z) (e : Effect) : Prop :=
  match e with
  | SessionRequest i => 0 ≤ i < attempts
  | Sleep i => 0 ≤ i < attempts - 1
  | _ => False
  end.

(** [Twitch.gql_request]: a [request] with the default budget of 5
    attempts, whose [async with] body decodes the response; [net attempt] is
    what the attempt comes to, the decoding included. *)
Definition gql_request {J} (net : Z → Attempt J) : M J := request net 5.

(** *** The hooks of a channel *)

Section Hooks.
Context `{!InventoryAPI}.

(** [Twitch.on_online]; the [or] chain is entered with the watched channel
    only when there is one. *)
Definition on_online (channel : Channel) (self : Twitch) : Twitch :=
  let channel_order := _game_key self channel in
  let watching_channel := get_with_default self None in
  let watching_order :=
    match watching_channel with
    | Some w => _game_key self w
    | None => 1
    end in
  if (bool_decide (_state self = IDLE)
      || match watching_channel with
         | None => true
         | Some w =>
             bool_decide (channel_order < watching_order)
             || (bool_decide (channel_order = watching_order)
                 && priority channel
                 && negb (priority w))
         end)
     && can_watch self channel
  then
    watch channel
      (emit (GuiPrint (String.append (channel_name channel)
                                     " goes ONLINE, switching..."))
            self)
  else self.
End Hooks.

(** A chess channel from the allow-list of a campaign. *)
Definition chess_acl_channel : Channel :=
  {| channel_id := 6; channel_name := "chess_acl"; online := true;
     viewers := Some 3; game := Some chess; drops_enabled := true;
     priority := true |}.

(** *** The maintenance task *)

Section Maintenance.
(** [channel.claim_bonus()] of [channel.py], which is not part of
    [twitch.py]: any code that runs on the miner and may raise. *)
Variable claim_bonus : Channel → M unit.

(** One turn of the [while True] of [Twitch._maintenance_loop], from the
    counter [i] to the next one; [asyncio.sleep(60)] is six hundred tenths
    of a second. *)
Definition maintenance_turn (i : Z) : M Z :=
  ((if bool_decide (i `mod` 30 = 1) then
      do channel <- gets (λ self, get_with_default self None);
      match channel with
      | Some channel => claim_bonus channel
      | None => ret tt
      end
    else ret tt) >>
   (if bool_decide (i `mod` 60 = 0)
    then modify (change_state INVENTORY_FETCH)
    else ret tt) >>
   let i := (i + 1) `mod` 3600 in
   effect (Sleep 600) >>
   ret i)%M.

(** The first [turns] turns of the loop, entered with the counter [i]; the
    source enters with [i = 1]. *)
Fixpoint maintenance_turns (turns : nat) (i : Z) : M Z :=
  match turns with
  | O => ret i
  | S turns => (do i <- maintenance_turn i; maintenance_turns turns i)%M
  end.

(** [Twitch._maintenance_loop], cut after [turns] turns. *)
Definition _maintenance_loop (turns : nat) : M Z := maintenance_turns turns 1.
End Maintenance.

(** A bonus claim that prints what it claimed. *)
Definition printed_bonus (channel : Channel) : M unit :=
  effect (GuiPrint (channel_name channel)).

(** *** Measures of a login check *)

(** The effect is a validation request. *)
Definition is_validate (e : Effect) : bool :=
  match e with
  | Validate _ => true
  | _ => false
  end.

(** The effect is a run of the login flow. *)
Definition is_login_flow (e : Effect) : bool :=
  match e with
  | LoginFlow => true
  | _ => false
  end.

(** The effect is one that [check_login] has: a run of the login flow, a
    validation request or the clearing of the cookies of the domain. *)
Definition is_login_effect (e : Effect) : bool :=
  match e with
  | LoginFlow | Validate _ | ClearDomain => true
  | _ => false
  end.


(** *** The index of the drops *)

(** [self._drops] agrees with [self.inventory]: an indexed identifier leads
    to a drop object that carries it and that a campaign of the inventory
    owns, and every drop object of a campaign of the inventory has its
    identifier indexed. *)
Definition index_consistent (self : Twitch) : Prop :=
  (∀ id l, _drops self !! id = Some l →
     (∃ drop, heap self !! l = Some drop ∧ drop_id drop = id)
     ∧ ∃ campaign, campaign ∈ inventory self ∧ l ∈ drops campaign)
  ∧ (∀ campaign l drop,
       campaign ∈ inventory self → l ∈ drops campaign →
       heap self !! l = Some drop →
       is_Some (_drops self !! drop_id drop)).

(** A details request that fails for every campaign. *)
Definition failing_details (id : string) : Exn + CampaignData :=
  inl (RequestException (Some 104)).

(** Campaigns of one drop each, named after the campaign; the rest as in
    [simple_inventory]. *)
Definition stocked_inventory : InventoryAPI :=
  {| campaign_can_earn := @campaign_can_earn simple_inventory;
     drop_can_earn := @drop_can_earn simple_inventory;
     drop_can_claim := @drop_can_claim simple_inventory;
     drop_claim := @drop_claim simple_inventory;
     parse_drops data _ :=
       [ {| drop_id := cd_id data; current_minutes := 0;
            required_minutes := 60; is_claimed := false |} ] |}.

(** *** [run], state [CHANNELS_CLEANUP] *)

(** [del d[k]] on an [OrderedDict]; [None] is the [KeyError] of a key that
    is not there. *)
Fixpoint odict_del {K V} `{EqDecision K} (k : K) (d : list (K * V))
    : option (list (K * V)) :=
  match d with
  | [] => None
  | (k', v') :: d' =>
      if bool_decide (k = k') then Some d'
      else cons (k', v') <$> odict_del k d'
  end.

(** [del channels[channel.id]]; [channel.remove()] only takes the channel
    off the display. *)
Definition remove_channel (channel : Channel) : M unit :=
  (do channels <- gets channels;
   match odict_del (channel_id channel) channels with
   | Some channels => modify (set_channels channels)
   | None => raise (KeyError (pretty (channel_id channel)))
   end)%M.

Section Cleanup.
(** [channel.offline] of [channel.py], which is not part of [twitch.py]. *)
Variable offline : Channel → bool.

(** The condition of the list comprehension of the partial cleanup. *)
Definition is_stale (self : Twitch) (channel : Channel) : bool :=
  negb (priority channel)
  && (offline channel
      || match game channel with
         | None => true
         | Some game => bool_decide (games self !! game = None)
         end).

(** The handler of [State.CHANNELS_CLEANUP]. *)
Definition channels_cleanup : M unit :=
  (do self <- gets id;
   let values := (channels self).*2 in
   let to_remove :=
     if bool_decide (games self = ∅) || full_cleanup self then values
     else List.filter (is_stale self) values in
   modify (set_full_cleanup false) >>
   (match to_remove with
    | [] => ret tt
    | _ =>
        modify (remove_topics (stream_state_topics (channel_id <$> to_remove))) >>
        for_each to_remove remove_channel
    end) >>
   do games <- gets games;
   if bool_decide (games ≠ ∅) then modify (change_state CHANNELS_FETCH)
   else
     effect (GuiPrint "No active campaigns to mine drops for. Waiting for an active campaign...") >>
     modify (change_state IDLE))%M.
End Cleanup.

(** The active set is keyed by the identifiers of its channels, each of
    them once. *)
Definition channels_keyed (d : list (Z * Channel)) : Prop :=
  NoDup d.*1 ∧ ∀ k channel, (k, channel) ∈ d → k = channel_id channel.

(** A channel is offline when it is not online (no stream is pending). *)
Definition settled_offline (channel : Channel) : bool := negb (online channel).

(** The end of the handler of [State.CHANNELS_CLEANUP]: the next state. *)
Definition after_cleanup (self : Twitch) : Twitch :=
  if bool_decide (games self ≠ ∅) then change_state CHANNELS_FETCH self
  else
    change_state IDLE
      (emit (GuiPrint "No active campaigns to mine drops for. Waiting for an active campaign...")
            self).

(** The chess miner, subscribed to the stream-state topics of its two
    channels and to the drops of its user. *)
Definition tracking_miner : Twitch :=
  set_ws_topics {[ StreamState 2; StreamState 5; UserDrops 99 ]} chess_miner.

(** *** [run], state [CHANNELS_FETCH]: relinking the watched channel *)

(** [d.get(k)] on an [OrderedDict]. *)
Fixpoint odict_get {K V} `{EqDecision K} (k : K) (d : list (K * V)) : option V :=
  match d with
  | [] => None
  | (k', v') :: d' => if bool_decide (k = k') then Some v' else odict_get k d'
  end.

Section Fetch.
Context `{!InventoryAPI} `{!Constants}.

(** The relinking of the watched channel after the active set was rebuilt. *)
Definition relink_watching (self : Twitch) : Twitch :=
  match get_with_default self None with
  | Some watching_channel =>
      match odict_get (channel_id watching_channel) (channels self) with
      | Some new_watching =>
          if can_watch self new_watching then watch new_watching self
          else stop_watching self
      | None => stop_watching self
      end
  | None => self
  end.

(** The loop that displays the active drop of the first channel that can be
    watched; [display(countdown=False, subone=True)] is a display of the
    drop. *)
Fixpoint predisplay (self : Twitch) (l : list Channel) : Twitch :=
  match l with
  | [] => self
  | channel :: l' =>
      if can_watch self channel then
        match get_active_drop self (Some channel) with
        | Some active_drop => emit (Display active_drop) self
        | None => self
        end
      else predisplay self l'
  end.

(** The handler of [State.CHANNELS_FETCH]; [gathered] is what the gathering
    of [new_channels] comes to: an exception of [check_online] or of
    [get_live_streams], or the channels of the ordered set, in its order. *)
Definition channels_fetch (gathered : Exn + list Channel) : M unit :=
  (do new_channels <- await gathered;
   modify (channels_fetch_select new_channels) >>
   modify relink_watching >>
   modify (λ self, predisplay self (channels self).*2) >>
   modify (change_state CHANNEL_SWITCH))%M.
End Fetch.

(** *** [run]: the loop of the state machine *)

(** How a turn of the [while True] of [run] ends: at the wait for the
    state-change flag, or with [break]. *)
Inductive Flow := Continue | Break.

(** Where the loop of [run] is after some turns: waiting for the
    state-change flag to be set, left through [break], or still running. *)
Inductive Pause := Waiting | Finished | Running.

Section Run.
Context `{!InventoryAPI} `{!Constants}.
(** What the requests of [fetch_inventory] and the gathering of channels
    come to, and [channel.offline]. *)
Variable inv : Exn + InventoryData.
Variable catalog : Exn + option (list AvailableData).
Variable details : string → Exn + CampaignData.
Variable gathered : Exn + list Channel.
Variable offline : Channel → bool.

(** The body of the [while True] of [Twitch.run], up to the wait for the
    state-change flag. *)
Definition run_turn : M Flow :=
  (do state <- gets _state;
   match state with
   | IDLE =>
       modify stop_watching >> modify (set_state_change false) >> ret Continue
   | INVENTORY_FETCH =>
       fetch_inventory inv catalog details >>
       modify (change_state GAMES_UPDATE) >> ret Continue
   | GAMES_UPDATE => modify games_update >> ret Continue
   | CHANNELS_CLEANUP => channels_cleanup offline >> ret Continue
   | CHANNELS_FETCH => channels_fetch gathered >> ret Continue
   | CHANNEL_SWITCH => channel_switch >> ret Continue
   | EXIT => ret Break
   end)%M.

(** The turns of the loop that follow each other without a wait, when no
    other task runs while a handler waits: [self._state_change.wait()]
    returns at once while the flag is set.  [run_loop_among] is the loop
    among the other tasks. *)
Fixpoint run_loop (turns : nat) : M Pause :=
  match turns with
  | O => ret Running
  | S turns =>
      (do flow <- run_turn;
       match flow with
       | Break => ret Finished
       | Continue =>
           do state_change <- gets _state_change;
           if state_change : bool then run_loop turns else ret Waiting
       end)%M
  end.

(** [Twitch.run], the loop cut after [turns] turns without a wait, when no
    other task runs while [run] waits.  [run_among] is [run] among the
    websocket and the two tasks that it starts. *)
Definition run (login : Z → Exn + string)
    (validate : Z → option string → Exn + (Z * Z)) (turns : nat) : M Pause :=
  λ self,
    match check_login login validate self with
    | (inl ExitRequest, self) => (inr Finished, self)
    | (inl e, self) => (inl e, self)
    | (inr _, self) =>
        (do user_id <- gets _user_id;
         match user_id with
         | None => raise AssertionError
         | Some user_id =>
             modify (add_topics {[ UserDrops user_id;
                                   UserCommunityPoints user_id ]}) >>
             modify (set_full_cleanup false) >>
             modify (change_state INVENTORY_FETCH) >>
             run_loop turns
         end)%M self
    end.
End Run.

(** The loop of [run] is at rest: it waits with the flag cleared, either in
    [IDLE] with nothing watched or in [CHANNEL_SWITCH] with a watched
    channel that can be watched. *)
Definition at_rest `{!InventoryAPI} (self : Twitch) : Prop :=
  _state_change self = false
  ∧ ((_state self = IDLE ∧ watching_channel self = None)
     ∨ (_state self = CHANNEL_SWITCH
        ∧ ∃ channel, watching_channel self = Some channel
                     ∧ can_watch self channel = true)).

(** *** Frames *)

(** A computation leaves a relation between the state before and the state
    after in place, whatever it comes to. *)
Definition frames {A} (R : relation Twitch) (m : M A) : Prop :=
  ∀ self, R self (m self).2.

(** What the handlers of the other states leave to the state machine: the
    state, its flag, the games, the watched channel, the pending selection
    and the cleanup flag. *)
Definition keeps_control : relation Twitch :=
  λ s s', _state s' = _state s
          ∧ _state_change s' = _state_change s
          ∧ games s' = games s
          ∧ watching_channel s' = watching_channel s
          ∧ gui_selection s' = gui_selection s
          ∧ full_cleanup s' = full_cleanup s.

(** The active set and its subscriptions are left alone. *)
Definition keeps_channels : relation Twitch :=
  λ s s', channels s' = channels s ∧ ws_topics s' = ws_topics s.

(** The loop of [run] has come to rest. *)
Definition comes_to_rest `{!InventoryAPI} (outcome : (Exn + Pause) * Twitch)
    : Prop :=
  outcome.1 = inr Waiting ∧ at_rest outcome.2.

(** The loop of [run] has come to rest or has raised. *)
Definition settles `{!InventoryAPI} (outcome : (Exn + Pause) * Twitch) : Prop :=
  (∃ e, outcome.1 = inl e) ∨ comes_to_rest outcome.

(** What the removal of channels leaves in place: the state, the games, the
    inventory and the watched channel. *)
Definition keeps_games : relation Twitch :=
  λ s s', _state s' = _state s
          ∧ _state_change s' = _state_change s
          ∧ games s' = games s
          ∧ inventory s' = inventory s
          ∧ watching_channel s' = watching_channel s.

(** An awaited result is an answer, not an exception. *)
Definition answered {A} (r : Exn + A) : Prop := ∃ a, r = inr a.

(** *** [run]: the loop among the other tasks *)

(** A part of a handler returns: whatever state it is started in, it does
    not raise. *)
Definition returns {A} (m : M A) : Prop := ∀ self, answered (m self).1.

(** A part of a handler, with the tasks that run meanwhile, leaves the
    active set keyed by channel identifier. *)
Definition keeps_keyed {A} (m : M A) : Prop :=
  ∀ self, channels_keyed (channels self) → channels_keyed (channels (m self).2).

(** No task asks to exit while the part of a handler waits. *)
Definition no_exit {A} (m : M A) : Prop :=
  ∀ self, _state self ≠ EXIT → _state (m self).2 ≠ EXIT.


(** The handlers of three states wait in their course: [INVENTORY_FETCH] at
    [await self.fetch_inventory()], [GAMES_UPDATE] at every
    [await drop.claim()], a request that may raise, and [CHANNELS_FETCH] at
    [asyncio.gather(...)] and at every [await self.get_live_streams(game)].
    While the loop waits there the other tasks run: the handlers of the
    websocket, the watch loop, the maintenance task and the GUI, which may
    ask for any state, [EXIT] included, and change what they have access
    to.  Each of these parts of a handler is therefore taken together with
    whatever runs while it waits, as any computation on the miner.  The
    other handlers and the rest of these three do not wait. *)
Section RunAmong.
Context `{!InventoryAPI} `{!Constants}.
(** [await self.fetch_inventory()]. *)
Variable fetching : M unit.
(** The first loop over [self.inventory] in [GAMES_UPDATE]. *)
Variable claiming : M unit.
(** The gathering of [new_channels] in [CHANNELS_FETCH], up to the last
    [await self.get_live_streams(game)]. *)
Variable gathering : M (list Channel).
Variable offline : Channel → bool.

(** The handler of [State.GAMES_UPDATE] after its first loop: the games are
    collected with the settings of that moment and the [priorities] read
    before the first loop. *)
Definition games_collect (priorities : gmap string Z) (self : Twitch)
    : Twitch :=
  let s :=
    {| exclude := exclude (settings self);
       priority_names := priority_names (settings self);
       priority_only := priority_only (settings self);
       priorities := priorities |} in
  let self :=
    set_games (foldl (collect_game s) (games self) (inventory self)) self in
  let self := set_full_cleanup true self in
  change_state CHANNELS_CLEANUP self.

(** The body of the [while True] of [Twitch.run], up to the wait for the
    state-change flag. *)
Definition run_turn_among : M Flow :=
  (do state <- gets _state;
   match state with
   | IDLE =>
       modify stop_watching >> modify (set_state_change false) >> ret Continue
   | INVENTORY_FETCH =>
       fetching >> modify (change_state GAMES_UPDATE) >> ret Continue
   | GAMES_UPDATE =>
       modify (set_games ∅) >>
       do priorities <- gets (λ self, priorities (settings self));
       claiming >>
       modify (games_collect priorities) >> ret Continue
   | CHANNELS_CLEANUP => channels_cleanup offline >> ret Continue
   | CHANNELS_FETCH =>
       (do new_channels <- gathering; channels_fetch (inr new_channels)) >>
       ret Continue
   | CHANNEL_SWITCH => channel_switch >> ret Continue
   | EXIT => ret Break
   end)%M.

(** The turns of the loop that follow each other without a wait at
    [self._state_change.wait()], which returns at once while the flag is
    set. *)
Fixpoint run_loop_among (turns : nat) : M Pause :=
  match turns with
  | O => ret Running
  | S turns =>
      (do flow <- run_turn_among;
       match flow with
       | Break => ret Finished
       | Continue =>
           do state_change <- gets _state_change;
           if state_change : bool then run_loop_among turns else ret Waiting
       end)%M
  end.

(** [Twitch.run], the loop cut after [turns] turns without a wait;
    [starting] is [await self.websocket.start()] with whatever runs while
    it waits. *)
Definition run_among (starting : M unit) (login : Z → Exn + string)
    (validate : Z → option string → Exn + (Z * Z)) (turns : nat) : M Pause :=
  λ self,
    match check_login login validate self with
    | (inl ExitRequest, self) => (inr Finished, self)
    | (inl e, self) => (inl e, self)
    | (inr _, self) =>
        (starting >>
         do user_id <- gets _user_id;
         match user_id with
         | None => raise AssertionError
         | Some user_id =>
             modify (add_topics {[ UserDrops user_id;
                                   UserCommunityPoints user_id ]}) >>
             modify (set_full_cleanup false) >>
             modify (change_state INVENTORY_FETCH) >>
             run_loop_among turns
         end)%M self
    end.

(** The parts that wait return and leave the active set keyed. *)
Definition parts_answer : Prop :=
  returns fetching ∧ returns claiming ∧ returns gathering
  ∧ keeps_keyed fetching ∧ keeps_keyed claiming.

(** No task asks to exit while a handler waits. *)
Definition parts_calm : Prop :=
  no_exit fetching ∧ no_exit claiming ∧ no_exit gathering.
End RunAmong.

(** The first loop over [self.inventory] in [GAMES_UPDATE] when every claim
    is answered and no other task runs meanwhile. *)
Definition claiming_alone `{!InventoryAPI} : M unit :=
  modify (λ self, set_heap (claim_drops (inventory self) (heap self)) self).

(** The loop of [run] has been left through [break], in [EXIT]. *)
Definition exits (outcome : (Exn + Pause) * Twitch) : Prop :=
  outcome.1 = inr Finished ∧ _state outcome.2 = EXIT.

(** How the loop among the other tasks ends: it raises, which [answer]
    excludes; it is left through [break] in [EXIT], which [calm] excludes; or
    it comes to rest. *)
Definition settles_among `{!InventoryAPI} (answer calm : Prop)
    (outcome : (Exn + Pause) * Twitch) : Prop :=
  (∃ e, outcome.1 = inl e ∧ ¬ answer)
  ∨ (exits outcome ∧ ¬ calm)
  ∨ comes_to_rest outcome.

(** An inventory fetch during which the GUI is closed: the first request is
    out when [request_close] asks for [EXIT], and the fetch is left there. *)
Definition closing : M unit :=
  (effect GqlInventory >> modify (change_state EXIT))%M.

(** The subscriptions other than those to the stream state of a channel
    stay. *)
Definition keeps_account_topics : relation Twitch :=
  λ s s', ∀ topic, (∀ id, topic ≠ StreamState id) →
                   topic ∈ ws_topics s → topic ∈ ws_topics s'.

(** A gathering of channels that finds the two channels of the chess
    miner. *)
Definition chess_gathering : Exn + list Channel :=
  inr [quiet_channel; chess_channel].

(** The chess miner at the start of the loop of [run], priority-only mode
    on and chess in the priority list. *)
Definition starting_miner : Twitch :=
  set_ws_topics {[ StreamState 2; StreamState 5; UserDrops 99 ]}
    (set_state INVENTORY_FETCH chess_only_updater).

(** The login is left alone: the session, the cookie file, the access
    token, the user and the logged-in flag. *)
Definition keeps_login : relation Twitch :=
  λ s s', _session s' = _session s
          ∧ cookies_file s' = cookies_file s
          ∧ _access_token s' = _access_token s
          ∧ _user_id s' = _user_id s
          ∧ _is_logged_in s' = _is_logged_in s.

(** A part of a handler, with the tasks that run meanwhile, leaves the
    login and the account topics alone. *)
Definition keeps_account {A} (m : M A) : Prop :=
  frames keeps_login m ∧ frames keeps_account_topics m.

(** A login form that is closed by the user. *)
Definition closed_login (attempt : Z) : Exn + string := inl ExitRequest.

(** A miner that was never logged in, about to run. *)
Definition new_miner : Twitch :=
  set_session (Some ∅) (Twitch_init chess_only_settings).

(** A new process: [Twitch.__init__] again, with the cookie file that the
    old process left on disk. *)
Definition restart (settings : Settings) (old : Twitch) : Twitch :=
  set_cookies_file (cookies_file old) (Twitch_init settings).

(** *** [process_drops], message type ["drop-claim"]: the wait for the next drop *)

(** The [for attempt in range(8)] that follows a claim.  [net attempt] is
    the network during the current-drop request of that attempt:
    [net attempt i] is what the session request of index [i] of that
    [gql_request] comes to, the answer being the [dropID] of the
    [dropCurrentSession] of the decoded response, if there is one.
    [asyncio.sleep(2)] is twenty tenths of a second. *)
Fixpoint next_drop_attempts (net : Z → Z → Attempt (option string))
    (drop_id : string) (todo : list Z) : M unit :=
  match todo with
  | [] => ret tt
  | attempt :: todo' =>
      (effect GqlCurrentDrop >>
       do drop_data <- gql_request (net attempt);
       match drop_data with
       | None => ret tt
       | Some id =>
           if bool_decide (id ≠ drop_id) then ret tt
           else effect (Sleep 20) >> next_drop_attempts net drop_id todo'
       end)%M
  end.

(** The wait of [Twitch.process_drops] between the claim of the drop
    [drop_id] and the restart of the watching. *)
Definition await_next_drop (net : Z → Z → Attempt (option string))
    (drop_id : string) : M unit :=
  (effect (Sleep 40) >> next_drop_attempts net drop_id (range 8))%M.

(** The effect is a current-drop request. *)
Definition is_current_drop_request (e : Effect) : bool :=
  match e with
  | GqlCurrentDrop => true
  | _ => false
  end.

(** The effects of the wait: current-drop requests, the session requests
    that carry them, and sleeps. *)
Definition is_waiting (e : Effect) : bool :=
  match e with
  | GqlCurrentDrop | SessionRequest _ | Sleep _ => true
  | _ => false
  end.

(** The most that the attempts [todo] of a [request] with a budget of
    [attempts] can sleep, in tenths of a second: the index of every attempt
    but the last of the budget. *)
Definition backoff_budget (attempts : Z) (todo : list Z) : Z :=
  foldr (λ i acc, (if bool_decide (i < attempts - 1) then i else 0) + acc)
        0 todo.

(** The request is answered with [response] at the attempt of index [j],
    the attempts before it having failed on the connection. *)
Definition answered_at {R} (net : Z → Attempt R) (j : nat) (response : R)
    : Prop :=
  (∀ i, 0 ≤ i < Z.of_nat j → is_Some (connection_error (net i)))
  ∧ net (Z.of_nat j) = Responded response.

(** The trace of a request that is answered at the attempt of index [j]. *)
Definition answered_trace (j : nat) : list Effect :=
  (range (Z.of_nat j) ≫= retried) ++ [SessionRequest (Z.of_nat j)].

(** A poll that still sees the claimed drop, answered at the attempt
    [tries attempt], and the sleep after it. *)
Definition still_claimed (tries : Z → nat) (attempt : Z) : list Effect :=
  GqlCurrentDrop :: answered_trace (tries attempt) ++ [Sleep 20].

(** A backend on which the next drop starts with the third poll, and which
    drops the first connection of the second poll. *)
Definition slow_backend (attempt i : Z) : Attempt (option string) :=
  if bool_decide (attempt = 1 ∧ i < 1) then ConnectionFailed 100
  else if bool_decide (attempt < 2) then Responded (Some "drop-a")
  else Responded (Some "drop-b").

(** The attempt at which each poll of [slow_backend] is answered. *)
Definition slow_backend_tries (attempt : Z) : nat :=
  if bool_decide (attempt = 1) then 1%nat else 0%nat.

(** *** The login flow *)

(** The JSON payload of the login request, its constant fields apart; an
    absent key is [None].  [captcha] holds the proof. *)
Record Payload := {
  username : string;
  password : string;
  authy_token : option string;
  twitchguard_code : option string;
  captcha : option string;
}.

(** The JSON of the login response, as far as [_login] reads it. *)
Record LoginResponse := {
  captcha_proof : option string;
  error_code : option Z;
  error : option string;
  access_token : option string;
}.

Definition set_captcha (v : option string) (p : Payload) : Payload :=
  {| username := username p; password := password p;
     authy_token := authy_token p; twitchguard_code := twitchguard_code p;
     captcha := v |}.
Definition set_authy_token (v : option string) (p : Payload) : Payload :=
  {| username := username p; password := password p;
     authy_token := v; twitchguard_code := twitchguard_code p;
     captcha := captcha p |}.
Definition set_twitchguard_code (v : option string) (p : Payload) : Payload :=
  {| username := username p; password := password p;
     authy_token := authy_token p; twitchguard_code := v;
     captcha := captcha p |}.

(** How the [for attempt in range(2)] of [_login] is left: with the access
    token that [_login] returns, or, through [break] or at its end, for the
    next turn of the [while True]. *)
Inductive LoginStep := Granted (token : string) | AskAgain.

(** The [for attempt in range(2)] of [Twitch._login], with the payload it
    leaves.  [post attempt payload] is what the request with that payload
    and [response.json()] come to: the answer, or the exception that
    [Twitch.request] ends with; the session requests and the sleeps of
    [Twitch.request] (see [request]) are not recorded here, nor is the
    session it may create.  [token] is the 2FA code that the login form
    gave; [login_form.clear(...)] only empties fields of the form. *)
Fixpoint login_attempts (post : Z → Payload → Exn + LoginResponse)
    (token : string) (payload : Payload) (todo : list Z)
    : M (LoginStep * Payload) :=
  match todo with
  | [] => ret (AskAgain, payload)
  | attempt :: todo' =>
      (do login_response <- await (post attempt payload);
       let payload :=
         match captcha_proof login_response with
         | Some proof => set_captcha (Some proof) payload
         | None => payload
         end in
       match error_code login_response with
       | Some error_code =>
           if bool_decide (error_code = 1000) then raise CaptchaRequired
           else if bool_decide (error_code = 3001) then
             effect (GuiPrint "Incorrect username or password.") >>
             ret (AskAgain, payload)
           else if bool_decide (error_code = 3012 ∨ error_code = 3023) then
             (if bool_decide (error_code = 3023)
              then effect (GuiPrint "Incorrect email code.")
              else effect (GuiPrint "Incorrect 2FA code.")) >>
             ret (AskAgain, payload)
           else if bool_decide (error_code = 3011 ∨ error_code = 3022) then
             let email := bool_decide (error_code = 3022) in
             if bool_decide (token = "") then
               (if email
                then effect (GuiPrint "Email code required. Check your email.")
                else effect (GuiPrint "2FA token required.")) >>
               ret (AskAgain, payload)
             else
               let payload :=
                 if email then set_twitchguard_code (Some token) payload
                 else set_authy_token (Some token) payload in
               login_attempts post token payload todo'
           else
             match error login_response with
             | Some msg => raise (LoginException msg)
             | None => raise (KeyError "error")
             end
       | None =>
           match access_token login_response with
           | Some access_token =>
               modify (set_access_token (Some access_token)) >>
               ret (Granted access_token, payload)
           | None => login_attempts post token payload todo'
           end
       end)%M
  end.

(** The [while True] of [Twitch._login], cut after [prompts] turns, from
    the turn of index [prompt] on; [None] is a loop that is still asking.
    [ask prompt] is what [login_form.ask_login()] comes to in that turn:
    an exception, or the user name, the password and the 2FA code.  Of the
    payload, the captcha proof alone outlives a turn. *)
Fixpoint login_prompts (ask : Z → Exn + (string * string * string))
    (post : Z → Z → Payload → Exn + LoginResponse)
    (proof : option string) (prompt : Z) (prompts : nat)
    : M (option string) :=
  match prompts with
  | O => ret None
  | S prompts =>
      (do '(username, password, token) <- await (ask prompt);
       let payload :=
         {| username := username; password := password;
            authy_token := None; twitchguard_code := None;
            captcha := proof |} in
       do '(step, payload) <-
         login_attempts (post prompt) token payload (range 2);
       match step with
       | Granted access_token => ret (Some access_token)
       | AskAgain =>
           login_prompts ask post (captcha payload) (prompt + 1) prompts
       end)%M
  end.

(** [Twitch._login] *)
Definition _login (ask : Z → Exn + (string * string * string))
    (post : Z → Z → Payload → Exn + LoginResponse) (prompts : nat)
    : M (option string) :=
  login_prompts ask post None 0 prompts.

(** What the login flow has done to the miner: it has printed messages and,
    if it was granted a token, stored it. *)
Definition login_trace (granted : option string) (self s' : Twitch) : Prop :=
  ∃ msgs,
    s' = match granted with
         | Some token =>
             set_access_token (Some token) (emit_all (GuiPrint <$> msgs) self)
         | None => emit_all (GuiPrint <$> msgs) self
         end.

(** The payload of the first request of a turn. *)
Definition first_payload (username password : string) (proof : option string)
    : Payload :=
  {| username := username; password := password; authy_token := None;
     twitchguard_code := None; captcha := proof |}.

(** The payload after a response: the captcha proof of the response, if
    there is one, is fed back. *)
Definition with_proof (login_response : LoginResponse) (payload : Payload)
    : Payload :=
  match captcha_proof login_response with
  | Some proof => set_captcha (Some proof) payload
  | None => payload
  end.

(** A user with an authenticator: the same credentials at every prompt,
    with the code ["123456"]. *)
Definition authy_user (prompt : Z) : Exn + (string * string * string) :=
  inr ("user", "secret", "123456").

(** A backend that asks for the authenticator code and accepts the request
    that carries it; the first answer comes with a captcha proof. *)
Definition authy_backend (prompt attempt : Z) (payload : Payload)
    : Exn + LoginResponse :=
  match authy_token payload with
  | Some _ =>
      inr {| captcha_proof := None; error_code := None; error := None;
             access_token := Some "granted" |}
  | None =>
      inr {| captcha_proof := Some "proof"; error_code := Some 3011;
             error := Some "missing authy token"; access_token := None |}
  end.

(** A backend that asks for the authenticator code, refuses the first code
    it gets and accepts the next request, whatever it carries. *)
Definition picky_backend (prompt attempt : Z) (payload : Payload)
    : Exn + LoginResponse :=
  if bool_decide (prompt = 0) then
    match authy_token payload with
    | Some _ =>
        inr {| captcha_proof := None; error_code := Some 3012;
               error := Some "invalid authy token"; access_token := None |}
    | None =>
        inr {| captcha_proof := Some "proof"; error_code := Some 3011;
               error := Some "missing authy token"; access_token := None |}
    end
  else
    inr {| captcha_proof := None; error_code := None; error := None;
           access_token := Some "granted" |}.

(** *** Measures of the watch loop *)

(** Of the drops, nothing but the minutes watched has changed: the
    inventory, the index and the number of drop objects are the same, and
    every drop object keeps its identifier, its required minutes and its
    claim. *)
Definition only_minutes : relation Twitch :=
  λ s s', inventory s' = inventory s
          ∧ _drops s' = _drops s
          ∧ length (heap s') = length (heap s)
          ∧ ∀ l drop, heap s !! l = Some drop →
              ∃ drop', heap s' !! l = Some drop'
                       ∧ drop_id drop' = drop_id drop
                       ∧ required_minutes drop' = required_minutes drop
                       ∧ is_claimed drop' = is_claimed drop.

(** The effect is a heartbeat or a sleep of the watch loop
    ([self._watch_sleep]): what paces the loop.  The sleeps of
    [Twitch.request] between the attempts of a request are not of this
    kind. *)
Definition is_pacing (e : Effect) : bool :=
  match e with
  | SendWatch _ | WatchSleep _ | WatchSleepNext => true
  | _ => false
  end.

(** Neither a heartbeat nor a sleep of the watch loop has happened: the
    effects that were added do not pace the watch loop. *)
Definition quiet : relation Twitch :=
  λ s s', ∃ es, effects s' = effects s ++ es ∧ List.filter is_pacing es = [].

(** The pending-update flag is what it was. *)
Definition keeps_pending : relation Twitch :=
  λ s s', _drop_update s' = _drop_update s.

(* ===================================================================== *)
(** * Part II: properties                                                *)
(* ===================================================================== *)

(** ** The state field *)

Lemma change_state_state (state : State) (self : Twitch) :
  _state (change_state state self)
  = if bool_decide (_state self = EXIT) then EXIT else state.
Proof.
  unfold change_state. destruct self as [? st ?]; simpl.
  destruct st; reflexivity.
Qed.

Lemma change_state_signals (state : State) (self : Twitch) :
  _state_change (change_state state self) = true.
Proof.
  unfold change_state. destruct self as [? st ?]; simpl.
  destruct st; reflexivity.
Qed.

Lemma change_states_app (l1 l2 : list State) (self : Twitch) :
  change_states (l1 ++ l2) self = change_states l2 (change_states l1 self).
Proof. unfold change_states. apply foldl_app. Qed.

Lemma change_states_exit (requests : list State) (self : Twitch) :
  _state self = EXIT → _state (change_states requests self) = EXIT.
Proof.
  revert self. induction requests as [|r requests IH]; intros self Hexit.
  - exact Hexit.
  - simpl. apply IH. rewrite change_state_state, Hexit. reflexivity.
Qed.

(** C3.  Once a sequence of [change_state] calls has left the state field at
    [EXIT], whatever calls follow, with whatever requested states, leave it
    at [EXIT]. *)
Theorem change_state_exit_is_sticky (before after : list State) (self : Twitch) :
  _state (change_states before self) = EXIT →
  _state (change_states (before ++ after) self) = EXIT.
Proof.
  intros Hexit. rewrite change_states_app. by apply change_states_exit.
Qed.

Lemma change_state_exit_is_sticky_witness :
  _state (change_states [GAMES_UPDATE; EXIT] (Twitch_init default_settings)) = EXIT
  ∧ _state (change_states ([GAMES_UPDATE; EXIT] ++ [IDLE; INVENTORY_FETCH; CHANNEL_SWITCH])
              (Twitch_init default_settings)) = EXIT.
Proof.
  split; [reflexivity|].
  apply (change_state_exit_is_sticky [GAMES_UPDATE; EXIT]
           [IDLE; INVENTORY_FETCH; CHANNEL_SWITCH] (Twitch_init default_settings)).
  reflexivity.
Defined.

(** A request made through [request_close] is an [EXIT] request: from then
    on the field never changes. *)
Lemma change_state_after_exit_request (after : list State) (self : Twitch) :
  _state (change_states (EXIT :: after) self) = EXIT.
Proof.
  simpl. apply change_states_exit. rewrite change_state_state.
  case_bool_decide; reflexivity.
Qed.

(** ** The stable sort *)

Section SortFacts.
Context {A : Type}.
Implicit Types (key : A → Z) (l : list A) (R : relation A).

Lemma insert_by_perm key x l : insert_by key x l ≡ₚ x :: l.
Proof.
  induction l as [|y l IH]; simpl; [done|].
  case_bool_decide; [done|]. rewrite IH. apply Permutation_swap.
Qed.

Lemma sorted_by_perm key l : sorted_by key l ≡ₚ l.
Proof.
  induction l as [|x l IH]; simpl; [done|].
  rewrite insert_by_perm. by rewrite IH.
Qed.


Lemma sorted_by_length key l : length (sorted_by key l) = length l.
Proof. by rewrite sorted_by_perm. Qed.

Lemma elem_of_sorted_by key l x : x ∈ sorted_by key l ↔ x ∈ l.
Proof. by rewrite sorted_by_perm. Qed.

Lemma insert_by_then_by key R x l :
  Forall (R x) l →
  StronglySorted (then_by key R) l →
  StronglySorted (then_by key R) (insert_by key x l).
Proof.
  induction l as [|y l IH]; intros HR Hs; simpl.
  - repeat constructor.
  - apply StronglySorted_cons in Hs as [Hy Hs].
    apply Forall_cons in HR as [HRy HR].
    case_bool_decide as Hle.
    + apply StronglySorted_cons. split.
      * constructor.
        { unfold then_by. destruct (decide (key x = key y)); [by right|left; lia]. }
        rewrite Forall_forall in Hy, HR. apply Forall_forall. intros z Hz.
        specialize (Hy z Hz). specialize (HR z Hz). unfold then_by in *.
        destruct (decide (key x = key z)); [by right|left; lia].
      * apply StronglySorted_cons. done.
    + apply StronglySorted_cons. split; [|by apply IH].
      rewrite insert_by_perm. constructor; [|done].
      left. lia.
Qed.

(** Stability: sorting by [key] a list that is in [R]-order gives a list in
    the order of [key], then [R]. *)
Lemma sorted_by_then_by key R l :
  StronglySorted R l → StronglySorted (then_by key R) (sorted_by key l).
Proof.
  induction l as [|x l IH]; intros Hs; simpl; [constructor|].
  apply StronglySorted_cons in Hs as [Hx Hs].
  apply insert_by_then_by; [|by apply IH].
  by rewrite sorted_by_perm.
Qed.

Lemma StronglySorted_any l : StronglySorted (λ _ _ : A, True) l.
Proof. induction l; constructor; [done|]. by apply Forall_forall. Qed.

(** The result is in ascending order of the key. *)
Lemma sorted_by_sorted key l :
  StronglySorted (λ a b, key a ≤ key b) (sorted_by key l).
Proof.
  pose proof (sorted_by_then_by key _ l (StronglySorted_any l)) as Hs.
  induction Hs as [|a s Hs IH Ha]; constructor; [done|].
  eapply Forall_impl; [exact Ha|]. unfold then_by. intros b. simpl. lia.
Qed.

(** Stability, said with the input: elements with the same key come out in
    the order they came in. *)
Lemma insert_by_filter key (P : A → Prop) `{∀ a, Decision (P a)} x l :
  (∀ a b, P a → P b → key a = key b) →
  Forall (λ y, P x → P y → key x ≤ key y) l →
  filter P (insert_by key x l) = filter P (x :: l).
Proof.
  intros Hkey. induction l as [|y l IH]; intros Hall; simpl; [done|].
  apply Forall_cons in Hall as [_ Hall].
  case_bool_decide as Hle; [done|].
  rewrite filter_cons, (IH Hall), !filter_cons.
  destruct (decide (P y)) as [Py|]; [|done].
  destruct (decide (P x)) as [Px|]; [|done].
  specialize (Hkey x y Px Py). lia.
Qed.

Lemma sorted_by_stable key k l :
  filter (λ a, key a = k) (sorted_by key l) = filter (λ a, key a = k) l.
Proof.
  induction l as [|x l IH]; simpl; [done|].
  rewrite insert_by_filter.
  - by rewrite !filter_cons, IH.
  - intros a b. simpl. congruence.
  - apply Forall_forall. intros y _. simpl. lia.
Qed.

Lemma StronglySorted_lookup R l i j a b :
  StronglySorted R l → (i < j)%nat →
  l !! i = Some a → l !! j = Some b → R a b.
Proof.
  intros Hs. revert i j. induction Hs as [|x l Hs IH Hx]; intros i j Hij Hi Hj.
  - by rewrite lookup_nil in Hi.
  - destruct j as [|j]; [lia|]. destruct i as [|i]; simpl in *.
    + simplify_eq. rewrite Forall_forall in Hx. apply Hx.
      by eapply list_elem_of_lookup_2.
    + eapply (IH i j); [lia|done..].
Qed.
End SortFacts.

(** ** The ranking of [CHANNELS_FETCH] *)

Lemma _game_key_no_game (self : Twitch) (ch : Channel) :
  game ch = None → _game_key self ch = 1.
Proof. unfold _game_key. by intros ->. Qed.

Lemma _game_key_not_eligible (self : Twitch) (ch : Channel) (g : Game) :
  game ch = Some g → games self !! g = None → _game_key self ch = 0.
Proof. unfold _game_key. by intros -> ->. Qed.

Lemma _game_key_eligible (self : Twitch) (ch : Channel) (g : Game) (rank : Z) :
  game ch = Some g → games self !! g = Some rank → _game_key self ch = rank.
Proof. unfold _game_key. by intros -> ->. Qed.

Lemma _viewers_key_unknown (ch : Channel) :
  viewers ch = None → _viewers_key ch = -1.
Proof. unfold _viewers_key. by intros ->. Qed.


Lemma rank_channels_sorted (self : Twitch) (new_channels : list Channel) :
  StronglySorted (ranking_order self) (rank_channels self new_channels).
Proof.
  unfold rank_channels, ranking_order, sorted_by_rev.
  do 3 apply sorted_by_then_by. apply StronglySorted_any.
Qed.

(** Of two channels of the ranking, the one in front is the one the ranking
    order puts first. *)
Lemma rank_channels_lookup (self : Twitch) (new_channels : list Channel)
    (i j : nat) (a b : Channel) :
  rank_channels self new_channels !! i = Some a →
  rank_channels self new_channels !! j = Some b →
  ¬ ranking_order self b a → a ≠ b → (i < j)%nat.
Proof.
  intros Hi Hj Hnot Hne.
  destruct (decide (i < j)%nat) as [|Hge]; [done|].
  destruct (decide (i = j)) as [->|]; [congruence|].
  exfalso. apply Hnot.
  eapply (StronglySorted_lookup _ _ j i);
    [apply rank_channels_sorted|lia|done..].
Qed.

(** C4, as amended.  In the ranking of [CHANNELS_FETCH], of two channels with
    the same game rank: one with the priority flag stands in front of one
    without; with the same priority flag, the one with the higher viewers key
    (the viewer count, or -1 when it is unknown) stands in front; and so one
    with viewer count 0 stands in front of one with an unknown viewer
    count. *)
Theorem rank_channels_order (self : Twitch) (new_channels : list Channel)
    (i j : nat) (a b : Channel) :
  rank_channels self new_channels !! i = Some a →
  rank_channels self new_channels !! j = Some b →
  _game_key self a = _game_key self b →
  (priority a = true → priority b = false → (i < j)%nat)
  ∧ (priority a = priority b → _viewers_key b < _viewers_key a → (i < j)%nat)
  ∧ (priority a = priority b → viewers a = Some 0 → viewers b = None →
     (i < j)%nat).
Proof.
  intros Hi Hj Hgame.
  assert (Hview : priority a = priority b → _viewers_key b < _viewers_key a →
                  (i < j)%nat).
  { intros Hprio Hv. eapply rank_channels_lookup; [done..| |].
    - unfold ranking_order, then_by, _priority_key. rewrite Hprio. lia.
    - intros ->. lia. }
  split; [|split; [done|]].
  - intros Ha Hb. eapply rank_channels_lookup; [done..| |].
    + unfold ranking_order, then_by, _priority_key. rewrite Ha, Hb. simpl. lia.
    + intros ->. congruence.
  - intros Hprio Ha Hb. apply Hview; [done|].
    unfold _viewers_key. rewrite Ha, Hb. lia.
Qed.

Lemma rank_channels_order_witness :
  let st := Twitch_init default_settings in
  let l := [silent_channel; quiet_channel; busy_channel; acl_channel] in
  rank_channels st l = [acl_channel; busy_channel; quiet_channel; silent_channel]
  ∧ (0 < 1)%nat ∧ (1 < 2)%nat ∧ (2 < 3)%nat.
Proof.
  intros st l.
  destruct (rank_channels_order st l 0 1 acl_channel busy_channel
              eq_refl eq_refl eq_refl) as (Hflag & _ & _).
  destruct (rank_channels_order st l 1 2 busy_channel quiet_channel
              eq_refl eq_refl eq_refl) as (_ & Hviewers & _).
  destruct (rank_channels_order st l 2 3 quiet_channel silent_channel
              eq_refl eq_refl eq_refl) as (_ & _ & Hunknown).
  split; [reflexivity|]. split; [|split].
  - apply Hflag; reflexivity.
  - apply Hviewers; [reflexivity|]. reflexivity.
  - apply Hunknown; reflexivity.
Defined.

(** C4, the clause as stated: a channel with an unknown viewer count does
    outrank one with viewer count 0, when it has the priority flag (or a lower
    game rank), since the viewers are the least significant key. *)
Lemma unknown_viewers_outrank_zero :
  rank_channels (Twitch_init default_settings) [quiet_channel; acl_channel]
    = [acl_channel; quiet_channel]
  ∧ ¬ unknown_viewers_never_outrank_zero.
Proof.
  split; [reflexivity|].
  intros Hclaim.
  apply (Hclaim (Twitch_init default_settings) [quiet_channel; acl_channel]
           0%nat 1%nat acl_channel quiet_channel); [reflexivity..|lia].
Qed.

(** ** The capacity bound of [CHANNELS_FETCH] *)

Lemma set_channels_set_channels v w (self : Twitch) :
  set_channels v (set_channels w self) = set_channels v self.
Proof. by destruct self. Qed.

Lemma channels_set_channels v (self : Twitch) :
  channels (set_channels v self) = v.
Proof. by destruct self. Qed.





(** The loop [for channel in ordered_channels: channels[channel.id] = channel]
    changes only [channels]. *)
Lemma fill_channels (ordered : list Channel) (self : Twitch) :
  foldl (λ self channel,
           set_channels (odict_set (channel_id channel) channel (channels self)) self)
        self ordered
  = set_channels
      (foldl (λ d channel, odict_set (channel_id channel) channel d)
             (channels self) ordered)
      self.
Proof.
  revert self. induction ordered as [|ch ordered IH]; intros self; simpl.
  - by destruct self.
  - rewrite IH, channels_set_channels, set_channels_set_channels. done.
Qed.


Section CapacityFacts.
Context `{!Constants}.






End CapacityFacts.


(** With a capacity below the two reserved slots the budget is negative, and
    the slices count from the end: all channels but the last are kept. *)
Lemma channels_fetch_negative_budget :
  let st := Twitch_init default_settings in
  let l := [silent_channel; quiet_channel; busy_channel; acl_channel] in
  @max_channels tiny_pool = -1
  ∧ channels (@channels_fetch_select tiny_pool l st)
    = [(1, acl_channel); (3, busy_channel); (2, quiet_channel)].
Proof. split; reflexivity. Qed.

(** ** [CHANNEL_SWITCH] *)

(** Case analysis on the outcome of every loop of the goal. *)
Ltac by_scan_cases :=
  repeat match goal with
         | |- context [can_watch ?s ?c] => destruct (can_watch s c); simpl
         | |- context [scan_watchable ?s ?l ?c] =>
             destruct (scan_watchable s l c) as [[?|] [?|]]; simpl
         end;
  reflexivity.

Section SwitchFacts.
Context `{!InventoryAPI}.

Lemma can_watch_set_gui_selection v (self : Twitch) (ch : Channel) :
  can_watch (set_gui_selection v self) ch = can_watch self ch.
Proof. by destruct self. Qed.

Lemma set_gui_selection_same (self : Twitch) :
  set_gui_selection (gui_selection self) self = self.
Proof. by destruct self. Qed.

(** Two loops in a row, the second entered when the first found nothing,
    are one loop over the two lists. *)
Lemma scan_watchable_app (self : Twitch) (l1 l2 : list Channel)
    (channel : option Channel) :
  scan_watchable self (l1 ++ l2) channel
  = let '(new_watching, channel') := scan_watchable self l1 channel in
    match new_watching with
    | None => scan_watchable self l2 channel'
    | Some _ => (new_watching, channel')
    end.
Proof.
  revert channel. induction l1 as [|c l1 IH]; intros channel; simpl; [done|].
  destruct (can_watch self c); [done|]. apply IH.
Qed.

(** When a loop finds a channel, the loop variable is bound to it. *)
Lemma scan_watchable_find (self : Twitch) (l : list Channel)
    (channel : option Channel) :
  match List.find (can_watch self) l with
  | Some c => scan_watchable self l channel = (Some c, Some c)
  | None => (scan_watchable self l channel).1 = None
  end.
Proof.
  revert channel. induction l as [|c l IH]; intros channel; simpl; [done|].
  destruct (can_watch self c); [done|]. apply IH.
Qed.

(** C6.  In [CHANNEL_SWITCH] the candidates are, in this order, the channel
    selected in the GUI (if any), the channel being watched (if any) and the
    active channels sorted by game rank, a stable sort: these are the active
    channels, a channel whose game has a lower rank comes before one whose
    game has a higher rank, and channels of equal rank keep the order they
    have in the active set.  The rank of a channel is the rank of its game
    among the eligible games, 0 if its game is not eligible and 1 if it has
    no game.  The selection is cleared.  If a candidate can be watched, the
    first such one becomes the watched channel and the state-change flag is
    cleared, the state staying [CHANNEL_SWITCH]; if none can, the state
    becomes [IDLE] with the flag set, and the watched channel stays as it
    was. *)
Theorem channel_switch_first_watchable (self : Twitch) :
  _state self = CHANNEL_SWITCH →
  let rank (channel : Channel) : Z :=
    match game channel with
    | None => 1
    | Some game =>
        match games self !! game with
        | None => 0
        | Some rank => rank
        end
    end in
  let active := snd <$> channels self in
  let ranked := sorted_by (_game_key self) active in
  let candidates :=
    option_list (gui_selection self) ++ option_list (watching_channel self)
    ++ ranked in
  let self0 := set_gui_selection None self in
  let outcome := channel_switch self in
  (ranked ≡ₚ active
   ∧ (∀ (i j : nat) (a b : Channel),
        ranked !! i = Some a → ranked !! j = Some b → rank a < rank b →
        (i < j)%nat)
   ∧ (∀ k : Z,
        filter (λ channel, rank channel = k) ranked
        = filter (λ channel, rank channel = k) active))
  ∧ gui_selection outcome.2 = None
  ∧ match List.find (can_watch self) candidates with
    | Some ch =>
        outcome = (inr tt, set_state_change false (watch ch self0))
        ∧ watching_channel outcome.2 = Some ch
        ∧ _state_change outcome.2 = false
        ∧ _state outcome.2 = CHANNEL_SWITCH
        ∧ can_watch self ch = true
        ∧ ∃ before after,
            candidates = before ++ ch :: after
            ∧ Forall (λ channel, can_watch self channel = false) before
    | None =>
        outcome
        = (inr tt,
           set_state_change true
             (set_state IDLE
                (emit (GuiPrint "No available channels to watch. Waiting for an ONLINE channel...")
                      self0)))
        ∧ watching_channel outcome.2 = watching_channel self
        ∧ _state_change outcome.2 = true
        ∧ _state outcome.2 = IDLE
        ∧ Forall (λ channel, can_watch self channel = false) candidates
    end.
Proof.
  intros Hstate rank active ranked candidates self0 outcome.
  assert (Hrank : ∀ channel, _game_key self channel = rank channel)
    by reflexivity.
  assert (Hrun : outcome
    = let '(new_watching, channel) := scan_watchable self0 candidates None in
      match new_watching with
      | Some _ =>
          match channel with
          | Some ch => (inr tt, set_state_change false (watch ch self0))
          | None => (inl UnboundLocalError, self0)
          end
      | None =>
          (inr tt,
           change_state IDLE
             (emit (GuiPrint "No available channels to watch. Waiting for an ONLINE channel...")
                   self0))
      end).
  { unfold outcome, candidates, ranked, active.
    rewrite app_assoc, scan_watchable_app.
    unfold channel_switch, bind, gets, modify, ret, effect, raise, id,
      get_selection, clear_selection.
    assert (Hkeys : _game_key self0 = _game_key self) by (by destruct self).
    assert (Hchs : channels self0 = channels self) by (by destruct self).
    assert (Hw : watching_channel self0 = watching_channel self)
      by (by destruct self).
    destruct (gui_selection self) as [sel|] eqn:Hsel; simpl.
    - fold self0. rewrite Hw, Hkeys, Hchs.
      destruct (watching_channel self) as [w|]; simpl; by_scan_cases.
    - assert (Hself : self0 = self).
      { unfold self0. rewrite <- Hsel. apply set_gui_selection_same. }
      rewrite Hself.
      destruct (watching_channel self) as [w|]; simpl; by_scan_cases. }
  split; [split; [|split]|].
  - apply sorted_by_perm.
  - intros i j a b Hi Hj Hlt.
    pose proof (sorted_by_sorted (_game_key self) active) as Hsorted.
    destruct (decide (i < j)%nat) as [|Hge]; [done|]. exfalso.
    destruct (decide (i = j)) as [->|Hne].
    + fold ranked in Hsorted. rewrite Hi in Hj. simplify_eq. lia.
    + assert (_game_key self b ≤ _game_key self a) as Hle.
      { apply (StronglySorted_lookup
                 (λ a b, _game_key self a ≤ _game_key self b) ranked j i b a
                 Hsorted); [lia|done..]. }
      rewrite (Hrank a), (Hrank b) in Hle. lia.
  - intros k. apply (sorted_by_stable (_game_key self) k active).
  - pose proof (scan_watchable_find self0 candidates None) as Hfind.
    assert (Hcw : can_watch self0 = can_watch self) by (by destruct self).
    rewrite Hcw in Hfind.
    assert (Hsel0 : gui_selection self0 = None) by (by destruct self).
    assert (Hw0 : watching_channel self0 = watching_channel self)
      by (by destruct self).
    destruct (List.find (can_watch self) candidates) as [ch|] eqn:Hfound.
    + rewrite Hrun, Hfind. simpl. split; [by destruct self|].
      split; [done|]. split; [by destruct self|]. split; [by destruct self|].
      split; [by destruct self|].
      clear Hrun Hfind. revert Hfound. generalize candidates.
      intros l. induction l as [|c l IH]; intros Hfound; [done|].
      simpl in Hfound. destruct (can_watch self c) eqn:Hc.
      * simplify_eq. split; [done|]. by exists [], l.
      * destruct (IH Hfound) as (Hch & before & after & -> & Hbefore).
        split; [done|]. exists (c :: before), after. split; [done|].
        by constructor.
    + destruct (scan_watchable self0 candidates None) as [nw ch] eqn:Hscan.
      simpl in Hfind. subst nw. rewrite Hrun. unfold change_state.
      assert (Hst : _state (emit (GuiPrint "No available channels to watch. Waiting for an ONLINE channel...") self0)
                    = CHANNEL_SWITCH) by (by destruct self).
      rewrite Hst. simpl. split; [by destruct self|].
      split; [done|]. split; [by destruct self|]. split; [by destruct self|].
      split; [by destruct self|].
      apply Forall_forall. intros c Hc.
      destruct (can_watch self c) eqn:Hcan; [|done].
      apply list_elem_of_In in Hc.
      rewrite <- Hcan. eapply find_none; [exact Hfound|exact Hc].
Qed.
End SwitchFacts.

Lemma channel_switch_first_watchable_witness :
  _state ranked_miner = CHANNEL_SWITCH
  ∧ snd <$> channels ranked_miner = [chess_channel; tetris_channel]
  ∧ sorted_by (_game_key ranked_miner) (snd <$> channels ranked_miner)
    = [tetris_channel; chess_channel]
  ∧ @can_watch simple_inventory ranked_miner chess_channel = true
  ∧ watching_channel (@channel_switch simple_inventory ranked_miner).2
    = Some tetris_channel
  ∧ _state_change (@channel_switch simple_inventory ranked_miner).2 = false.
Proof.
  split; [reflexivity|]. split; [reflexivity|]. split; [reflexivity|].
  split; [reflexivity|].
  pose proof (@channel_switch_first_watchable simple_inventory ranked_miner
                eq_refl) as (_ & _ & Hfound).
  exact (conj (proj1 (proj2 Hfound)) (proj1 (proj2 (proj2 Hfound)))).
Defined.

(** ** [get_active_drop] *)

Lemma head_sorted_by {A} (key : A → Z) (l : list A) (x : A) :
  head (sorted_by key l) = Some x →
  x ∈ l ∧ ∀ y, y ∈ l → key x ≤ key y.
Proof.
  intros Hhead.
  pose proof (sorted_by_sorted key l) as Hs.
  pose proof (sorted_by_perm key l) as Hp.
  destruct (sorted_by key l) as [|x' s]; simplify_eq/=.
  apply StronglySorted_cons in Hs as [Hx _]. rewrite Forall_forall in Hx.
  split.
  - rewrite <- Hp. left.
  - intros y Hy. rewrite <- Hp in Hy.
    apply elem_of_cons in Hy as [->|Hy]; [lia|by apply Hx].
Qed.

Lemma head_sorted_by_is_Some {A} (key : A → Z) (l : list A) :
  l ≠ [] → is_Some (head (sorted_by key l)).
Proof.
  intros Hne. pose proof (sorted_by_length key l) as Hlen.
  destruct (sorted_by key l); [|by eexists].
  destruct l; [done|discriminate].
Qed.

Section ActiveDropFacts.
Context `{!InventoryAPI}.

Lemma gather_drops_fold (self : Twitch) (w : option Channel)
    (inv : list Campaign) (acc : list loc * list loc) :
  foldl (gather_drops self w (w ≫= game)) acc inv
  = (acc.1 ++ (inv ≫= campaign_candidates self w),
     acc.2 ++ (inv ≫= campaign_strict_candidates self w)).
Proof.
  revert acc. induction inv as [|c inv IH]; intros [ds sds]; simpl.
  - by rewrite !app_nil_r.
  - rewrite IH. unfold gather_drops, campaign_strict_candidates,
      campaign_candidates.
    destruct (bool_decide (is_Some _) && _); simpl;
      [|by destruct (bool_decide (_ = _))].
    destruct (bool_decide (_ = _)); simpl; by rewrite <- ?app_assoc.
Qed.

Lemma elem_of_candidates (self : Twitch) (w : option Channel) (l : loc) :
  l ∈ inventory self ≫= campaign_candidates self w ↔ candidate_drop self w l.
Proof.
  rewrite list_elem_of_bind. unfold candidate_drop, campaign_candidates.
  split.
  - intros (c & Hl & Hc). exists c.
    destruct (bool_decide _) eqn:Hg; simpl in Hl; [|by apply elem_of_nil in Hl].
    destruct (campaign_can_earn c w) eqn:He; simpl in Hl;
      [|by apply elem_of_nil in Hl].
    apply bool_decide_eq_true_1 in Hg.
    apply list_elem_of_In, filter_In in Hl as [Hl Hearn].
    by rewrite <- list_elem_of_In in Hl.
  - intros (c & Hc & Hg & He & Hl & Hearn). exists c. split; [|done].
    rewrite bool_decide_eq_true_2, He by done. simpl.
    apply list_elem_of_In, filter_In. by rewrite <- list_elem_of_In.
Qed.

Lemma elem_of_strict_candidates (self : Twitch) (w : option Channel) (l : loc) :
  l ∈ inventory self ≫= campaign_strict_candidates self w
  ↔ strict_candidate_drop self w l.
Proof.
  rewrite list_elem_of_bind.
  unfold strict_candidate_drop, campaign_strict_candidates, campaign_candidates.
  split.
  - intros (c & Hl & Hc). exists c.
    case_bool_decide as Hgame; [|by apply elem_of_nil in Hl].
    destruct (bool_decide _) eqn:Hg; simpl in Hl; [|by apply elem_of_nil in Hl].
    destruct (campaign_can_earn c w) eqn:He; simpl in Hl;
      [|by apply elem_of_nil in Hl].
    apply bool_decide_eq_true_1 in Hg.
    apply list_elem_of_In, filter_In in Hl as [Hl Hearn].
    by rewrite <- list_elem_of_In in Hl.
  - intros (c & Hc & Hg & He & Hl & Hearn & Hgame). exists c. split; [|done].
    rewrite (bool_decide_eq_true_2 _ Hgame), bool_decide_eq_true_2, He by done.
    simpl. apply list_elem_of_In, filter_In. by rewrite <- list_elem_of_In.
Qed.

(** The list the answer is taken from holds the drops of the pool. *)
Lemma elem_of_pool (self : Twitch) (w : option Channel) (l : loc) :
  l ∈ match inventory self ≫= campaign_strict_candidates self w with
      | [] => inventory self ≫= campaign_candidates self w
      | strict => strict
      end
  ↔ drop_pool self w l.
Proof.
  unfold drop_pool. setoid_rewrite <- elem_of_strict_candidates.
  rewrite <- elem_of_candidates.
  destruct (inventory self ≫= campaign_strict_candidates self w) as [|s strict].
  - split; [intros Hl; right; split; [|done]|intros [Hl|[_ Hl]]; [|done]].
    + intros l'. apply not_elem_of_nil.
    + by apply elem_of_nil in Hl.
  - split; [by left|]. intros [Hl|[Hnone _]]; [done|].
    exfalso. apply (Hnone s). left.
Qed.

(** C10.  [get_active_drop] returns [None] when no game is eligible.
    Otherwise, on the watched channel (or the argument when none is
    watched), the answer is chosen among the drops that can be earned on it
    from the campaigns with an eligible game that can be progressed on it,
    only those of the campaigns with the channel's game if there is any such
    drop: the answer is a drop of that pool with the fewest remaining
    minutes, there is an answer when the pool is not empty, and [None]
    when it is. *)
Theorem get_active_drop_spec (self : Twitch) (channel : option Channel) :
  let w := get_with_default self channel in
  (games self = ∅ → get_active_drop self channel = None)
  ∧ (games self ≠ ∅ →
     (∀ l, get_active_drop self channel = Some l →
           drop_pool self w l
           ∧ ∀ l', drop_pool self w l' →
                   remaining_at self l ≤ remaining_at self l')
     ∧ (get_active_drop self channel = None ↔ ∀ l, ¬ drop_pool self w l)).
Proof.
  intros w. unfold get_active_drop. fold w. split.
  - intros Hempty. by rewrite bool_decide_eq_true_2.
  - intros Hgames. rewrite bool_decide_eq_false_2 by done.
    rewrite gather_drops_fold. simpl.
    pose proof (elem_of_pool self w) as Hpool0.
    set (strict := inventory self ≫= campaign_strict_candidates self w) in *.
    set (all := inventory self ≫= campaign_candidates self w) in *.
    set (pool := match strict with [] => all | _ => strict end) in *.
    assert (Hpool : ∀ l, l ∈ pool ↔ drop_pool self w l).
    { intros l. rewrite <- Hpool0. unfold pool. by destruct strict. }
    clearbody pool. clear Hpool0.
    split.
    + intros l Hl. destruct pool as [|p rest] eqn:Hp; [done|]. rewrite <- Hp in *.
      apply head_sorted_by in Hl as [Hin Hmin].
      split; [by apply Hpool|]. intros l' Hl'. by apply Hmin, Hpool.
    + split.
      * intros Hnone l Hl. apply Hpool in Hl.
        destruct pool as [|p rest] eqn:Hp; [by apply elem_of_nil in Hl|].
        rewrite <- Hp in *.
        destruct (head_sorted_by_is_Some (remaining_at self) pool) as [x Hx];
          [by rewrite Hp|congruence].
      * intros Hnone. destruct pool as [|p rest]; [done|].
        exfalso. apply (Hnone p), Hpool. left.
Qed.
End ActiveDropFacts.

Lemma get_active_drop_spec_witness :
  games chess_miner ≠ ∅
  ∧ @get_active_drop simple_inventory chess_miner (Some chess_channel) = Some 1%nat
  ∧ @drop_pool simple_inventory chess_miner (Some chess_channel) 1%nat
  ∧ (∀ l', @drop_pool simple_inventory chess_miner (Some chess_channel) l' →
           remaining_at chess_miner 1%nat ≤ remaining_at chess_miner l').
Proof.
  assert (Hgames : games chess_miner ≠ ∅) by (by apply (bool_decide_unpack _)).
  destruct (@get_active_drop_spec simple_inventory chess_miner (Some chess_channel))
    as [_ Hspec].
  destruct (Hspec Hgames) as [Hsome _].
  destruct (Hsome 1%nat eq_refl) as [Hpool Hmin].
  split; [exact Hgames|]. split; [reflexivity|]. split; [exact Hpool|exact Hmin].
Defined.

(** ** [GAMES_UPDATE] *)

Section GamesFacts.
Context `{!InventoryAPI}.

Lemma collect_game_cases (s : Settings) (gs : gmap Game Z) (campaign : Campaign) :
  (gs !! campaign_game campaign = None ∧ does_record s campaign
   ∧ collect_game s gs campaign
     = <[campaign_game campaign := configured_rank s (campaign_game campaign)]> gs)
  ∨ (¬ (gs !! campaign_game campaign = None ∧ does_record s campaign)
     ∧ collect_game s gs campaign = gs).
Proof.
  unfold collect_game, does_record, configured_rank.
  destruct (priority_only s); simpl;
    repeat case_bool_decide; simpl;
    destruct (campaign_can_earn campaign None); simpl;
    solve [left; done | right; split; [intros (? & ? & ? & ? & ?)|]; done].
Qed.

(** The mapping after the second loop: what was there, and for every other
    game that a recording campaign has, its configured rank. *)
Lemma collect_games_lookup (s : Settings) (inv : list Campaign)
    (gs : gmap Game Z) (g : Game) (rank : Z) :
  foldl (collect_game s) gs inv !! g = Some rank
  ↔ gs !! g = Some rank
    ∨ (gs !! g = None
       ∧ rank = configured_rank s g
       ∧ ∃ campaign, campaign ∈ inv ∧ campaign_game campaign = g
                     ∧ does_record s campaign).
Proof.
  revert gs. induction inv as [|c inv IH]; intros gs; simpl.
  - split; [by left|]. intros [?|(_ & _ & c & Hc & _)]; [done|].
    by apply elem_of_nil in Hc.
  - rewrite IH.
    destruct (collect_game_cases s gs c) as [(Hnone & Hrec & ->)|[Hnot ->]].
    + destruct (decide (campaign_game c = g)) as [<-|Hne].
      * rewrite lookup_insert_eq. split.
        -- intros [[= <-]|[? _]]; [|done]. right. split; [done|].
           split; [done|]. exists c. split; [left|done].
        -- intros [?|(_ & -> & _)]; [congruence|by left].
      * rewrite lookup_insert_ne by done. split.
        -- intros [?|(? & ? & c' & Hc' & ? & ?)]; [by left|].
           right. split; [done|]. split; [done|]. exists c'.
           split; [by right|done].
        -- intros [?|(? & ? & c' & Hc' & ? & ?)]; [by left|].
           right. split; [done|]. split; [done|]. exists c'.
           apply elem_of_cons in Hc' as [->|?]; [done|]. done.
    + split.
      * intros [?|(? & ? & c' & Hc' & ? & ?)]; [by left|].
        right. split; [done|]. split; [done|]. exists c'.
        split; [by right|done].
      * intros [?|(Hg & ? & c' & Hc' & Hgame & Hrec)]; [by left|].
        apply elem_of_cons in Hc' as [->|?].
        -- exfalso. apply Hnot. by rewrite Hgame.
        -- right. split; [done|]. split; [done|]. by exists c'.
Qed.

Lemma games_update_games (self : Twitch) :
  games (games_update self)
  = foldl (collect_game (settings self)) ∅ (inventory self).
Proof. unfold games_update, change_state. by destruct self as [? []]. Qed.

(** What [GAMES_UPDATE] records: the games of the campaigns that pass the
    test of the code, each with its configured rank, 0 by default. *)
Lemma games_update_records (self : Twitch) (g : Game) (rank : Z) :
  games (games_update self) !! g = Some rank
  ↔ rank = configured_rank (settings self) g
    ∧ ∃ campaign, campaign ∈ inventory self ∧ campaign_game campaign = g
                  ∧ does_record (settings self) campaign.
Proof.
  rewrite games_update_games, collect_games_lookup, lookup_empty.
  split; [intros [?|(_ & ? & ?)]; done|intros [? ?]; by right].
Qed.

(** With priority-only mode on, the test of the code is the test of the
    property. *)
Lemma does_record_priority_only (s : Settings) (campaign : Campaign) :
  priority_only s = true →
  does_record s campaign ↔ should_record s campaign.
Proof. unfold does_record, should_record. intros Hon. tauto. Qed.

(** With priority-only mode off, no campaign passes the test of the code:
    the mapping is left empty. *)
Lemma games_update_priority_only_off (self : Twitch) :
  priority_only (settings self) = false →
  games (games_update self) = ∅.
Proof.
  intros Hoff. apply map_eq. intros g. rewrite lookup_empty.
  apply eq_None_not_Some. intros [rank Hrank].
  apply games_update_records in Hrank as (_ & c & _ & _ & Hon & _).
  congruence.
Qed.
End GamesFacts.

(** C1, the code at an input where it departs from the property.  With
    priority-only mode off, a campaign for chess that can be progressed and an
    empty exclusion list, the property has chess recorded with rank 0;
    [GAMES_UPDATE] records nothing and hands over to [CHANNELS_CLEANUP] with
    an empty mapping. *)
Theorem games_update_ignores_games_without_priority_only :
  priority_only (settings chess_updater) = false
  ∧ inventory chess_updater = [chess_campaign]
  ∧ @should_record simple_inventory (settings chess_updater) chess_campaign
  ∧ configured_rank (settings chess_updater) chess = 0
  ∧ games (@games_update simple_inventory chess_updater) !! chess = None
  ∧ games (@games_update simple_inventory chess_updater) = ∅
  ∧ _state (@games_update simple_inventory chess_updater) = CHANNELS_CLEANUP.
Proof.
  split; [reflexivity|]. split; [reflexivity|]. split.
  { split; [apply not_elem_of_empty|]. split; [discriminate|reflexivity]. }
  split; [reflexivity|].
  assert (Hempty : games (@games_update simple_inventory chess_updater) = ∅)
    by (by apply games_update_priority_only_off).
  split; [by rewrite Hempty|]. split; [done|reflexivity].
Qed.

(** With priority-only mode on and chess in the priority list, the same
    inventory has chess recorded, with its configured rank. *)
Lemma games_update_with_priority_only :
  games (@games_update simple_inventory chess_only_updater) !! chess = Some 3.
Proof.
  apply games_update_records. split; [reflexivity|].
  exists chess_campaign. split; [left|]. split; [reflexivity|].
  split; [reflexivity|]. split; [left|]. split; [apply not_elem_of_empty|reflexivity].
Qed.

(** ** The watch loop *)

Section WatchFacts.
Context `{!InventoryAPI}.

(** [get_active_drop] reads the games, the inventory, the watched channel
    and the drop objects. *)
Lemma get_active_drop_frame (s1 s2 : Twitch) (channel : option Channel) :
  games s1 = games s2 → inventory s1 = inventory s2 →
  watching_channel s1 = watching_channel s2 → heap s1 = heap s2 →
  get_active_drop s1 channel = get_active_drop s2 channel.
Proof.
  destruct s1, s2; simpl. intros -> -> -> ->. reflexivity.
Qed.

Lemma can_earn_at_frame (s1 s2 : Twitch) (channel : option Channel) (l : loc) :
  heap s1 = heap s2 → can_earn_at s1 channel l = can_earn_at s2 channel l.
Proof. unfold can_earn_at. by intros ->. Qed.

Lemma watch_turn_positive (self : Twitch) (channel : Channel)
    (poll : Exn + option (string * Z)) (drop_id : string) (minutes : Z) (l : loc) :
  watching_channel self = Some channel →
  tracked_earnable self channel drop_id l →
  ∃ self',
    watch_turn true (Some (drop_id, minutes)) poll self = (inr tt, self')
    ∧ heap self' = alter (update_minutes minutes) l (heap self)
    ∧ effects self'
      = effects self ++ [SendWatch (channel_id channel); Display l; WatchSleepNext].
Proof.
  intros Hw [Htracked Hearn].
  unfold watch_turn, bind, gets, effect, modify, handler, ret.
  rewrite Hw. simpl.
  unfold process_drops_progress.
  destruct self; simpl in *. subst.
  rewrite Htracked. unfold get_with_default, can_earn_at in *. simpl in *.
  rewrite Hearn. simpl. eexists. split; [reflexivity|]. simpl.
  split; [reflexivity|]. by rewrite <- !app_assoc.
Qed.

Lemma watch_turn_timeout (self : Twitch) (channel : Channel)
    (poll : Exn + option (string * Z)) :
  watching_channel self = Some channel →
  ∃ self',
    watch_turn true None poll self = (inr tt, self')
    ∧ match get_active_drop self (Some channel) with
      | Some l =>
          heap self' = alter bump_minutes l (heap self)
          ∧ effects self'
            = effects self
              ++ [SendWatch (channel_id channel); Display l; WatchSleepNext]
      | None =>
          heap self' = heap self
          ∧ effects self'
            = effects self
              ++ [SendWatch (channel_id channel);
                  LogError "Active drop search failed"; WatchSleepNext]
      end.
Proof.
  intros Hw.
  unfold watch_turn, bind, gets, effect, modify, handler, ret.
  rewrite Hw. simpl.
  unfold estimate_locally, bind, gets, effect, modify.
  rewrite (get_active_drop_frame _ self) by (by destruct self).
  destruct (get_active_drop self (Some channel)) as [l|];
    (eexists; split; [reflexivity|]; destruct self; simpl;
     split; [reflexivity|by rewrite <- !app_assoc]).
Qed.

(** A progress message for a drop that is not tracked, or cannot be earned
    on the watched channel, resolves the pending future with [False]. *)
Lemma process_drops_progress_negative (self : Twitch) (channel : Channel)
    (drop_id : string) (minutes : Z) :
  _drop_update self = true →
  watching_channel self = Some channel →
  (∀ l, ¬ tracked_earnable self channel drop_id l) →
  process_drops_progress drop_id minutes self
  = (set_drop_update false self, Some false).
Proof.
  intros Hpending Hw Hnot. unfold process_drops_progress.
  rewrite Hpending. simpl.
  destruct (_drops self !! drop_id) as [l|] eqn:Hl; [|done].
  unfold get_with_default. rewrite Hw.
  destruct (can_earn_at self (Some channel) l) eqn:Hearn; [|done].
  by destruct (Hnot l).
Qed.

(** After a negative resolution the backend is asked, and what follows is
    the poll and, if it says so, the local estimate. *)
Lemma watch_turn_negative (self : Twitch) (channel : Channel)
    (poll : Exn + option (string * Z)) (drop_id : string) (minutes : Z) :
  watching_channel self = Some channel →
  (∀ l, ¬ tracked_earnable self channel drop_id l) →
  watch_turn true (Some (drop_id, minutes)) poll self
  = bind (bind (poll_current_drop channel poll)
               (λ use_active,
                  if use_active then estimate_locally channel else ret tt))
         (λ _, effect WatchSleepNext)
         (set_drop_update false (emit (SendWatch (channel_id channel)) self)).
Proof.
  intros Hw Hnot.
  unfold watch_turn, bind, gets, effect, modify, handler, ret.
  rewrite Hw. simpl.
  rewrite (process_drops_progress_negative _ channel).
  - by destruct self.
  - by destruct self.
  - by destruct self.
  - intros l [Ht He]. apply (Hnot l). split; [by destruct self|].
    rewrite <- He. apply can_earn_at_frame. by destruct self.
Qed.

Lemma watch_turn_poll_valid (self : Twitch) (channel : Channel)
    (drop_id : string) (minutes : Z)
    (polled_id : string) (polled_minutes : Z) (l : loc) :
  watching_channel self = Some channel →
  (∀ l, ¬ tracked_earnable self channel drop_id l) →
  tracked_earnable self channel polled_id l →
  ∃ self',
    watch_turn true (Some (drop_id, minutes))
               (inr (Some (polled_id, polled_minutes))) self
    = (inr tt, self')
    ∧ heap self' = alter (update_minutes polled_minutes) l (heap self)
    ∧ effects self'
      = effects self
        ++ [SendWatch (channel_id channel); GqlCurrentDrop; Display l;
            WatchSleepNext].
Proof.
  intros Hw Hnot [Htracked Hearn].
  rewrite (watch_turn_negative self channel) by done.
  unfold poll_current_drop, bind, gets, effect, modify, await, ret.
  destruct self; simpl in *. rewrite Htracked.
  unfold can_earn_at in *. simpl in *. rewrite Hearn. simpl.
  eexists. split; [reflexivity|]. simpl.
  split; [reflexivity|by rewrite <- !app_assoc].
Qed.

Lemma watch_turn_poll_invalid (self : Twitch) (channel : Channel)
    (drop_id : string) (minutes : Z)
    (polled_id : string) (polled_minutes : Z) :
  watching_channel self = Some channel →
  (∀ l, ¬ tracked_earnable self channel drop_id l) →
  (∀ l, ¬ tracked_earnable self channel polled_id l) →
  ∃ self',
    watch_turn true (Some (drop_id, minutes))
               (inr (Some (polled_id, polled_minutes))) self
    = (inr tt, self')
    ∧ match get_active_drop self (Some channel) with
      | Some l =>
          heap self' = alter bump_minutes l (heap self)
          ∧ effects self'
            = effects self
              ++ [SendWatch (channel_id channel); GqlCurrentDrop]
              ++ missing_drop_log self polled_id
              ++ [Display l; WatchSleepNext]
      | None =>
          heap self' = heap self
          ∧ effects self'
            = effects self
              ++ [SendWatch (channel_id channel); GqlCurrentDrop]
              ++ missing_drop_log self polled_id
              ++ [LogError "Active drop search failed"; WatchSleepNext]
      end.
Proof.
  intros Hw Hnot Hpoll.
  rewrite (watch_turn_negative self channel) by done.
  unfold poll_current_drop, estimate_locally, missing_drop_log,
    bind, gets, effect, modify, await, ret.
  unfold tracked_earnable in Hpoll.
  destruct (_drops self !! polled_id) as [l|] eqn:Hl.
  - assert (Hearn : can_earn_at self (Some channel) l = false).
    { destruct (can_earn_at self (Some channel) l) eqn:He; [|done].
      by destruct (Hpoll l). }
    assert (_drops (emit GqlCurrentDrop
              (set_drop_update false (emit (SendWatch (channel_id channel)) self)))
            !! polled_id = Some l) as -> by (by destruct self).
    rewrite (can_earn_at_frame _ self) by (by destruct self).
    rewrite Hearn. simpl.
    rewrite (get_active_drop_frame _ self) by (by destruct self).
    destruct (get_active_drop self (Some channel)) as [l'|];
      (eexists; split; [reflexivity|]; destruct self; simpl;
       split; [reflexivity|by rewrite <- !app_assoc]).
  - assert (_drops (emit GqlCurrentDrop
              (set_drop_update false (emit (SendWatch (channel_id channel)) self)))
            !! polled_id = None) as -> by (by destruct self).
    rewrite (get_active_drop_frame _ self) by (by destruct self).
    destruct (get_active_drop self (Some channel)) as [l'|];
      (eexists; split; [reflexivity|]; destruct self; simpl;
       split; [reflexivity|by rewrite <- !app_assoc]).
Qed.

(** C2, as amended.  After a successful heartbeat on the watched channel:
    - a progress message for a tracked drop that can be earned on the
      channel sets that drop's minutes to the message's value, and neither
      the backend is asked nor an estimate made;
    - a timeout leads to the local estimate at once, without asking the
      backend: the best-candidate drop gets one minute more;
    - a progress message that does not match leads to the current-drop
      query; if the answer names a tracked drop that can be earned on the
      channel, that drop's minutes are set to the answer's value and no
      estimate is made; if it names a drop that is not tracked or cannot be
      earned on the channel, the best-candidate drop gets one minute
      more. *)
Theorem watch_turn_fallback_ladder (self : Twitch) (channel : Channel)
    (push : option (string * Z)) (poll : Exn + option (string * Z)) :
  watching_channel self = Some channel →
  let outcome := watch_turn true push poll self in
  let sent := effects self ++ [SendWatch (channel_id channel)] in
  (∀ drop_id minutes l,
     push = Some (drop_id, minutes) →
     tracked_earnable self channel drop_id l →
     outcome.1 = inr tt
     ∧ heap outcome.2 = alter (update_minutes minutes) l (heap self)
     ∧ effects outcome.2 = sent ++ [Display l; WatchSleepNext])
  ∧ (push = None →
     outcome.1 = inr tt ∧ locally_estimated self channel sent outcome.2)
  ∧ (∀ drop_id minutes,
       push = Some (drop_id, minutes) →
       (∀ l, ¬ tracked_earnable self channel drop_id l) →
       (∀ polled_id polled_minutes l,
          poll = inr (Some (polled_id, polled_minutes)) →
          tracked_earnable self channel polled_id l →
          outcome.1 = inr tt
          ∧ heap outcome.2 = alter (update_minutes polled_minutes) l (heap self)
          ∧ effects outcome.2
            = sent ++ [GqlCurrentDrop; Display l; WatchSleepNext])
       ∧ (∀ polled_id polled_minutes,
            poll = inr (Some (polled_id, polled_minutes)) →
            (∀ l, ¬ tracked_earnable self channel polled_id l) →
            outcome.1 = inr tt
            ∧ locally_estimated self channel
                (sent ++ [GqlCurrentDrop] ++ missing_drop_log self polled_id)
                outcome.2)).
Proof.
  intros Hw outcome sent. unfold outcome, sent. split; [|split].
  - intros drop_id minutes l -> Htracked.
    destruct (watch_turn_positive self channel poll drop_id minutes l Hw Htracked)
      as (self' & -> & Hheap & Heffects).
    simpl. rewrite Hheap, Heffects, <- app_assoc. done.
  - intros ->.
    destruct (watch_turn_timeout self channel poll Hw) as (self' & -> & Hest).
    split; [done|]. unfold locally_estimated. simpl.
    destruct (get_active_drop self (Some channel));
      destruct Hest as [-> ->]; by rewrite <- app_assoc.
  - intros drop_id minutes -> Hnot. split.
    + intros polled_id polled_minutes l -> Htracked.
      destruct (watch_turn_poll_valid self channel drop_id minutes
                  polled_id polled_minutes l Hw Hnot Htracked)
        as (self' & -> & Hheap & Heffects).
      simpl. rewrite Hheap, Heffects, <- app_assoc. done.
    + intros polled_id polled_minutes -> Hpoll.
      destruct (watch_turn_poll_invalid self channel drop_id minutes
                  polled_id polled_minutes Hw Hnot Hpoll)
        as (self' & -> & Hest).
      split; [done|]. unfold locally_estimated. simpl.
      destruct (get_active_drop self (Some channel));
        destruct Hest as [-> ->]; by rewrite <- !app_assoc.
Qed.

(** One minute more, read off the drop object. *)
Lemma bump_minutes_lookup (h : list TimedDrop) (l : loc) (drop : TimedDrop) :
  h !! l = Some drop →
  current_minutes <$> (alter bump_minutes l h !! l)
  = Some (current_minutes drop + 1).
Proof. intros Hl. by rewrite list_lookup_alter_eq, Hl. Qed.

Lemma update_minutes_lookup (h : list TimedDrop) (l : loc) (drop : TimedDrop)
    (minutes : Z) :
  h !! l = Some drop →
  current_minutes <$> (alter (update_minutes minutes) l h !! l) = Some minutes.
Proof. intros Hl. by rewrite list_lookup_alter_eq, Hl. Qed.

(** Beside the ladder: when the answer to the current-drop query carries no
    session, nothing is updated and nothing estimated. *)
Lemma watch_turn_poll_without_session (self : Twitch) (channel : Channel)
    (drop_id : string) (minutes : Z) :
  watching_channel self = Some channel →
  (∀ l, ¬ tracked_earnable self channel drop_id l) →
  ∃ self',
    watch_turn true (Some (drop_id, minutes)) (inr None) self = (inr tt, self')
    ∧ heap self' = heap self
    ∧ effects self'
      = effects self
        ++ [SendWatch (channel_id channel); GqlCurrentDrop; WatchSleepNext].
Proof.
  intros Hw Hnot. rewrite (watch_turn_negative self channel) by done.
  unfold poll_current_drop, bind, gets, effect, modify, await, ret.
  eexists. split; [reflexivity|]. destruct self; simpl.
  split; [reflexivity|by rewrite <- !app_assoc].
Qed.

(** Beside the ladder: an exception of the query leaves the loop. *)
Lemma watch_turn_poll_raises (self : Twitch) (channel : Channel)
    (drop_id : string) (minutes : Z) (e : Exn) :
  watching_channel self = Some channel →
  (∀ l, ¬ tracked_earnable self channel drop_id l) →
  (watch_turn true (Some (drop_id, minutes)) (inl e) self).1 = inl e.
Proof.
  intros Hw Hnot. rewrite (watch_turn_negative self channel) by done.
  reflexivity.
Qed.

(** Beside the ladder: a failed heartbeat is retried after 60 seconds. *)
Lemma watch_turn_heartbeat_failed (self : Twitch) (channel : Channel)
    (push : option (string * Z)) (poll : Exn + option (string * Z)) :
  watching_channel self = Some channel →
  ∃ self',
    watch_turn false push poll self = (inr tt, self')
    ∧ heap self' = heap self
    ∧ effects self'
      = effects self
        ++ [SendWatch (channel_id channel);
            GuiPrint "Connection problems, retrying in 60 seconds...";
            WatchSleep 60].
Proof.
  intros Hw. unfold watch_turn, bind, gets, effect, modify, ret.
  rewrite Hw. simpl. eexists. split; [reflexivity|].
  destruct self; simpl. split; [reflexivity|by rewrite <- !app_assoc].
Qed.
End WatchFacts.

Lemma untracked_on_chess_watcher (drop_id : string) (l : loc) :
  _drops chess_watcher !! drop_id = None →
  ¬ @tracked_earnable simple_inventory chess_watcher chess_channel drop_id l.
Proof. intros Hnone [Hsome _]. congruence. Qed.

Lemma watch_turn_fallback_ladder_witness :
  watching_channel chess_watcher = Some chess_channel
  ∧ current_minutes
      <$> (heap (@watch_turn simple_inventory true (Some ("drop-a", 5))
                   (inr None) chess_watcher).2 !! 0%nat) = Some 5
  ∧ current_minutes
      <$> (heap (@watch_turn simple_inventory true None
                   (inr None) chess_watcher).2 !! 1%nat) = Some 11
  ∧ current_minutes
      <$> (heap (@watch_turn simple_inventory true (Some ("drop-x", 5))
                   (inr (Some ("drop-b", 25))) chess_watcher).2 !! 1%nat) = Some 25
  ∧ current_minutes
      <$> (heap (@watch_turn simple_inventory true (Some ("drop-x", 5))
                   (inr (Some ("drop-y", 25))) chess_watcher).2 !! 1%nat) = Some 11.
Proof.
  assert (Hw : watching_channel chess_watcher = Some chess_channel) by reflexivity.
  assert (Hx : ∀ l, ¬ @tracked_earnable simple_inventory chess_watcher
                      chess_channel "drop-x" l)
    by (intros l; by apply untracked_on_chess_watcher).
  assert (Hy : ∀ l, ¬ @tracked_earnable simple_inventory chess_watcher
                      chess_channel "drop-y" l)
    by (intros l; by apply untracked_on_chess_watcher).
  assert (Ha : @tracked_earnable simple_inventory chess_watcher chess_channel
                 "drop-a" 0%nat) by (by split).
  assert (Hb : @tracked_earnable simple_inventory chess_watcher chess_channel
                 "drop-b" 1%nat) by (by split).
  split; [exact Hw|]. split; [|split; [|split]].
  - destruct (@watch_turn_fallback_ladder simple_inventory chess_watcher
                chess_channel (Some ("drop-a", 5)) (inr None) Hw)
      as (Hpositive & _ & _).
    destruct (Hpositive "drop-a" 5 0%nat eq_refl Ha) as (_ & -> & _).
    reflexivity.
  - destruct (@watch_turn_fallback_ladder simple_inventory chess_watcher
                chess_channel None (inr None) Hw)
      as (_ & Htimeout & _).
    destruct (Htimeout eq_refl) as (_ & Hest).
    unfold locally_estimated in Hest.
    change (@get_active_drop simple_inventory chess_watcher (Some chess_channel))
      with (Some 1%nat) in Hest.
    destruct Hest as [-> _]. reflexivity.
  - destruct (@watch_turn_fallback_ladder simple_inventory chess_watcher
                chess_channel (Some ("drop-x", 5)) (inr (Some ("drop-b", 25))) Hw)
      as (_ & _ & Hnegative).
    destruct (Hnegative "drop-x" 5 eq_refl Hx) as [Hvalid _].
    destruct (Hvalid "drop-b" 25 1%nat eq_refl Hb) as (_ & -> & _).
    reflexivity.
  - destruct (@watch_turn_fallback_ladder simple_inventory chess_watcher
                chess_channel (Some ("drop-x", 5)) (inr (Some ("drop-y", 25))) Hw)
      as (_ & _ & Hnegative).
    destruct (Hnegative "drop-x" 5 eq_refl Hx) as [_ Hinvalid].
    destruct (Hinvalid "drop-y" 25 eq_refl Hy) as (_ & Hest).
    unfold locally_estimated in Hest.
    change (@get_active_drop simple_inventory chess_watcher (Some chess_channel))
      with (Some 1%nat) in Hest.
    destruct Hest as [-> _]. reflexivity.
Defined.

(** C2, as stated: after a timeout the backend is not asked.  On the chess
    watcher, with a backend that would answer the query with the tracked,
    earnable drop ["drop-b"] at 25 minutes, a timeout leaves no query in the
    effects and the drop at 11 minutes, one more than before. *)
Lemma watch_turn_timeout_skips_poll :
  let outcome :=
    @watch_turn simple_inventory true None (inr (Some ("drop-b", 25)))
      chess_watcher in
  @tracked_earnable simple_inventory chess_watcher chess_channel "drop-b" 1%nat
  ∧ outcome.1 = inr tt
  ∧ effects outcome.2 = [SendWatch 5; Display 1%nat; WatchSleepNext]
  ∧ current_minutes <$> (heap chess_watcher !! 1%nat) = Some 10
  ∧ current_minutes <$> (heap outcome.2 !! 1%nat) = Some 11
  ∧ ¬ @timeout_is_followed_by_poll simple_inventory.
Proof.
  split; [by split|]. split; [reflexivity|]. split; [reflexivity|].
  split; [reflexivity|]. split; [reflexivity|].
  intros Hclaim.
  specialize (Hclaim chess_watcher chess_channel (inr (Some ("drop-b", 25)))
                eq_refl).
  change (GqlCurrentDrop ∈ [SendWatch 5; Display 1%nat; WatchSleepNext]) in Hclaim.
  by repeat (apply elem_of_cons in Hclaim as [?|Hclaim]; [done|]);
    apply elem_of_nil in Hclaim.
Qed.

(** ** The retrying request wrapper *)

Lemma emit_emit_all (e : Effect) (self : Twitch) : emit e self = emit_all [e] self.
Proof. by destruct self. Qed.

Lemma emit_all_nil (self : Twitch) : emit_all [] self = self.
Proof. destruct self; simpl. by rewrite app_nil_r. Qed.

Lemma emit_all_app (es1 es2 : list Effect) (self : Twitch) :
  emit_all es2 (emit_all es1 self) = emit_all (es1 ++ es2) self.
Proof. destruct self; simpl. by rewrite app_assoc. Qed.

Lemma effects_emit_all (es : list Effect) (self : Twitch) :
  effects (emit_all es self) = effects self ++ es.
Proof. by destruct self. Qed.

Lemma range_succ (n : nat) :
  range (Z.of_nat (S n)) = range (Z.of_nat n) ++ [Z.of_nat n].
Proof.
  unfold range. rewrite !Nat2Z.id, seq_S, fmap_app. done.
Qed.

Lemma range_nonpos (n : Z) : n ≤ 0 → range n = [].
Proof. intros Hn. unfold range. by replace (Z.to_nat n) with 0%nat by lia. Qed.

Lemma elem_of_range (n i : Z) : i ∈ range n ↔ 0 ≤ i < n.
Proof.
  unfold range. rewrite list_elem_of_fmap. setoid_rewrite elem_of_seq. split.
  - intros (k & -> & Hk). lia.
  - intros Hi. exists (Z.to_nat i). lia.
Qed.

(** The attempts of [range attempts] from index [k] on. *)
Lemma range_split (attempts : Z) (k : nat) :
  Z.of_nat k < attempts →
  ∃ later, range attempts = range (Z.of_nat k) ++ Z.of_nat k :: later.
Proof.
  intros Hk. unfold range. rewrite Nat2Z.id.
  replace (Z.to_nat attempts) with (k + S (Z.to_nat attempts - S k))%nat by lia.
  rewrite seq_app, fmap_app. simpl. eauto.
Qed.

Section RequestFacts.
Context {R : Type}.
Implicit Types (net : Z → Attempt R) (attempts : Z).

(** Attempts that fail on the connection before the last one: each is
    followed by its backoff sleep, and the loop goes on with the last
    connection error as the cause. *)
Lemma request_attempts_retried net attempts (failing : list Z)
    (later : list Z) (cause : option Z) (self : Twitch) :
  Forall (λ i, i < attempts - 1 ∧ is_Some (connection_error (net i))) failing →
  request_attempts net attempts (failing ++ later) cause self
  = request_attempts net attempts later
      (from_option (λ i, connection_error (net i)) cause (last failing))
      (emit_all (failing ≫= retried) self).
Proof.
  revert cause self.
  induction failing as [|i failing IH]; intros cause self Hall; simpl.
  - by rewrite emit_all_nil.
  - apply Forall_cons in Hall as [[Hi [tag Htag]] Hall].
    unfold bind at 1, effect at 1, modify at 1.
    destruct (net i) as [|tag'| |] eqn:Hnet; simplify_eq/=.
    rewrite bool_decide_eq_true_2 by done.
    unfold bind, effect, modify. rewrite IH by done.
    rewrite !emit_emit_all, !emit_all_app. simpl.
    f_equal. rewrite (last_cons i failing).
    destruct (last failing); simpl; [done|by rewrite Hnet].
Qed.

(** The same once a connection error of the caller's body was thrown in. *)
Lemma request_after_throw_retried net attempts (failing : list Z)
    (later : list Z) (cause : option Z) (self : Twitch) :
  Forall (λ i, i < attempts - 1 ∧ is_Some (connection_error (net i))) failing →
  request_after_throw net attempts (failing ++ later) cause self
  = request_after_throw net attempts later
      (from_option (λ i, connection_error (net i)) cause (last failing))
      (emit_all (failing ≫= retried) self).
Proof.
  revert cause self.
  induction failing as [|i failing IH]; intros cause self Hall; simpl.
  - by rewrite emit_all_nil.
  - apply Forall_cons in Hall as [[Hi [tag Htag]] Hall].
    unfold bind at 1, effect at 1, modify at 1.
    destruct (net i) as [|tag'| |] eqn:Hnet; simplify_eq/=.
    rewrite bool_decide_eq_true_2 by done.
    unfold bind, effect, modify. rewrite IH by done.
    rewrite !emit_emit_all, !emit_all_app. simpl.
    f_equal. rewrite (last_cons i failing).
    destruct (last failing); simpl; [done|by rewrite Hnet].
Qed.

(** The attempts of [range attempts] between two indices. *)
Lemma range_split_between (attempts : Z) (k j : nat) :
  (k < j)%nat → Z.of_nat j < attempts →
  ∃ between later,
    range attempts
    = range (Z.of_nat k) ++ Z.of_nat k :: between ++ Z.of_nat j :: later
    ∧ range (Z.of_nat j) = range (Z.of_nat k) ++ Z.of_nat k :: between
    ∧ (∀ i, i ∈ between ↔ Z.of_nat k < i < Z.of_nat j).
Proof.
  intros Hkj Hj.
  destruct (range_split attempts j Hj) as [later Hlater].
  destruct (range_split (Z.of_nat j) k) as [between Hbetween]; [lia|].
  exists between, later. split; [|split; [done|]].
  - by rewrite Hlater, Hbetween, <- app_assoc.
  - intros i.
    assert (Hin : i ∈ range (Z.of_nat j) ↔ 0 ≤ i < Z.of_nat j)
      by apply elem_of_range.
    assert (Hnodup : NoDup (range (Z.of_nat j))).
    { unfold range. apply (NoDup_fmap_2 _). apply NoDup_seq. }
    rewrite Hbetween in Hin, Hnodup.
    apply NoDup_app in Hnodup as (_ & Hdisjoint & Hnodup).
    apply NoDup_cons in Hnodup as [Hk _].
    rewrite elem_of_app, elem_of_cons, elem_of_range in Hin.
    split.
    + intros Hi. assert (¬ 0 ≤ i < Z.of_nat k).
      { intros Hlow%elem_of_range. apply (Hdisjoint i Hlow). by right. }
      assert (i ≠ Z.of_nat k) by (by intros ->).
      assert (0 ≤ i < Z.of_nat j) by (apply Hin; auto). lia.
    + intros Hi. assert (0 ≤ i < Z.of_nat j) as Hrange%Hin by lia.
      destruct Hrange as [?|[?|?]]; [lia|lia|done].
Qed.

(** The last attempt of [range attempts]. *)
Lemma range_last (attempts : Z) :
  0 < attempts → range attempts = range (attempts - 1) ++ [attempts - 1].
Proof.
  intros Hpos. replace attempts with (Z.of_nat (S (Z.to_nat (attempts - 1))))
    at 1 by lia.
  rewrite range_succ. by rewrite Z2Nat.id by lia.
Qed.

(** One attempt of the loop whose session request does not fail on the
    connection, once a connection error of the body was thrown in. *)
Lemma request_after_throw_ends net attempts (j : Z) (later : list Z)
    (cause : option Z) (self : Twitch) :
  connection_error (net j) = None →
  request_after_throw net attempts (j :: later) cause self
  = (inl (after_throw (net j)), emit (SessionRequest j) self).
Proof.
  intros Hnone. simpl. unfold bind, effect, modify.
  by destruct (net j); simplify_eq/=.
Qed.

(** C9.  With a session at hand and an attempt budget [attempts]:
    - if the attempts before the [k]-th fail on the connection and the
      [k]-th gives a response, the response is returned, each failed attempt
      having been followed by a sleep of its index times the unit and by the
      next attempt;
    - if the [k]-th instead fails otherwise, that exception is raised at
      once, with no further attempt;
    - if at the [k]-th the connection fails in the caller's body, the error
      is thrown in at the [yield], followed by the same sleep and by the
      next attempt; the first later attempt [j] that does not fail on the
      connection then ends the call, with the exception of the session or,
      if the session answers, with the [RuntimeError] of a second [yield];
      if all later attempts fail on the connection, [RequestException] is
      raised with the last connection error as its cause;
    - if all [attempts] attempts fail on the connection,
      [RequestException] is raised with the last connection error as its
      cause, after a sleep behind every failed attempt but the last. *)
Theorem request_retries net attempts (self : Twitch) :
  is_Some (_session self) →
  let outcome := request net attempts self in
  (∀ k : nat,
     Z.of_nat k < attempts →
     (∀ i, 0 ≤ i < Z.of_nat k → is_Some (connection_error (net i))) →
     (∀ response,
        net (Z.of_nat k) = Responded response →
        outcome
        = (inr response,
           emit_all ((range (Z.of_nat k) ≫= retried)
                     ++ [SessionRequest (Z.of_nat k)]) self))
     ∧ (∀ e,
          net (Z.of_nat k) = Failed e →
          outcome
          = (inl e,
             emit_all ((range (Z.of_nat k) ≫= retried)
                       ++ [SessionRequest (Z.of_nat k)]) self))
     ∧ (∀ tag,
          net (Z.of_nat k) = BodyConnectionFailed tag →
          (∀ j : nat,
             (k < j)%nat → Z.of_nat j < attempts →
             (∀ i, Z.of_nat k < i < Z.of_nat j →
                   is_Some (connection_error (net i))) →
             connection_error (net (Z.of_nat j)) = None →
             outcome
             = (inl (after_throw (net (Z.of_nat j))),
                emit_all ((range (Z.of_nat j) ≫= retried)
                          ++ [SessionRequest (Z.of_nat j)]) self))
          ∧ ((∀ i, Z.of_nat k < i < attempts →
                   is_Some (connection_error (net i))) →
             outcome
             = (inl (RequestException
                       (if bool_decide (Z.of_nat k = attempts - 1)
                        then Some tag
                        else connection_error (net (attempts - 1)))),
                emit_all ((range (attempts - 1) ≫= retried)
                          ++ [SessionRequest (attempts - 1)]) self))))
  ∧ (0 < attempts →
     (∀ i, 0 ≤ i < attempts → is_Some (connection_error (net i))) →
     outcome
     = (inl (RequestException (connection_error (net (attempts - 1)))),
        emit_all ((range (attempts - 1) ≫= retried)
                  ++ [SessionRequest (attempts - 1)]) self)).
Proof.
  intros [jar Hjar] outcome.
  assert (Hrun : outcome
                 = request_attempts net attempts (range attempts) None self).
  { unfold outcome, request, bind, gets. rewrite Hjar. reflexivity. }
  split.
  - intros k Hk Hfail.
    destruct (range_split attempts k Hk) as [later Hsplit].
    assert (Hretried :
      request_attempts net attempts (range attempts) None self
      = request_attempts net attempts (Z.of_nat k :: later)
          (from_option (λ i, connection_error (net i)) None
                       (last (range (Z.of_nat k))))
          (emit_all (range (Z.of_nat k) ≫= retried) self)).
    { rewrite Hsplit. apply request_attempts_retried.
      apply Forall_forall. intros i Hi%elem_of_range. split; [lia|].
      by apply Hfail. }
    split; [|split].
    + rewrite Hrun, Hretried. simpl. unfold bind, effect, modify.
      intros response ->. unfold ret.
      by rewrite emit_emit_all, emit_all_app.
    + rewrite Hrun, Hretried. simpl. unfold bind, effect, modify.
      intros e ->. unfold raise.
      by rewrite emit_emit_all, emit_all_app.
    + intros tag Hbody. split.
      * intros j Hkj Hj Hbetween Hends.
        destruct (range_split_between attempts k j Hkj Hj)
          as (between & later' & Hparts & Hprefix & Helem).
        assert (Hlater : later = between ++ Z.of_nat j :: later').
        { rewrite Hsplit in Hparts. by simplify_list_eq. }
        rewrite Hrun, Hretried, Hlater.
        cbn [request_attempts]. unfold bind at 1, effect at 1, modify at 1.
        rewrite Hbody. rewrite bool_decide_eq_true_2 by lia.
        unfold bind at 1, effect at 1, modify at 1.
        rewrite request_after_throw_retried.
        2:{ apply Forall_forall. intros i Hi%Helem. split; [lia|].
            by apply Hbetween. }
        rewrite request_after_throw_ends by done. f_equal.
        rewrite Hprefix, bind_app, bind_cons. unfold retried at 2.
        rewrite !emit_emit_all, !emit_all_app. by simplify_list_eq.
      * intros Hrest. rewrite Hrun, Hretried.
        cbn [request_attempts]. unfold bind at 1, effect at 1, modify at 1.
        rewrite Hbody.
        destruct (decide (Z.of_nat k = attempts - 1)) as [Hlast|Hlast].
        -- assert (Hnone : later = []).
           { rewrite range_last, <- Hlast in Hsplit by lia.
             apply app_inv_head in Hsplit. by simplify_eq. }
           subst later. rewrite bool_decide_eq_false_2 by lia.
           rewrite bool_decide_eq_true_2 by done.
           unfold bind, ret, raise. simpl.
           by rewrite <- Hlast, emit_emit_all, emit_all_app.
        -- rewrite (bool_decide_eq_false_2 (Z.of_nat k = attempts - 1)) by done.
           destruct (range_split_between attempts k (Z.to_nat (attempts - 1)))
             as (between & later' & Hparts & Hprefix & Helem); [lia|lia|].
           rewrite Z2Nat.id in Hparts, Hprefix, Helem by lia.
           assert (Hnone : later' = []).
           { rewrite range_last, Hprefix in Hparts by lia.
             rewrite <- !app_assoc in Hparts. by simplify_list_eq. }
           subst later'.
           assert (Hlater : later = between ++ [attempts - 1]).
           { rewrite Hsplit in Hparts. by simplify_list_eq. }
           rewrite Hlater. rewrite bool_decide_eq_true_2 by lia.
           unfold bind at 1, effect at 1, modify at 1.
           rewrite request_after_throw_retried.
           2:{ apply Forall_forall. intros i Hi%Helem. split; [lia|].
               apply Hrest. lia. }
           cbn [request_after_throw].
           unfold bind at 1, effect at 1, modify at 1.
           destruct (Hrest (attempts - 1)) as [tag' Htag']; [lia|].
           destruct (net (attempts - 1)) as [|tag''| |] eqn:Hnet;
             simplify_eq/=.
           rewrite bool_decide_eq_false_2 by lia. unfold bind, ret, raise.
           simpl. f_equal.
           rewrite Hprefix, bind_app, bind_cons. unfold retried at 2.
           rewrite !emit_emit_all, !emit_all_app. by simplify_list_eq.
  - intros Hpos Hfail.
    destruct (range_split attempts (Z.to_nat (attempts - 1))) as [later Hsplit];
      [lia|].
    rewrite Z2Nat.id in Hsplit by lia.
    assert (Hlater : later = []).
    { assert (Hlen : length (range attempts) = Z.to_nat attempts)
        by (unfold range; by rewrite length_fmap, length_seq).
      rewrite Hsplit, length_app in Hlen. simpl in Hlen.
      assert (length (range (attempts - 1)) = Z.to_nat (attempts - 1))
        by (unfold range; by rewrite length_fmap, length_seq).
      destruct later; [done|]. simpl in Hlen. lia. }
    subst later.
    rewrite Hrun, Hsplit, request_attempts_retried.
    + simpl. unfold bind, effect, modify.
      destruct (Hfail (attempts - 1)) as [tag Htag]; [lia|].
      destruct (net (attempts - 1)) as [|tag'| |] eqn:Hnet; simplify_eq/=.
      rewrite bool_decide_eq_false_2 by lia. unfold ret, raise. simpl.
      by rewrite emit_emit_all, emit_all_app.
    + apply Forall_forall. intros i Hi%elem_of_range. split; [lia|].
      apply Hfail. lia.
Qed.

(** With no attempt allowed, the exception has no cause. *)
Lemma request_without_attempts net attempts (self : Twitch) :
  is_Some (_session self) → attempts ≤ 0 →
  request net attempts self = (inl (RequestException None), self).
Proof.
  intros [jar Hjar] Hn. unfold request, bind, gets. rewrite Hjar. simpl.
  by rewrite range_nonpos.
Qed.

(** Without a session, the wrapper makes one but fails its assertion. *)
Lemma request_without_session net attempts (self : Twitch) :
  _session self = None →
  request net attempts self = (inl AssertionError, initialize self).
Proof. intros Hnone. unfold request, bind, gets, modify. by rewrite Hnone. Qed.
End RequestFacts.

Lemma request_retries_witness :
  is_Some (_session chess_miner)
  ∧ request flaky_network 5 chess_miner
    = (inr 200,
       emit_all [SessionRequest 0; Sleep 0; SessionRequest 1; Sleep 1;
                 SessionRequest 2] chess_miner)
  ∧ request garbled_network 5 chess_miner
    = (inl (OtherError "ContentTypeError"),
       emit_all [SessionRequest 0; Sleep 0; SessionRequest 1] chess_miner)
  ∧ request dead_network 3 chess_miner
    = (inl (RequestException (Some 102)),
       emit_all [SessionRequest 0; Sleep 0; SessionRequest 1; Sleep 1;
                 SessionRequest 2] chess_miner)
  ∧ request cut_network 5 chess_miner
    = (inl (RuntimeError "generator didn't stop after athrow()"),
       emit_all [SessionRequest 0; Sleep 0; SessionRequest 1] chess_miner).
Proof.
  assert (Hsession : is_Some (_session chess_miner)) by (by eexists).
  split; [exact Hsession|]. split; [|split; [|split]].
  - destruct (request_retries flaky_network 5 chess_miner Hsession) as [Hk _].
    destruct (Hk 2%nat) as [Hresponse _]; [lia| |by apply Hresponse].
    intros i Hi. assert (i = 0 ∨ i = 1) as [->| ->] by lia; by eexists.
  - destruct (request_retries garbled_network 5 chess_miner Hsession) as [Hk _].
    destruct (Hk 1%nat) as [_ Hfailed]; [lia| |by apply Hfailed].
    intros i Hi. assert (i = 0) as -> by lia. by eexists.
  - destruct (request_retries dead_network 3 chess_miner Hsession) as [_ Hall].
    apply Hall; [lia|]. intros i _. by eexists.
  - destruct (request_retries cut_network 5 chess_miner Hsession) as [Hk _].
    destruct (Hk 0%nat) as (_ & _ & Hbody); [lia|lia|].
    destruct (Hbody 100 eq_refl) as [Hthrown _].
    apply (Hthrown 1%nat); [lia|lia|lia|done].
Defined.

(** ** Session validation *)

Lemma range_2 : range 2 = [0; 1].
Proof. reflexivity. Qed.

(** Without a cookie, the login flow provides the token. *)
Lemma obtain_token_fresh (login : Z → Exn + string) (attempt : Z)
    (self : Twitch) (token : string) :
  _session self = Some ∅ → login attempt = inr token →
  obtain_token login attempt self
  = (inr {[ "auth-token" := token ]},
     set_access_token (Some token) (emit LoginFlow self)).
Proof.
  intros Hjar Hlogin. unfold obtain_token, bind, gets, effect, modify, await, ret.
  rewrite Hjar. simpl. rewrite bool_decide_eq_true_2 by done.
  by rewrite Hlogin.
Qed.

(** An exception of the login flow leaves the validation. *)
Lemma obtain_token_login_fails (login : Z → Exn + string) (attempt : Z)
    (self : Twitch) (e : Exn) :
  _session self = Some ∅ → login attempt = inl e →
  obtain_token login attempt self = (inl e, emit LoginFlow self).
Proof.
  intros Hjar Hlogin. unfold obtain_token, bind, gets, effect, modify, await, ret.
  rewrite Hjar. simpl. rewrite bool_decide_eq_true_2 by done.
  by rewrite Hlogin.
Qed.

(** With a cookie and no token yet, the token is recovered from the
    cookie. *)
Lemma obtain_token_recovered (login : Z → Exn + string) (attempt : Z)
    (self : Twitch) (jar : gmap string string) (token : string) :
  _session self = Some jar → jar !! "auth-token" = Some token →
  _access_token self = None →
  obtain_token login attempt self = (inr jar, set_access_token (Some token) self).
Proof.
  intros Hjar Htoken Hnone.
  unfold obtain_token, bind, gets, effect, modify, await, ret.
  rewrite Hjar. simpl. rewrite bool_decide_eq_false_2.
  - by rewrite Hnone, Htoken.
  - intros ->. by rewrite lookup_empty in Htoken.
Qed.

(** One turn of the validation loop. *)
Lemma validate_attempts_step (login : Z → Exn + string)
    (validate : Z → option string → Exn + (Z * Z)) (attempt : Z)
    (todo : list Z) (self s1 : Twitch) (cookie : gmap string string)
    (status user_id : Z) :
  obtain_token login attempt self = (inr cookie, s1) →
  validate attempt (_access_token s1) = inr (status, user_id) →
  validate_attempts login validate (attempt :: todo) self
  = let s2 := emit (Validate (_access_token s1)) s1 in
    if bool_decide (status = 401) then
      validate_attempts login validate todo
        (emit ClearDomain (set_session (Some ∅) s2))
    else if bool_decide (status = 200) then (inr (Some (cookie, user_id)), s2)
    else validate_attempts login validate todo s2.
Proof.
  intros Hobtain Hvalidate. simpl.
  unfold bind at 1. rewrite Hobtain.
  unfold bind, gets, effect, modify, await, ret. simpl.
  rewrite Hvalidate. by repeat case_bool_decide.
Qed.

(** The frame of [check_login] around the loop. *)
Lemma check_login_unfold (login : Z → Exn + string)
    (validate : Z → option string → Exn + (Z * Z)) (self : Twitch) :
  needs_validation self → is_Some (_session self) →
  check_login login validate self
  = match validate_attempts login validate [0; 1] self with
    | (inr (Some (cookie, user_id)), s) => (inr tt, finish_login cookie user_id s)
    | (inr None, s) => (inl (RuntimeError "Login verification failure"), s)
    | (inl e, s) => (inl e, s)
    end.
Proof.
  intros Hneeds [jar Hjar].
  unfold check_login. rewrite range_2.
  unfold bind at 1, gets at 1. unfold bind at 1, gets at 1.
  rewrite bool_decide_eq_false_2 by done.
  unfold bind at 1, gets at 1. rewrite Hjar.
  unfold bind at 1, ret at 1. unfold bind at 1.
  destruct (validate_attempts login validate [0; 1] self) as [[e|[[cookie uid]|]] s];
    [done| |done].
  unfold bind, modify, gets, ret, finish_login. simpl. by destruct s.
Qed.

(** With the token and the user at hand, there is nothing to validate. *)
Lemma check_login_already_validated (login : Z → Exn + string)
    (validate : Z → option string → Exn + (Z * Z)) (self : Twitch) :
  is_Some (_access_token self) → is_Some (_user_id self) →
  check_login login validate self = (inr tt, self).
Proof.
  intros Htoken Huser. unfold check_login, bind, gets, ret.
  by rewrite bool_decide_eq_true_2.
Qed.

(** C8, as amended.  When validation is due, the token recovered from the
    cookie or obtained from the login flow is validated against the backend.
    - Status 200 on the first validation: the session is validated.
    - Status 401: the cookie jar is cleared and the flow starts again with the
      login flow; an exception of the login flow is passed on; a status 200 on
      the second validation validates the session.
    - Any other status: a second attempt follows, the cookie jar left as it
      is; a status 200 on the second validation validates the session.
    - There is no third validation: when the second validation does not give
      status 200 either, [RuntimeError("Login verification failure")] is
      raised. *)
Theorem check_login_bounded_validation (login : Z → Exn + string)
    (validate : Z → option string → Exn + (Z * Z)) (self s1 : Twitch)
    (cookie0 : gmap string string) (status0 user_id0 : Z) :
  needs_validation self →
  is_Some (_session self) →
  obtain_token login 0 self = (inr cookie0, s1) →
  validate 0 (_access_token s1) = inr (status0, user_id0) →
  let failure := RuntimeError "Login verification failure" in
  let s2 := emit (Validate (_access_token s1)) s1 in
  let outcome := check_login login validate self in
  (status0 = 200 → outcome = (inr tt, finish_login cookie0 user_id0 s2))
  ∧ (status0 = 401 →
     let s3 := emit ClearDomain (set_session (Some ∅) s2) in
     (∀ e, login 1 = inl e → outcome = (inl e, emit LoginFlow s3))
     ∧ (∀ token1 status1 user_id1,
          login 1 = inr token1 →
          validate 1 (Some token1) = inr (status1, user_id1) →
          let s4 := emit (Validate (Some token1))
                      (set_access_token (Some token1) (emit LoginFlow s3)) in
          (status1 = 200 →
           outcome
           = (inr tt, finish_login {[ "auth-token" := token1 ]} user_id1 s4))
          ∧ (status1 = 401 →
             outcome
             = (inl failure, emit ClearDomain (set_session (Some ∅) s4)))
          ∧ (status1 ≠ 200 → status1 ≠ 401 → outcome = (inl failure, s4))))
  ∧ (status0 ≠ 200 → status0 ≠ 401 →
     _session s2 = _session s1
     ∧ ∀ cookie1 s3 status1 user_id1,
         obtain_token login 1 s2 = (inr cookie1, s3) →
         validate 1 (_access_token s3) = inr (status1, user_id1) →
         let s4 := emit (Validate (_access_token s3)) s3 in
         (status1 = 200 → outcome = (inr tt, finish_login cookie1 user_id1 s4))
         ∧ (status1 = 401 →
            outcome
            = (inl failure, emit ClearDomain (set_session (Some ∅) s4)))
         ∧ (status1 ≠ 200 → status1 ≠ 401 → outcome = (inl failure, s4))).
Proof.
  intros Hneeds Hsession Hobtain Hvalidate failure s2 outcome.
  unfold outcome. rewrite check_login_unfold by done.
  rewrite (validate_attempts_step _ _ _ _ _ _ _ _ _ Hobtain Hvalidate).
  fold s2. cbv zeta.
  split; [|split].
  - intros ->. by rewrite bool_decide_eq_false_2, bool_decide_eq_true_2.
  - intros ->. rewrite bool_decide_eq_true_2 by done.
    set (s3 := emit ClearDomain (set_session (Some ∅) s2)).
    assert (Hjar : _session s3 = Some ∅) by (unfold s3, s2; by destruct s1).
    split.
    + intros e Hlogin. simpl. unfold bind at 1.
      by rewrite (obtain_token_login_fails _ _ _ e Hjar Hlogin).
    + intros token1 status1 user_id1 Hlogin Hvalidate1.
      set (s4 := emit (Validate (Some token1))
                   (set_access_token (Some token1) (emit LoginFlow s3))).
      pose proof (obtain_token_fresh _ _ _ token1 Hjar Hlogin) as Hobtain1.
      assert (Htoken : _access_token (set_access_token (Some token1) (emit LoginFlow s3))
                       = Some token1) by (by destruct s3).
      rewrite <- Htoken in Hvalidate1.
      rewrite (validate_attempts_step _ _ _ _ _ _ _ _ _ Hobtain1 Hvalidate1).
      rewrite Htoken. fold s4. cbv zeta. simpl.
      split; [|split].
      * intros ->. by rewrite bool_decide_eq_false_2, bool_decide_eq_true_2.
      * intros ->. by rewrite bool_decide_eq_true_2.
      * intros H200 H401. by rewrite !bool_decide_eq_false_2.
  - intros H200 H401. rewrite !bool_decide_eq_false_2 by done.
    split; [unfold s2; by destruct s1|].
    intros cookie1 s3 status1 user_id1 Hobtain1 Hvalidate1.
    rewrite (validate_attempts_step _ _ _ _ _ _ _ _ _ Hobtain1 Hvalidate1).
    cbv zeta. simpl.
    split; [|split].
    + intros ->. by rewrite bool_decide_eq_false_2, bool_decide_eq_true_2.
    + intros ->. by rewrite bool_decide_eq_true_2.
    + intros H200' H401'. by rewrite !bool_decide_eq_false_2.
Qed.

Lemma check_login_bounded_validation_witness :
  needs_validation returning_user
  ∧ is_Some (_session returning_user)
  ∧ (let outcome := check_login fresh_login strict_backend returning_user in
     outcome.1 = inr tt
     ∧ _user_id outcome.2 = Some 99
     ∧ effects outcome.2
       = [Validate (Some "stale"); ClearDomain; LoginFlow; Validate (Some "fresh")])
  ∧ (let outcome := check_login fresh_login rejecting_backend returning_user in
     outcome.1 = inl (RuntimeError "Login verification failure")
     ∧ _user_id outcome.2 = None
     ∧ effects outcome.2
       = [Validate (Some "stale"); ClearDomain; LoginFlow; Validate (Some "fresh");
          ClearDomain]).
Proof.
  assert (Hneeds : needs_validation returning_user).
  { intros [[token Htoken] _]. discriminate Htoken. }
  assert (Hsession : is_Some (_session returning_user)) by (by eexists).
  assert (Hobtain : obtain_token fresh_login 0 returning_user
                    = (inr {[ "auth-token" := "stale" ]},
                       set_access_token (Some "stale") returning_user)).
  { by apply obtain_token_recovered. }
  split; [exact Hneeds|]. split; [exact Hsession|]. split.
  - destruct (check_login_bounded_validation fresh_login strict_backend
                returning_user _ _ 401 0 Hneeds Hsession Hobtain eq_refl)
      as (_ & Hunauthorized & _).
    destruct (Hunauthorized eq_refl) as [_ Hsecond].
    destruct (Hsecond "fresh" 200 99 eq_refl eq_refl) as (Hok & _ & _).
    simpl. rewrite (Hok eq_refl). repeat split.
  - destruct (check_login_bounded_validation fresh_login rejecting_backend
                returning_user _ _ 401 0 Hneeds Hsession Hobtain eq_refl)
      as (_ & Hunauthorized & _).
    destruct (Hunauthorized eq_refl) as [_ Hsecond].
    destruct (Hsecond "fresh" 401 0 eq_refl eq_refl) as (_ & Hagain & _).
    simpl. rewrite (Hagain eq_refl). repeat split.
Defined.

(** C8, the last clause as stated: a status other than 200 and 401 is not
    fatal on the first validation.  With a backend that answers 500 and then
    200, the session is validated on the second attempt, with the cookie left
    in place. *)
Lemma check_login_retries_other_status :
  (let outcome := check_login fresh_login recovering_backend returning_user in
   recovering_backend 0 (Some "stale") = inr (500, 0)
   ∧ outcome.1 = inr tt
   ∧ _user_id outcome.2 = Some 99
   ∧ _is_logged_in outcome.2 = true
   ∧ effects outcome.2 = [Validate (Some "stale"); Validate (Some "stale")])
  ∧ ¬ other_status_is_fatal.
Proof.
  split; [repeat split|].
  intros Hclaim.
  destruct (Hclaim returning_user fresh_login recovering_backend) as [e He].
  - intros [[token Htoken] _]. discriminate Htoken.
  - by eexists.
  - intros token. exists 500, 0. repeat split; done.
  - discriminate He.
Qed.

(** ** The inventory refresh *)

Section CatalogFacts.
Context {K V : Type} `{EqDecision K}.

Lemma elem_of_odict_set (k k' : K) (v v' : V) (d : list (K * V)) :
  (k', v') ∈ odict_set k v d → (k', v') = (k, v) ∨ (k', v') ∈ d.
Proof.
  induction d as [|[k0 v0] d IH]; csimpl.
  - intros Hin%list_elem_of_singleton. by left.
  - case_bool_decide as Hk.
    + intros [->|Hin]%elem_of_cons; [by left|right; by right].
    + intros [->|Hin]%elem_of_cons; [right; left|].
      destruct (IH Hin) as [?|?]; [by left|right; by right].
Qed.

Lemma odict_set_keys (k : K) (v : V) (d : list (K * V)) :
  (odict_set k v d).*1 = d.*1
  ∨ ((k ∉ d.*1) ∧ (odict_set k v d).*1 = d.*1 ++ [k]).
Proof.
  induction d as [|[k0 v0] d IH]; csimpl.
  - right. split; [by apply not_elem_of_nil|done].
  - case_bool_decide as Hk; csimpl; [left; by subst|].
    destruct IH as [->|[Hnot ->]]; [by left|right].
    split; [|done]. by apply not_elem_of_cons.
Qed.

Lemma odict_set_NoDup (k : K) (v : V) (d : list (K * V)) :
  NoDup d.*1 → NoDup (odict_set k v d).*1.
Proof.
  intros Hnd. destruct (odict_set_keys k v d) as [->|[Hnot ->]]; [done|].
  apply NoDup_app. split; [done|]. split; [|apply NoDup_singleton].
  intros x Hx Hk%list_elem_of_singleton. by subst.
Qed.

Lemma odict_set_key (k : K) (v : V) (d : list (K * V)) :
  k ∈ (odict_set k v d).*1.
Proof.
  induction d as [|[k0 v0] d IH]; csimpl; [left|].
  case_bool_decide; csimpl; [left|by right].
Qed.

Lemma odict_set_keeps_keys (k k' : K) (v : V) (d : list (K * V)) :
  k' ∈ d.*1 → k' ∈ (odict_set k v d).*1.
Proof.
  intros Hin. destruct (odict_set_keys k v d) as [->|[_ ->]]; [done|].
  apply elem_of_app. by left.
Qed.
End CatalogFacts.

Section InventoryFacts.
Context `{!InventoryAPI}.

(** The entries of [available_campaigns]: distinct identifiers, each entry
    an applicable element of the catalog under its own identifier, and
    every applicable element represented. *)
Lemma available_campaigns_from (existing : list string)
    (available_list : list AvailableData) (d : list (string * AvailableData)) :
  let entries :=
    foldl (λ d c, if applicable existing c then odict_set (av_id c) c d else d)
          d available_list in
  (NoDup d.*1 → NoDup entries.*1)
  ∧ (∀ id a, (id, a) ∈ entries →
       (id, a) ∈ d
       ∨ (a ∈ available_list ∧ av_id a = id ∧ applicable existing a = true))
  ∧ (∀ id, id ∈ d.*1 → id ∈ entries.*1)
  ∧ (∀ a, a ∈ available_list → applicable existing a = true →
          av_id a ∈ entries.*1).
Proof.
  revert d. induction available_list as [|c l IH]; intros d; simpl.
  - split; [done|]. split; [by left|]. split; [done|].
    intros a Ha. by apply elem_of_nil in Ha.
  - destruct (IH (if applicable existing c then odict_set (av_id c) c d else d))
      as (Hnd & Hin & Hkeys & Hall).
    split; [|split; [|split]].
    + intros Hd. apply Hnd. destruct (applicable existing c); [|done].
      by apply odict_set_NoDup.
    + intros id a Ha. destruct (Hin id a Ha) as [Hd|(? & ? & ?)].
      * destruct (applicable existing c) eqn:Happ; [|by left].
        apply elem_of_odict_set in Hd as [[= -> ->]|?]; [|by left].
        right. split; [left|done].
      * right. split; [by right|done].
    + intros id Hid. apply Hkeys. destruct (applicable existing c); [|done].
      by apply odict_set_keeps_keys.
    + intros a [->|Ha]%elem_of_cons Happ; [|by apply Hall].
      apply Hkeys. rewrite Happ. apply odict_set_key.
Qed.

Lemma applicable_true (existing : list string) (a : AvailableData) :
  applicable existing a = true
  ↔ av_status a ∈ ["ACTIVE"; "UPCOMING"]
    ∧ av_connected a = true
    ∧ av_id a ∉ existing.
Proof.
  unfold applicable. rewrite !andb_true_iff, !bool_decide_eq_true. tauto.
Qed.

(** The first loop: the campaigns in progress, constructed in order. *)
Lemma construct_in_progress (claimed : gmap string Z)
    (datas : list CampaignData) (acc : list Campaign) (self : Twitch) :
  fold_m (construct_campaign claimed) acc datas self
  = (inr (acc ++ (construct claimed (heap self) datas).1),
     set_heap (construct claimed (heap self) datas).2 self).
Proof.
  revert acc self. induction datas as [|data datas IH]; intros acc self; simpl.
  - unfold ret. rewrite app_nil_r. by destruct self.
  - unfold bind at 1.
    unfold construct_campaign, DropsCampaign, bind, gets, modify, ret. simpl.
    rewrite IH.
    assert (Hheap : heap (set_heap (heap self ++ parse_drops data claimed) self)
                    = heap self ++ parse_drops data claimed) by (by destruct self).
    rewrite Hheap.
    destruct (construct claimed (heap self ++ parse_drops data claimed) datas)
      as [cs h'] eqn:Hc. simpl.
    rewrite <- app_assoc. simpl. by destruct self.
Qed.

(** The second loop: the campaigns of the catalog entries, fetched and
    constructed in order, those that can be earned being kept. *)
Lemma construct_fetched (claimed : gmap string Z)
    (details : string → Exn + CampaignData) (detail_of : string → CampaignData)
    (entries : list (string * AvailableData)) (acc : list Campaign)
    (self : Twitch) :
  (∀ e, e ∈ entries → details e.1 = inr (detail_of e.1)) →
  let fetched :=
    construct claimed (heap self) (fetched_data detail_of <$> entries) in
  fold_m (fetch_if_earnable details claimed) acc entries self
  = (inr (acc ++ List.filter (λ c, campaign_can_earn c None) fetched.1),
     set_heap fetched.2 (emit_all (GqlCampaignDetails <$> entries.*1) self)).
Proof.
  revert acc self. induction entries as [|[id a] entries IH];
    intros acc self Hdetails; csimpl.
  - unfold ret. rewrite app_nil_r. destruct self; simpl. by rewrite app_nil_r.
  - pose proof (Hdetails (id, a) ltac:(left)) as Hid. simpl in Hid.
    assert (Hrest : ∀ e, e ∈ entries → details e.1 = inr (detail_of e.1))
      by (intros e He; apply Hdetails; by right).
    set (data := set_box_art (av_box_art a) (detail_of id)).
    set (campaign :=
           {| campaign_data := data;
              drops := seq (length (heap self))
                           (length (parse_drops data claimed)) |}).
    set (s1 := set_heap (heap self ++ parse_drops data claimed)
                 (emit (GqlCampaignDetails id) self)).
    assert (Hstep : fetch_if_earnable details claimed acc (id, a) self
              = (inr (if campaign_can_earn campaign None
                      then acc ++ [campaign] else acc), s1)).
    { unfold fetch_if_earnable, fetch_campaign, DropsCampaign, bind, gets,
        modify, effect, await, ret. simpl. rewrite Hid. simpl.
      fold data.
      assert (heap (emit (GqlCampaignDetails id) self) = heap self) as ->
        by (by destruct self).
      fold campaign s1. by destruct (campaign_can_earn campaign None). }
    unfold bind. rewrite Hstep, (IH _ _ Hrest).
    assert (heap s1 = heap self ++ parse_drops data claimed) as ->
      by (unfold s1; by destruct self).
    change (fetched_data detail_of (id, a)) with data.
    destruct (construct claimed (heap self ++ parse_drops data claimed)
                (fetched_data detail_of <$> entries)) as [cs h'] eqn:Hc.
    simpl. fold campaign.
    assert (Hstate : set_heap h' (emit_all (GqlCampaignDetails <$> entries.*1) s1)
              = set_heap h' (emit_all (GqlCampaignDetails id
                                        :: (GqlCampaignDetails <$> entries.*1))
                                      self)).
    { unfold s1. destruct self; simpl. by rewrite <- app_assoc. }
    rewrite Hstate.
    destruct (campaign_can_earn campaign None); [|done].
    by rewrite <- app_assoc.
Qed.

(** The last loop: the campaigns become the inventory. *)
Lemma store_inventory (campaigns : list Campaign) (self : Twitch) :
  ∃ self',
    for_each campaigns store_campaign self = (inr tt, self')
    ∧ inventory self' = inventory self ++ campaigns
    ∧ heap self' = heap self.
Proof.
  revert self. induction campaigns as [|c campaigns IH]; intros self; simpl.
  - exists self. by rewrite app_nil_r.
  - unfold bind, store_campaign at 1, modify. simpl.
    destruct (IH (set_inventory (inventory (index_drops c self) ++ [c])
                    (index_drops c self))) as (self' & -> & Hinv & Hheap).
    exists self'. split; [done|]. rewrite Hinv, Hheap.
    destruct self; simpl. by rewrite <- app_assoc.
Qed.

Lemma construct_data (claimed : gmap string Z) (h : list TimedDrop)
    (datas : list CampaignData) :
  campaign_data <$> (construct claimed h datas).1 = datas.
Proof.
  revert h. induction datas as [|data datas IH]; intros h; csimpl; [done|].
  specialize (IH (h ++ parse_drops data claimed)).
  destruct (construct claimed (h ++ parse_drops data claimed) datas).
  csimpl in *. by rewrite IH.
Qed.

(** [fetch_inventory], when the three kinds of request are answered. *)
Lemma fetch_inventory_run (self : Twitch) (inventory_data : InventoryData)
    (available_list : option (list AvailableData))
    (details : string → Exn + CampaignData) (detail_of : string → CampaignData) :
  let ongoing := default [] (in_progress inventory_data) in
  let claimed := dict_of (game_event_drops inventory_data) in
  let entries :=
    available_campaigns (cd_id <$> ongoing) (default [] available_list) in
  (∀ e, e ∈ entries → details e.1 = inr (detail_of e.1)) →
  let constructed := construct claimed (heap self) ongoing in
  let fetched :=
    construct claimed constructed.2 (fetched_data detail_of <$> entries) in
  ∃ self',
    fetch_inventory (inr inventory_data) (inr available_list) details self
    = (inr tt, self')
    ∧ inventory self'
      = sorted_by ends_at
          (constructed.1
           ++ List.filter (λ c, campaign_can_earn c None) fetched.1)
    ∧ heap self' = fetched.2.
Proof.
  intros ongoing claimed entries Hdetails constructed fetched.
  unfold fetch_inventory, bind, effect, await, modify.
  fold ongoing claimed.
  rewrite construct_in_progress. simpl.
  assert (Hheap : heap (emit GqlInventory self) = heap self)
    by (by destruct self).
  rewrite Hheap. fold constructed.
  assert (Hids : campaign_id <$> constructed.1 = cd_id <$> ongoing).
  { unfold constructed. rewrite <- (construct_data claimed (heap self) ongoing) at 2.
    by rewrite <- list_fmap_compose. }
  rewrite Hids. fold entries.
  rewrite (construct_fetched claimed details detail_of entries) by done.
  assert (Hheap2 : heap (emit GqlCampaigns
                           (set_heap constructed.2 (emit GqlInventory self)))
                   = constructed.2) by (by destruct self).
  rewrite Hheap2. fold fetched.
  match goal with
  | |- context [for_each ?cs store_campaign ?s] =>
      destruct (store_inventory cs s) as (self' & -> & Hinv & Hh)
  end.
  exists self'. split; [done|]. rewrite Hinv, Hh.
  split; by destruct self.
Qed.

(** C7.  When the inventory request, the campaigns request and the details
    request of every retained catalog entry are answered, the inventory
    after [fetch_inventory] is made of the campaigns in progress and of the
    campaigns fetched for the retained entries that can be earned, sorted
    ascending by end time.  The retained entries are the elements of the
    catalog with status ACTIVE or UPCOMING, a linked account and an
    identifier that no campaign in progress has, one entry per identifier;
    so no fetched campaign repeats a campaign in progress. *)
Theorem fetch_inventory_union (self : Twitch) (inventory_data : InventoryData)
    (available_list : option (list AvailableData))
    (details : string → Exn + CampaignData) (detail_of : string → CampaignData) :
  let ongoing := default [] (in_progress inventory_data) in
  let claimed := dict_of (game_event_drops inventory_data) in
  let catalog := default [] available_list in
  let entries := available_campaigns (cd_id <$> ongoing) catalog in
  (∀ e, e ∈ entries → details e.1 = inr (detail_of e.1)) →
  let constructed := construct claimed (heap self) ongoing in
  let fetched :=
    (construct claimed constructed.2 (fetched_data detail_of <$> entries)).1 in
  let added := List.filter (λ c, campaign_can_earn c None) fetched in
  let outcome :=
    fetch_inventory (inr inventory_data) (inr available_list) details self in
  outcome.1 = inr tt
  ∧ inventory outcome.2 ≡ₚ constructed.1 ++ added
  ∧ StronglySorted (λ a b, ends_at a ≤ ends_at b) (inventory outcome.2)
  ∧ campaign_data <$> constructed.1 = ongoing
  ∧ campaign_data <$> fetched = fetched_data detail_of <$> entries
  ∧ (∀ c, c ∈ added ↔ c ∈ fetched ∧ campaign_can_earn c None = true)
  ∧ NoDup entries.*1
  ∧ (∀ id a, (id, a) ∈ entries →
       a ∈ catalog ∧ av_id a = id
       ∧ av_status a ∈ ["ACTIVE"; "UPCOMING"]
       ∧ av_connected a = true
       ∧ id ∉ cd_id <$> ongoing)
  ∧ (∀ a, a ∈ catalog →
       av_status a ∈ ["ACTIVE"; "UPCOMING"] →
       av_connected a = true →
       av_id a ∉ cd_id <$> ongoing →
       av_id a ∈ entries.*1)
  ∧ ((∀ id, cd_id (detail_of id) = id) →
     ∀ c, c ∈ added → campaign_id c ∉ campaign_id <$> constructed.1).
Proof.
  intros ongoing claimed catalog entries Hdetails constructed fetched added
    outcome.
  destruct (fetch_inventory_run self inventory_data available_list details
              detail_of Hdetails) as (self' & Hrun & Hinv & _).
  fold ongoing claimed catalog entries constructed in Hinv.
  fold fetched added in Hinv.
  destruct (available_campaigns_from (cd_id <$> ongoing) catalog [])
    as (Hnodup & Hentries & _ & Hall).
  fold (available_campaigns (cd_id <$> ongoing) catalog) in Hnodup, Hentries, Hall.
  fold entries in Hnodup, Hentries, Hall.
  assert (Hdata : campaign_data <$> constructed.1 = ongoing)
    by apply construct_data.
  assert (Hfetched : campaign_data <$> fetched = fetched_data detail_of <$> entries)
    by apply construct_data.
  assert (Hadded : ∀ c, c ∈ added ↔ c ∈ fetched ∧ campaign_can_earn c None = true).
  { intros c. unfold added. by rewrite !list_elem_of_In, filter_In. }
  assert (Hretained : ∀ id a, (id, a) ∈ entries →
            a ∈ catalog ∧ av_id a = id
            ∧ av_status a ∈ ["ACTIVE"; "UPCOMING"]
            ∧ av_connected a = true
            ∧ id ∉ cd_id <$> ongoing).
  { intros id a Hin. destruct (Hentries id a Hin) as [Hnil|(Ha & Hid & Happ)].
    - by apply elem_of_nil in Hnil.
    - apply applicable_true in Happ as (? & ? & ?). by subst. }
  unfold outcome. rewrite Hrun. simpl. rewrite Hinv.
  split; [done|]. split; [apply sorted_by_perm|].
  split; [apply sorted_by_sorted|]. split; [done|]. split; [done|].
  split; [done|]. split; [apply Hnodup, NoDup_nil_2|]. split; [done|].
  split.
  - intros a Ha Hstatus Hconnected Hid. apply Hall; [done|].
    by apply applicable_true.
  - intros Hbackend c Hc. apply Hadded in Hc as [Hc _].
    apply (list_elem_of_fmap_2 campaign_data) in Hc. rewrite Hfetched in Hc.
    apply list_elem_of_fmap in Hc as ([id a] & Heq & Hin).
    destruct (Hretained id a Hin) as (_ & _ & _ & _ & Hnew).
    assert (Hid : campaign_id c = id).
    { unfold campaign_id. rewrite Heq. unfold fetched_data. simpl.
      apply Hbackend. }
    rewrite Hid.
    assert (campaign_id <$> constructed.1 = cd_id <$> ongoing) as ->; [|done].
    transitivity (cd_id <$> (campaign_data <$> constructed.1));
      [by rewrite <- list_fmap_compose|by rewrite Hdata].
Qed.
End InventoryFacts.

Lemma fetch_inventory_union_witness :
  let outcome :=
    @fetch_inventory simple_inventory (inr sample_inventory_data)
      (inr (Some sample_catalog)) sample_details (Twitch_init default_settings) in
  (∀ e : string * AvailableData, sample_details e.1 = inr (sample_detail_of e.1))
  ∧ outcome.1 = inr tt
  ∧ inventory outcome.2
    ≡ₚ [ {| campaign_data := tetris_data; drops := [] |};
         {| campaign_data := set_box_art "chess.png" chess_data; drops := [] |} ]
  ∧ StronglySorted (λ a b, ends_at a ≤ ends_at b) (inventory outcome.2)
  ∧ campaign_id <$> inventory outcome.2 = ["campaign-chess"; "campaign-tetris"].
Proof.
  intros outcome.
  assert (Hdetails : ∀ e : string * AvailableData,
             sample_details e.1 = inr (sample_detail_of e.1)) by done.
  destruct (@fetch_inventory_union simple_inventory (Twitch_init default_settings)
              sample_inventory_data (Some sample_catalog) sample_details
              sample_detail_of (λ e _, Hdetails e))
    as (Hok & Hunion & Hsorted & _).
  split; [exact Hdetails|]. split; [exact Hok|]. split; [exact Hunion|].
  split; [exact Hsorted|reflexivity].
Defined.

(* ===================================================================== *)
(** * Part III: further properties of the code                           *)
(* ===================================================================== *)

(** ** [request] and [gql_request] *)

Lemma total_sleep_app (es1 es2 : list Effect) :
  total_sleep (es1 ++ es2) = total_sleep es1 + total_sleep es2.
Proof.
  induction es1 as [|e es1 IH]; simpl; [done|].
  unfold total_sleep in *. simpl. rewrite IH. lia.
Qed.

Lemma total_sleep_retried (n : nat) :
  2 * total_sleep (range (Z.of_nat n) ≫= retried)
  = Z.of_nat n * (Z.of_nat n - 1).
Proof.
  induction n as [|n IH]; [done|].
  rewrite range_succ, bind_app, total_sleep_app, Z.mul_add_distr_l, IH.
  unfold total_sleep at 1. simpl. lia.
Qed.

Lemma requests_retried (n : nat) :
  length (List.filter is_session_request (range (Z.of_nat n) ≫= retried)) = n.
Proof.
  induction n as [|n IH]; [done|].
  rewrite range_succ, bind_app, List.filter_app, length_app, IH. simpl. lia.
Qed.

Section RequestBounds.
Context {R : Type}.
Implicit Types (net : Z → Attempt R) (attempts : Z).

(** Whatever the network does, the loop only adds effects, one request per
    element of [todo] at most; so it does once a connection error of the
    caller's body was thrown in. *)
Lemma request_after_throw_bounded net attempts (todo : list Z)
    (cause : option Z) (self : Twitch) :
  Forall (λ i, 0 ≤ i < attempts) todo →
  ∃ es,
    (request_after_throw net attempts todo cause self).2 = emit_all es self
    ∧ (length (List.filter is_session_request es) ≤ length todo)%nat
    ∧ Forall (within_budget attempts) es.
Proof.
  revert cause self. induction todo as [|i todo IH]; intros cause self Hall.
  - exists []. simpl. by rewrite emit_all_nil.
  - apply Forall_cons in Hall as [Hi Hall]. simpl.
    unfold bind at 1, effect at 1, modify at 1.
    destruct (net i) as [response|tag|e|tag].
    + exists [SessionRequest i]. simpl. rewrite emit_emit_all.
      split; [done|]. split; [lia|]. constructor; [done|constructor].
    + case_bool_decide as Hlast.
      * unfold bind, effect, modify.
        destruct (IH (Some tag) (emit (Sleep i) (emit (SessionRequest i) self)) Hall)
          as (es & -> & Hcount & Hes).
        exists (SessionRequest i :: Sleep i :: es).
        rewrite !emit_emit_all, !emit_all_app. simpl.
        split; [done|]. split; [lia|].
        constructor; [done|]. constructor; [simpl; lia|done].
      * unfold bind, ret.
        destruct (IH (Some tag) (emit (SessionRequest i) self) Hall)
          as (es & -> & Hcount & Hes).
        exists (SessionRequest i :: es).
        rewrite !emit_emit_all, !emit_all_app. simpl.
        split; [done|]. split; [lia|]. by constructor.
    + exists [SessionRequest i]. simpl. rewrite emit_emit_all.
      split; [done|]. split; [lia|]. constructor; [done|constructor].
    + exists [SessionRequest i]. simpl. rewrite emit_emit_all.
      split; [done|]. split; [lia|]. constructor; [done|constructor].
Qed.

Lemma request_attempts_bounded net attempts (todo : list Z)
    (cause : option Z) (self : Twitch) :
  Forall (λ i, 0 ≤ i < attempts) todo →
  ∃ es,
    (request_attempts net attempts todo cause self).2 = emit_all es self
    ∧ (length (List.filter is_session_request es) ≤ length todo)%nat
    ∧ Forall (within_budget attempts) es.
Proof.
  revert cause self. induction todo as [|i todo IH]; intros cause self Hall.
  - exists []. simpl. by rewrite emit_all_nil.
  - apply Forall_cons in Hall as [Hi Hall]. simpl.
    unfold bind at 1, effect at 1, modify at 1.
    destruct (net i) as [response|tag|e|tag].
    + exists [SessionRequest i]. simpl. rewrite emit_emit_all.
      split; [done|]. split; [lia|]. constructor; [done|constructor].
    + case_bool_decide as Hlast.
      * unfold bind, effect, modify.
        destruct (IH (Some tag) (emit (Sleep i) (emit (SessionRequest i) self)) Hall)
          as (es & -> & Hcount & Hes).
        exists (SessionRequest i :: Sleep i :: es).
        rewrite !emit_emit_all, !emit_all_app. simpl.
        split; [done|]. split; [lia|].
        constructor; [done|]. constructor; [simpl; lia|done].
      * unfold bind, ret.
        destruct (IH (Some tag) (emit (SessionRequest i) self) Hall)
          as (es & -> & Hcount & Hes).
        exists (SessionRequest i :: es).
        rewrite !emit_emit_all, !emit_all_app. simpl.
        split; [done|]. split; [lia|]. by constructor.
    + exists [SessionRequest i]. simpl. rewrite emit_emit_all.
      split; [done|]. split; [lia|]. constructor; [done|constructor].
    + case_bool_decide as Hlast.
      * unfold bind, effect, modify.
        destruct (request_after_throw_bounded net attempts todo (Some tag)
                    (emit (Sleep i) (emit (SessionRequest i) self)) Hall)
          as (es & -> & Hcount & Hes).
        exists (SessionRequest i :: Sleep i :: es).
        rewrite !emit_emit_all, !emit_all_app. simpl.
        split; [done|]. split; [lia|].
        constructor; [done|]. constructor; [simpl; lia|done].
      * unfold bind, ret.
        destruct (request_after_throw_bounded net attempts todo (Some tag)
                    (emit (SessionRequest i) self) Hall)
          as (es & -> & Hcount & Hes).
        exists (SessionRequest i :: es).
        rewrite !emit_emit_all, !emit_all_app. simpl.
        split; [done|]. split; [lia|]. by constructor.
Qed.

(** X1.  With a session at hand, whatever the network does, [request] leaves
    the orchestrator as it was but for the effects it adds; these are at most
    [attempts] session requests, with indices below [attempts], and sleeps of
    less than [attempts - 1] tenths of a second: there is no attempt beyond
    the budget and no sleep behind the last attempt. *)
Theorem request_stays_within_budget net attempts (self : Twitch) :
  is_Some (_session self) →
  ∃ es,
    (request net attempts self).2 = emit_all es self
    ∧ (length (List.filter is_session_request es) ≤ Z.to_nat attempts)%nat
    ∧ Forall (within_budget attempts) es.
Proof.
  intros [jar Hjar].
  destruct (request_attempts_bounded net attempts (range attempts) None self)
    as (es & Hrun & Hcount & Hes).
  { apply Forall_forall. intros i. by rewrite elem_of_range. }
  exists es. split; [|split; [|done]].
  - unfold request, bind, gets. rewrite Hjar. simpl. exact Hrun.
  - unfold range in Hcount. by rewrite length_fmap, length_seq in Hcount.
Qed.

(** When every attempt of a positive budget fails on the connection. *)
Lemma request_exhausted net attempts (self : Twitch) :
  is_Some (_session self) → 0 < attempts →
  (∀ i, 0 ≤ i < attempts → is_Some (connection_error (net i))) →
  request net attempts self
  = (inl (RequestException (connection_error (net (attempts - 1)))),
     emit_all ((range (attempts - 1) ≫= retried)
               ++ [SessionRequest (attempts - 1)]) self).
Proof.
  intros [jar Hjar] Hpos Hfail.
  assert (Hsplit : range attempts = range (attempts - 1) ++ [attempts - 1]).
  { replace attempts with (Z.of_nat (S (Z.to_nat (attempts - 1)))) at 1 by lia.
    rewrite range_succ. by rewrite Z2Nat.id by lia. }
  unfold request, bind at 1 2, gets. rewrite Hjar. simpl.
  rewrite Hsplit, request_attempts_retried.
  - simpl. unfold bind, effect, modify.
    destruct (Hfail (attempts - 1)) as [tag Htag]; [lia|].
    destruct (net (attempts - 1)) as [|tag'| |] eqn:Hnet; simplify_eq/=.
    rewrite bool_decide_eq_false_2 by lia. unfold ret, raise. simpl.
    by rewrite emit_emit_all, emit_all_app.
  - apply Forall_forall. intros i Hi%elem_of_range. split; [lia|].
    apply Hfail. lia.
Qed.

(** X2.  When all the attempts of a budget [n > 0] fail on the connection,
    [request] has made exactly [n] session requests and slept
    [0 + 1 + ... + (n - 2)] tenths of a second, that is [(n - 1) (n - 2) / 2],
    before it raises. *)
Theorem request_total_backoff net attempts (self : Twitch) :
  is_Some (_session self) → 0 < attempts →
  (∀ i, 0 ≤ i < attempts → is_Some (connection_error (net i))) →
  ∃ es,
    request net attempts self
    = (inl (RequestException (connection_error (net (attempts - 1)))),
       emit_all es self)
    ∧ length (List.filter is_session_request es) = Z.to_nat attempts
    ∧ 2 * total_sleep es = (attempts - 1) * (attempts - 2).
Proof.
  intros Hsession Hpos Hfail. eexists. split.
  { by apply request_exhausted. }
  replace (attempts - 1) with (Z.of_nat (Z.to_nat (attempts - 1))) by lia.
  split.
  - rewrite List.filter_app, length_app, requests_retried. simpl. lia.
  - rewrite total_sleep_app, Z.mul_add_distr_l, total_sleep_retried.
    unfold total_sleep. simpl. lia.
Qed.

(** X3.  Without a session, [request] creates one from the cookie file but
    fails its assertion before any attempt is made; the call that follows
    finds the session and goes to the network. *)
Theorem request_first_call_without_session net attempts (self : Twitch)
    (response : R) :
  _session self = None → 0 < attempts → net 0 = Responded response →
  let first := request net attempts self in
  first.1 = inl AssertionError
  ∧ _session first.2 = Some (cookies_file self)
  ∧ effects first.2 = effects self
  ∧ request net attempts first.2 = (inr response, emit (SessionRequest 0) first.2).
Proof.
  intros Hnone Hpos Hnet first.
  unfold first. rewrite request_without_session by done. simpl.
  split; [done|]. split; [by destruct self|]. split; [by destruct self|].
  assert (Hjar : _session (initialize self) = Some (cookies_file self))
    by (by destruct self).
  unfold request, bind at 1 2, gets. rewrite Hjar. simpl.
  destruct (range_split attempts 0) as [later ->]; [done|]. simpl.
  change (Z.of_nat 0) with 0. unfold bind, effect, modify, ret.
  by rewrite Hnet.
Qed.
End RequestBounds.

Lemma request_stays_within_budget_witness :
  is_Some (_session chess_miner)
  ∧ ∃ es,
      (request flaky_network 5 chess_miner).2 = emit_all es chess_miner
      ∧ (length (List.filter is_session_request es) ≤ Z.to_nat 5)%nat
      ∧ Forall (within_budget 5) es.
Proof.
  assert (Hsession : is_Some (_session chess_miner)) by (by eexists).
  split; [exact Hsession|].
  exact (request_stays_within_budget flaky_network 5 chess_miner Hsession).
Defined.

Lemma request_total_backoff_witness :
  is_Some (_session chess_miner)
  ∧ 0 < 4
  ∧ (∀ i, 0 ≤ i < 4 → is_Some (connection_error (dead_network i)))
  ∧ ∃ es,
      request dead_network 4 chess_miner
      = (inl (RequestException (Some 103)), emit_all es chess_miner)
      ∧ length (List.filter is_session_request es) = 4%nat
      ∧ 2 * total_sleep es = 3 * 2.
Proof.
  assert (Hsession : is_Some (_session chess_miner)) by (by eexists).
  assert (Hdead : ∀ i, 0 ≤ i < 4 → is_Some (connection_error (dead_network i)))
    by (intros i _; by eexists).
  split; [exact Hsession|]. split; [lia|]. split; [exact Hdead|].
  exact (request_total_backoff dead_network 4 chess_miner Hsession eq_refl Hdead).
Defined.

Lemma request_first_call_without_session_witness :
  let st := Twitch_init default_settings in
  let always (_ : Z) : Attempt Z := Responded 200 in
  _session st = None
  ∧ (request always 5 st).1 = inl AssertionError
  ∧ request always 5 (request always 5 st).2
    = (inr 200, emit (SessionRequest 0) (request always 5 st).2).
Proof.
  intros st always.
  destruct (request_first_call_without_session always 5 st 200
              eq_refl eq_refl eq_refl) as (Hfirst & _ & _ & Hsecond).
  split; [reflexivity|]. split; [exact Hfirst|exact Hsecond].
Defined.

(** X4.  A GQL request never makes more than five attempts; when all five
    fail on the connection, it raises [RequestException] with the fifth
    error as the cause, having slept 0, 0.1, 0.2 and 0.3 seconds between the
    attempts. *)
Theorem gql_request_gives_up {J} (net : Z → Attempt J) (self : Twitch) :
  is_Some (_session self) →
  (∃ es,
     (gql_request net self).2 = emit_all es self
     ∧ (length (List.filter is_session_request es) ≤ 5)%nat)
  ∧ ((∀ i, 0 ≤ i < 5 → is_Some (connection_error (net i))) →
     gql_request net self
     = (inl (RequestException (connection_error (net 4))),
        emit_all [SessionRequest 0; Sleep 0; SessionRequest 1; Sleep 1;
                  SessionRequest 2; Sleep 2; SessionRequest 3; Sleep 3;
                  SessionRequest 4] self)).
Proof.
  intros Hsession. unfold gql_request. split.
  - destruct Hsession as [jar Hjar].
    destruct (request_attempts_bounded net 5 (range 5) None self)
      as (es & Hrun & Hcount & _).
    { apply Forall_forall. intros i. by rewrite elem_of_range. }
    exists es. split; [|exact Hcount].
    unfold request, bind, gets. rewrite Hjar. simpl. exact Hrun.
  - intros Hfail. by rewrite request_exhausted.
Qed.

Lemma gql_request_gives_up_witness :
  is_Some (_session chess_miner)
  ∧ (∀ i, 0 ≤ i < 5 → is_Some (connection_error (dead_network i)))
  ∧ (gql_request dead_network chess_miner).1 = inl (RequestException (Some 104))
  ∧ total_sleep (effects (gql_request dead_network chess_miner).2) = 6.
Proof.
  assert (Hsession : is_Some (_session chess_miner)) by (by eexists).
  assert (Hdead : ∀ i, 0 ≤ i < 5 → is_Some (connection_error (dead_network i)))
    by (intros i _; by eexists).
  destruct (gql_request_gives_up dead_network chess_miner Hsession) as [_ Hall].
  split; [exact Hsession|]. split; [exact Hdead|].
  rewrite (Hall Hdead). split; reflexivity.
Defined.

(** ** [on_online] *)

Section HookFacts.
Context `{!InventoryAPI}.

(** X5.  When a channel comes online, the watched channel stays what it was
    or becomes that channel, and it becomes that channel only if the channel
    can be watched; the state, the state-change flag, the games, the active
    channels and the inventory are left alone. *)
Theorem on_online_watches_only_watchable (channel : Channel) (self : Twitch) :
  let self' := on_online channel self in
  (watching_channel self' = watching_channel self
   ∨ (watching_channel self' = Some channel
      ∧ can_watch self' channel = true))
  ∧ _state self' = _state self
  ∧ _state_change self' = _state_change self
  ∧ games self' = games self
  ∧ channels self' = channels self
  ∧ inventory self' = inventory self.
Proof.
  unfold on_online.
  destruct (_ && can_watch self channel) eqn:Hcond; simpl.
  - apply andb_true_iff in Hcond as [_ Hwatch].
    split; [right|by destruct self].
    split; [by destruct self|].
    rewrite <- Hwatch. by destruct self.
  - by repeat split; try left.
Qed.

(** X6.  Outside [IDLE], while a channel [w] is watched, a channel that
    comes online replaces it only when its game key is lower, or the same
    with the newcomer having the priority flag and [w] not. *)
Theorem on_online_switches_only_to_better (channel w : Channel) (self : Twitch) :
  _state self ≠ IDLE →
  watching_channel self = Some w →
  on_online channel self ≠ self →
  _game_key self channel < _game_key self w
  ∨ (_game_key self channel = _game_key self w
     ∧ priority channel = true ∧ priority w = false).
Proof.
  intros Hstate Hw Hswitch. unfold on_online in Hswitch.
  unfold get_with_default in Hswitch. rewrite Hw in Hswitch.
  rewrite bool_decide_eq_false_2 in Hswitch by done. simpl in Hswitch.
  case_bool_decide as Hlt; [by left|]. simpl in Hswitch.
  case_bool_decide as Heq; simpl in Hswitch; [|done].
  destruct (priority channel); simpl in Hswitch; [|done].
  destruct (priority w); simpl in Hswitch; [done|].
  right. done.
Qed.

(** X7.  In [IDLE], or with nothing watched, a channel that comes online and
    can be watched is watched at once. *)
Theorem on_online_watches_when_idle (channel : Channel) (self : Twitch) :
  _state self = IDLE ∨ watching_channel self = None →
  can_watch self channel = true →
  watching_channel (on_online channel self) = Some channel.
Proof.
  intros Hidle Hwatch. unfold on_online, get_with_default. rewrite Hwatch.
  destruct Hidle as [Hidle|Hnone].
  - rewrite bool_decide_eq_true_2 by done. simpl. by destruct self.
  - rewrite Hnone, orb_true_r. simpl. by destruct self.
Qed.
End HookFacts.

Lemma on_online_switches_only_to_better_witness :
  _state chess_watcher ≠ IDLE
  ∧ watching_channel chess_watcher = Some chess_channel
  ∧ @on_online simple_inventory chess_acl_channel chess_watcher ≠ chess_watcher
  ∧ (_game_key chess_watcher chess_acl_channel < _game_key chess_watcher chess_channel
     ∨ (_game_key chess_watcher chess_acl_channel
        = _game_key chess_watcher chess_channel
        ∧ priority chess_acl_channel = true ∧ priority chess_channel = false)).
Proof.
  assert (Hstate : _state chess_watcher ≠ IDLE) by discriminate.
  assert (Hswitch : @on_online simple_inventory chess_acl_channel chess_watcher
                    ≠ chess_watcher).
  { intros Heq. apply (f_equal watching_channel) in Heq. discriminate Heq. }
  split; [exact Hstate|]. split; [reflexivity|]. split; [exact Hswitch|].
  exact (@on_online_switches_only_to_better simple_inventory chess_acl_channel
           chess_channel chess_watcher Hstate eq_refl Hswitch).
Defined.

Lemma on_online_watches_when_idle_witness :
  watching_channel chess_miner = None
  ∧ @can_watch simple_inventory chess_miner chess_channel = true
  ∧ watching_channel (@on_online simple_inventory chess_channel chess_miner)
    = Some chess_channel.
Proof.
  split; [reflexivity|]. split; [reflexivity|].
  exact (@on_online_watches_when_idle simple_inventory chess_channel chess_miner
           (or_intror eq_refl) eq_refl).
Defined.

(** ** [_maintenance_loop] *)

Section MaintenanceFacts.
Variable claim_bonus : Channel → M unit.

Lemma maintenance_turn_counter (i : Z) (self : Twitch) (next : Z) (self' : Twitch) :
  maintenance_turn claim_bonus i self = (inr next, self') →
  next = (i + 1) `mod` 3600.
Proof.
  unfold maintenance_turn, bind, gets, modify, effect, ret.
  intros Hturn.
  repeat (case_bool_decide || case_match || simplify_eq/=); done.
Qed.

Lemma maintenance_turns_counter (turns : nat) (i : Z) (self : Twitch)
    (last : Z) (self' : Twitch) :
  maintenance_turns claim_bonus turns i self = (inr last, self') →
  last = (i + Z.of_nat turns) `mod` 3600 ∨ (turns = 0%nat ∧ last = i).
Proof.
  revert i self. induction turns as [|turns IH]; intros i self Hrun.
  - right. unfold maintenance_turns, ret in Hrun. by simplify_eq.
  - left. simpl in Hrun. unfold bind in Hrun.
    destruct (maintenance_turn claim_bonus i self) as [[e|next] s1] eqn:Hturn;
      [done|].
    apply maintenance_turn_counter in Hturn as ->.
    apply IH in Hrun as [->|[-> ->]].
    + rewrite Zplus_mod_idemp_l. f_equal. lia.
    + done.
Qed.

Lemma maintenance_turns_last (turns : nat) (i : Z) (self : Twitch) :
  (∀ channel s, (claim_bonus channel s).1 = inr tt) →
  ∃ last, (maintenance_turns claim_bonus turns i self).1 = inr last.
Proof.
  intros Hclaim. revert i self.
  induction turns as [|turns IH]; intros i self; [by eexists|].
  simpl. unfold bind.
  destruct (maintenance_turn claim_bonus i self) as [[e|next] s1] eqn:Hturn.
  - exfalso. revert Hturn.
    unfold maintenance_turn, bind, gets, modify, effect, ret.
    intros Hturn.
    repeat (case_bool_decide || case_match || simplify_eq/=);
      match goal with
      | H : claim_bonus ?c ?s = (inl _, _) |- _ =>
          specialize (Hclaim c s); rewrite H in Hclaim; done
      end.
  - apply IH.
Qed.

(** X8.  The turn of the maintenance loop that starts at minute [k]: when
    [k + 1] is a multiple of sixty it asks for [INVENTORY_FETCH], claims no
    bonus and sleeps a minute; when [k] is a multiple of thirty it claims
    the bonus of the watched channel, changes no state of its own and sleeps
    a minute; in every other turn, and when nothing is watched, it only
    sleeps.  The counter that the loop holds at minute [k] is
    [(k + 1) mod 3600], so that the wrap-around moves neither period. *)
Theorem maintenance_schedule (k : nat) (self : Twitch) :
  (∀ channel s, (claim_bonus channel s).1 = inr tt) →
  let minute := Z.of_nat k in
  let i := (minute + 1) `mod` 3600 in
  let next := (minute + 2) `mod` 3600 in
  (_maintenance_loop claim_bonus k self).1 = inr i
  ∧ ((minute + 1) `mod` 60 = 0 →
     maintenance_turn claim_bonus i self
     = (inr next, emit (Sleep 600) (change_state INVENTORY_FETCH self)))
  ∧ (minute `mod` 30 = 0 → ∀ channel,
     watching_channel self = Some channel →
     maintenance_turn claim_bonus i self
     = (inr next, emit (Sleep 600) (claim_bonus channel self).2))
  ∧ ((minute + 1) `mod` 60 ≠ 0 →
     minute `mod` 30 ≠ 0 ∨ watching_channel self = None →
     maintenance_turn claim_bonus i self = (inr next, emit (Sleep 600) self)).
Proof.
  intros Hclaim minute i next.
  assert (Hnext : (i + 1) `mod` 3600 = next).
  { unfold i, next. rewrite Zplus_mod_idemp_l. f_equal. lia. }
  assert (H60 : i `mod` 60 = (minute + 1) `mod` 60).
  { unfold i. apply Z.mod_mod_divide. by exists 60. }
  assert (H30 : i `mod` 30 = (minute + 1) `mod` 30).
  { unfold i. apply Z.mod_mod_divide. by exists 120. }
  assert (Hbonus : i `mod` 30 = 1 ↔ minute `mod` 30 = 0).
  { rewrite H30. clear. split; intros H.
    - apply Z.mod_divide; [done|].
      replace minute with ((minute + 1) - 1) by lia.
      rewrite (Z.div_mod (minute + 1) 30), H by done.
      exists ((minute + 1) `div` 30). lia.
    - apply Z.mod_divide in H as [q Hq]; [|done].
      rewrite Hq. replace (q * 30 + 1) with (1 + q * 30) by lia.
      by rewrite Z.mod_add. }
  assert (Hapart : (minute + 1) `mod` 60 = 0 → minute `mod` 30 ≠ 0).
  { clear. intros H60 H30.
    apply Z.mod_divide in H60 as [q Hq]; [|done].
    apply Z.mod_divide in H30 as [r Hr]; [|done]. lia. }
  split; [|split; [|split]].
  - destruct (maintenance_turns_last k 1 self Hclaim) as [last Hlast].
    unfold _maintenance_loop. rewrite Hlast. f_equal.
    destruct (maintenance_turns claim_bonus k 1 self) as [r s'] eqn:Hrun.
    simpl in Hlast. subst r.
    apply maintenance_turns_counter in Hrun as [->|[Hk ->]].
    + unfold i, minute. f_equal. lia.
    + unfold i, minute. by rewrite Hk.
  - intros Hrefresh. unfold maintenance_turn.
    rewrite (bool_decide_eq_false_2 (i `mod` 30 = 1)).
    2: { rewrite Hbonus. by apply Hapart. }
    rewrite (bool_decide_eq_true_2 (i `mod` 60 = 0)) by congruence.
    by rewrite Hnext.
  - intros Hhalf channel Hwatching. unfold maintenance_turn.
    rewrite (bool_decide_eq_true_2 (i `mod` 30 = 1)) by by apply Hbonus.
    rewrite (bool_decide_eq_false_2 (i `mod` 60 = 0)).
    2: { rewrite H60. intros H. by apply Hapart in H. }
    rewrite Hnext. unfold bind, gets, get_with_default. rewrite Hwatching.
    specialize (Hclaim channel self).
    destruct (claim_bonus channel self) as [[e|[]] s1]; [done|]. done.
  - intros Hrefresh Hquiet. unfold maintenance_turn.
    rewrite (bool_decide_eq_false_2 (i `mod` 60 = 0)) by congruence.
    rewrite Hnext. destruct Hquiet as [Hhalf|Hnone].
    + rewrite (bool_decide_eq_false_2 (i `mod` 30 = 1)); [done|].
      by rewrite Hbonus.
    + case_bool_decide; [|done].
      unfold bind, gets, get_with_default. by rewrite Hnone.
Qed.
End MaintenanceFacts.

Lemma maintenance_schedule_witness :
  (∀ channel s, (printed_bonus channel s).1 = inr tt)
  ∧ (_maintenance_loop printed_bonus 3599 chess_watcher).1 = inr 0
  ∧ maintenance_turn printed_bonus 0 chess_watcher
    = (inr 1, emit (Sleep 600) (change_state INVENTORY_FETCH chess_watcher)).
Proof.
  assert (Hclaim : ∀ channel s, (printed_bonus channel s).1 = inr tt) by done.
  split; [exact Hclaim|].
  destruct (maintenance_schedule printed_bonus 3599 chess_watcher Hclaim)
    as (Hcounter & Hrefresh & _ & _).
  split; [exact Hcounter|]. by apply Hrefresh.
Defined.

(** ** [check_login] *)

(** What [obtain_token] leaves behind, whatever it comes to. *)
Lemma obtain_token_frame (login : Z → Exn + string) (attempt : Z)
    (self : Twitch) :
  let outcome := obtain_token login attempt self in
  _session outcome.2 = _session self
  ∧ _user_id outcome.2 = _user_id self
  ∧ _is_logged_in outcome.2 = _is_logged_in self
  ∧ cookies_file outcome.2 = cookies_file self
  ∧ ((∃ cookie, outcome.1 = inr cookie) → is_Some (_access_token outcome.2))
  ∧ (effects outcome.2 = effects self
     ∨ effects outcome.2 = effects self ++ [LoginFlow]).
Proof.
  unfold obtain_token, bind, gets, effect, modify, await, ret, raise.
  destruct self as [? ? ? ? ? ? ? ? ? ? ? ? ? jar ? token ? ? ?]. simpl.
  case_bool_decide.
  - destruct (login attempt); simpl; repeat split; eauto.
    by intros [? ?].
  - destruct token; simpl; [by repeat split; eauto|].
    destruct (default ∅ jar !! "auth-token"); simpl; repeat split; eauto.
    by intros [? ?].
Qed.

Lemma effects_emit (e : Effect) (self : Twitch) :
  effects (emit e self) = effects self ++ [e].
Proof. by destruct self. Qed.

(** One turn of the loop of [check_login]. *)
Lemma validate_attempts_cons (login : Z → Exn + string)
    (validate : Z → option string → Exn + (Z * Z)) (attempt : Z)
    (todo : list Z) (self : Twitch) :
  validate_attempts login validate (attempt :: todo) self
  = match obtain_token login attempt self with
    | (inl e, s1) => (inl e, s1)
    | (inr cookie, s1) =>
        let s2 := emit (Validate (_access_token s1)) s1 in
        match validate attempt (_access_token s1) with
        | inl e => (inl e, s2)
        | inr (status, user_id) =>
            if bool_decide (status = 401) then
              validate_attempts login validate todo
                (emit ClearDomain (set_session (Some ∅) s2))
            else if bool_decide (status = 200)
            then (inr (Some (cookie, user_id)), s2)
            else validate_attempts login validate todo s2
        end
    end.
Proof.
  cbn [validate_attempts]. unfold bind at 1.
  destruct (obtain_token login attempt self) as [[e|cookie] s1]; [done|].
  unfold bind, gets, effect, modify, await, ret. simpl.
  destruct (validate attempt (_access_token s1)) as [e|[status user_id]]; [done|].
  by repeat case_bool_decide.
Qed.

(** What the loop of [check_login] leaves behind, whatever it comes to: the
    user and the cookie file untouched, a token at hand when the loop is left
    through [break], and for each turn at most one run of the login flow, one
    validation request and one clearing of the cookies. *)
Lemma validate_attempts_outcome (login : Z → Exn + string)
    (validate : Z → option string → Exn + (Z * Z)) (todo : list Z)
    (self : Twitch) :
  let outcome := validate_attempts login validate todo self in
  _user_id outcome.2 = _user_id self
  ∧ _is_logged_in outcome.2 = _is_logged_in self
  ∧ cookies_file outcome.2 = cookies_file self
  ∧ (∀ validated, outcome.1 = inr (Some validated) →
     is_Some (_access_token outcome.2))
  ∧ ∃ new,
      effects outcome.2 = effects self ++ new
      ∧ Forall (λ e, is_login_effect e = true) new
      ∧ (length (filter (λ e, is_validate e = true) new) ≤ length todo)%nat
      ∧ (length (filter (λ e, is_login_flow e = true) new) ≤ length todo)%nat.
Proof.
  revert self. induction todo as [|attempt todo IH]; intros self.
  { simpl. repeat split; [done|]. exists []. by rewrite app_nil_r. }
  cbv zeta. rewrite validate_attempts_cons.
  pose proof (obtain_token_frame login attempt self) as Hframe.
  cbv zeta in Hframe.
  destruct (obtain_token login attempt self) as [[e|cookie] s1].
  { simpl in *. destruct Hframe as (_ & Huser & Hlogged & Hfile & _ & Heffects).
    repeat split; [done..|].
    destruct Heffects as [->| ->].
    - exists []. rewrite app_nil_r. repeat split; simpl; [done|lia..].
    - exists [LoginFlow]. repeat split; simpl; [by repeat constructor|lia..]. }
  simpl in Hframe.
  destruct Hframe as (_ & Huser & Hlogged & Hfile & Htoken & Heffects).
  assert (Hsome : is_Some (_access_token s1)) by eauto. clear Htoken.
  assert (Hhead : ∃ head,
             effects s1 = effects self ++ head
             ∧ Forall (λ e, is_login_effect e = true) head
             ∧ length (filter (λ e, is_validate e = true) head) = 0%nat
             ∧ (length (filter (λ e, is_login_flow e = true) head) ≤ 1)%nat).
  { destruct Heffects as [->| ->].
    - exists []. rewrite app_nil_r. repeat split; simpl; [done|lia].
    - exists [LoginFlow]. repeat split; simpl; [by repeat constructor|lia]. }
  clear Heffects. destruct Hhead as (head & Hhead & Hkinds & Hnone & Hone).
  cbv zeta. set (s2 := emit (Validate (_access_token s1)) s1).
  assert (Hs2 : _user_id s2 = _user_id self ∧ _is_logged_in s2 = _is_logged_in self
                ∧ cookies_file s2 = cookies_file self
                ∧ is_Some (_access_token s2)
                ∧ effects s2 = effects self ++ head ++ [Validate (_access_token s1)]).
  { unfold s2. rewrite effects_emit, Hhead, <- app_assoc.
    by destruct s1. }
  destruct Hs2 as (Huser2 & Hlogged2 & Hfile2 & Hsome2 & Heffects2).
  assert (Htail : ∀ s3 extra,
             _user_id s3 = _user_id self → _is_logged_in s3 = _is_logged_in self →
             cookies_file s3 = cookies_file self →
             effects s3 = effects s2 ++ extra →
             extra = [] ∨ extra = [ClearDomain] →
             let outcome := validate_attempts login validate todo s3 in
             _user_id outcome.2 = _user_id self
             ∧ _is_logged_in outcome.2 = _is_logged_in self
             ∧ cookies_file outcome.2 = cookies_file self
             ∧ (∀ validated, outcome.1 = inr (Some validated) →
                is_Some (_access_token outcome.2))
             ∧ ∃ new,
                 effects outcome.2 = effects self ++ new
                 ∧ Forall (λ e, is_login_effect e = true) new
                 ∧ (length (filter (λ e, is_validate e = true) new)
                    ≤ length (attempt :: todo))%nat
                 ∧ (length (filter (λ e, is_login_flow e = true) new)
                    ≤ length (attempt :: todo))%nat).
  { intros s3 extra Huser3 Hlogged3 Hfile3 Heffects3 Hextra.
    destruct (IH s3) as (Hu & Hl & Hf & Ht & new & He & Hk & Hv & Hflow).
    repeat split; [congruence..|done|].
    exists (head ++ [Validate (_access_token s1)] ++ extra ++ new).
    split.
    { rewrite He, Heffects3, Heffects2. by rewrite <- !app_assoc. }
    split.
    { rewrite !Forall_app. repeat split; [done|by repeat constructor| |done].
      by destruct Hextra as [->| ->]; repeat constructor. }
    rewrite !filter_app, !length_app.
    destruct Hextra as [->| ->]; simpl; lia. }
  destruct (validate attempt (_access_token s1)) as [e|[status user_id]].
  { simpl. repeat split; [done..|].
    exists (head ++ [Validate (_access_token s1)]).
    repeat split; [done| |rewrite filter_app, length_app; simpl; lia..].
    rewrite Forall_app. by repeat constructor. }
  repeat case_bool_decide.
  - apply (Htail _ [ClearDomain]); [unfold s2; by destruct s1..| |by right].
    rewrite effects_emit. f_equal. by destruct s2.
  - simpl. repeat split; [done..|].
    exists (head ++ [Validate (_access_token s1)]).
    repeat split; [done| |rewrite filter_app, length_app; simpl; lia..].
    rewrite Forall_app. by repeat constructor.
  - apply (Htail _ []); [done..|by rewrite app_nil_r|by left].
Qed.

(** The frame of [check_login] around the loop, with or without a session. *)
Lemma check_login_due (login : Z → Exn + string)
    (validate : Z → option string → Exn + (Z * Z)) (self : Twitch) :
  needs_validation self →
  check_login login validate self
  = match validate_attempts login validate [0; 1]
            (match _session self with
             | None => initialize self
             | Some _ => self
             end) with
    | (inr (Some (cookie, user_id)), s) => (inr tt, finish_login cookie user_id s)
    | (inr None, s) => (inl (RuntimeError "Login verification failure"), s)
    | (inl e, s) => (inl e, s)
    end.
Proof.
  intros Hneeds.
  unfold check_login. rewrite range_2.
  unfold bind at 1, gets at 1. unfold bind at 1, gets at 1.
  rewrite bool_decide_eq_false_2 by done.
  unfold bind at 1, gets at 1.
  unfold bind at 1.
  destruct (_session self) as [jar|].
  - unfold ret at 1. unfold bind at 1.
    destruct (validate_attempts login validate [0; 1] self)
      as [[e|[[cookie uid]|]] s]; [done| |done].
    unfold bind, modify, gets, ret, finish_login. simpl. by destruct s.
  - unfold modify at 1. unfold bind at 1.
    destruct (validate_attempts login validate [0; 1] (initialize self))
      as [[e|[[cookie uid]|]] s]; [done| |done].
    unfold bind, modify, gets, ret, finish_login. simpl. by destruct s.
Qed.


(** X10.  When [check_login] returns, the miner holds an access token and a
    user id, and a further call returns at once without any effect.  If the
    validation was due, the miner is marked as logged in, the cookie file on
    disk is the cookie jar of the session, and its ["persistent"] cookie is
    the user id. *)
Theorem check_login_establishes_login (login : Z → Exn + string)
    (validate : Z → option string → Exn + (Z * Z)) (self s' : Twitch) :
  check_login login validate self = (inr tt, s') →
  is_Some (_access_token s')
  ∧ is_Some (_user_id s')
  ∧ (∀ login' validate', check_login login' validate' s' = (inr tt, s'))
  ∧ (needs_validation self →
     _is_logged_in s' = true
     ∧ _session s' = Some (cookies_file s')
     ∧ ∃ user_id, _user_id s' = Some user_id
                  ∧ cookies_file s' !! "persistent" = Some (pretty user_id)).
Proof.
  intros Hrun.
  destruct (decide (is_Some (_access_token self) ∧ is_Some (_user_id self)))
    as [[Htoken Huser]|Hneeds].
  { rewrite check_login_already_validated in Hrun by done. simplify_eq.
    split; [done|]. split; [done|]. split.
    - intros. by apply check_login_already_validated.
    - intros Hneeds. by destruct Hneeds. }
  rewrite check_login_due in Hrun by done.
  set (start := match _session self with
                | None => initialize self
                | Some _ => self
                end) in Hrun.
  destruct (validate_attempts_outcome login validate [0; 1] start)
    as (_ & _ & _ & Htoken & _).
  destruct (validate_attempts login validate [0; 1] start)
    as [[e|[[cookie uid]|]] s]; simpl in *; [done| |done].
  specialize (Htoken _ eq_refl). simplify_eq.
  assert (Htoken' : is_Some (_access_token (finish_login cookie uid s)))
    by (unfold finish_login; by destruct s).
  assert (Huser' : _user_id (finish_login cookie uid s) = Some uid)
    by (unfold finish_login; by destruct s).
  split; [done|]. split; [by rewrite Huser'|].
  split.
  { intros. apply check_login_already_validated; [done|by rewrite Huser']. }
  intros _. split; [unfold finish_login; by destruct s|].
  split; [unfold finish_login; by destruct s|].
  exists uid. split; [done|].
  unfold finish_login. destruct s; simpl.
  apply lookup_union_Some_l. by rewrite lookup_insert_eq.
Qed.


Lemma check_login_establishes_login_witness :
  let outcome := check_login fresh_login strict_backend returning_user in
  outcome.1 = inr tt
  ∧ is_Some (_access_token outcome.2)
  ∧ check_login fresh_login rejecting_backend outcome.2 = (inr tt, outcome.2)
  ∧ needs_validation returning_user
  ∧ cookies_file outcome.2 !! "persistent" = Some "99".
Proof.
  set (outcome := check_login fresh_login strict_backend returning_user).
  assert (Hrun : check_login fresh_login strict_backend returning_user
                 = (inr tt, outcome.2)) by reflexivity.
  assert (Hneeds : needs_validation returning_user).
  { intros [[? Htoken] _]. discriminate Htoken. }
  destruct (check_login_establishes_login _ _ _ _ Hrun)
    as (Htoken & _ & Hagain & Hdue).
  destruct (Hdue Hneeds) as (_ & _ & user_id & Huser & Hcookie).
  split; [reflexivity|]. split; [exact Htoken|].
  split; [exact (Hagain fresh_login rejecting_backend)|].
  split; [exact Hneeds|].
  assert (user_id = 99) as -> by (by injection Huser).
  exact Hcookie.
Defined.


(** ** [fetch_inventory] *)

Section InventoryFacts.
Context `{!InventoryAPI}.

(** The loop over the catalog entries leaves the inventory and the index
    alone and only adds drop objects, whatever it comes to. *)
Lemma fetch_if_earnable_frame (details : string → Exn + CampaignData)
    (claimed : gmap string Z) (entries : list (string * AvailableData))
    (acc : list Campaign) (self : Twitch) :
  let outcome := fold_m (fetch_if_earnable details claimed) acc entries self in
  inventory outcome.2 = inventory self
  ∧ _drops outcome.2 = _drops self
  ∧ heap self `prefix_of` heap outcome.2.
Proof.
  revert acc self. induction entries as [|[id a] entries IH]; intros acc self.
  { by simpl. }
  cbn [fold_m]. unfold bind.
  destruct (fetch_if_earnable details claimed acc (id, a) self)
    as [[e|acc'] s1] eqn:Hstep.
  - revert Hstep.
    unfold fetch_if_earnable, fetch_campaign, DropsCampaign,
      bind, effect, await, modify, gets, ret. simpl.
    destruct (details id); [|by case_match].
    intros [= <- <-]. simpl. by destruct self.
  - assert (Hs1 : inventory s1 = inventory self ∧ _drops s1 = _drops self
                  ∧ heap self `prefix_of` heap s1).
    { revert Hstep.
      unfold fetch_if_earnable, fetch_campaign, DropsCampaign,
        bind, effect, await, modify, gets, ret. simpl.
      destruct (details id) as [e|data]; [done|].
      case_match; intros [= <- <-]; destruct self; simpl;
        (repeat split; [done..|by apply prefix_app_r]). }
    destruct Hs1 as (Hinv & Hdrops & Hheap).
    destruct (IH acc' s1) as (Hinv' & Hdrops' & Hheap').
    repeat split; [congruence..|by etrans].
Qed.

(** What [fetch_inventory] comes to: an exception raised while the old
    inventory and the old index are in place, or the storing loop run on an
    emptied inventory and an emptied index. *)
Lemma fetch_inventory_cases (inv : Exn + InventoryData)
    (catalog : Exn + option (list AvailableData))
    (details : string → Exn + CampaignData) (self : Twitch) :
  let outcome := fetch_inventory inv catalog details self in
  ((∃ e, outcome.1 = inl e)
   ∧ inventory outcome.2 = inventory self
   ∧ _drops outcome.2 = _drops self
   ∧ heap self `prefix_of` heap outcome.2)
  ∨ (∃ campaigns s0,
       outcome
       = for_each campaigns store_campaign (set_inventory [] (set_drops ∅ s0))).
Proof.
  unfold fetch_inventory, bind, effect, await, modify.
  destruct inv as [e|inventory_data].
  { left. simpl. split; [by eexists|]. by destruct self. }
  rewrite construct_in_progress. simpl.
  set (s1 := set_heap _ (emit GqlInventory self)).
  assert (Hs1 : inventory s1 = inventory self ∧ _drops s1 = _drops self
                ∧ heap self `prefix_of` heap s1).
  { unfold s1. destruct self; simpl. repeat split; [done..|].
    clear. revert heap0.
    induction (default [] (in_progress inventory_data)) as [|data datas IH];
      intros h; simpl; [done|].
    specialize (IH (h ++ parse_drops data
                           (dict_of (game_event_drops inventory_data)))).
    destruct (construct _ _ datas). simpl in *.
    etrans; [|exact IH]. by apply prefix_app_r. }
  destruct Hs1 as (Hinv & Hdrops & Hheap).
  destruct catalog as [e|available_list].
  { left. simpl. split; [by eexists|].
    repeat split; [by destruct s1..|]. by destruct s1. }
  match goal with
  | |- context [fold_m (fetch_if_earnable details ?claimed) ?acc ?entries ?s] =>
      pose proof (fetch_if_earnable_frame details claimed entries acc s)
        as Hframe;
      destruct (fold_m (fetch_if_earnable details claimed) acc entries s)
        as [[e|campaigns] s2]
  end; simpl in Hframe; destruct Hframe as (Hinv2 & Hdrops2 & Hheap2).
  - left. simpl. split; [by eexists|].
    assert (Hemit : inventory (emit GqlCampaigns s1) = inventory s1
                    ∧ _drops (emit GqlCampaigns s1) = _drops s1
                    ∧ heap (emit GqlCampaigns s1) = heap s1)
      by (by destruct s1).
    destruct Hemit as (Hi & Hd & Hh).
    repeat split; [congruence..|].
    etrans; [exact Hheap|]. by rewrite <- Hh.
  - right. by eexists _, _.
Qed.

Lemma index_drops_fold (h : list TimedDrop) (ls : list loc)
    (m : gmap string loc) :
  let m' := foldl (λ m l, match h !! l with
                          | Some drop => <[drop_id drop := l]> m
                          | None => m
                          end) m ls in
  (∀ id l, m' !! id = Some l →
     m !! id = Some l
     ∨ (l ∈ ls ∧ ∃ drop, h !! l = Some drop ∧ drop_id drop = id))
  ∧ (∀ id, is_Some (m !! id) → is_Some (m' !! id))
  ∧ (∀ l drop, l ∈ ls → h !! l = Some drop → is_Some (m' !! drop_id drop)).
Proof.
  revert m. induction ls as [|l0 ls IH]; intros m; simpl.
  { split; [by left|]. split; [done|]. by intros ?? ?%elem_of_nil. }
  destruct (h !! l0) as [d0|] eqn:Hl0.
  - destruct (IH (<[drop_id d0 := l0]> m)) as (Hfrom & Hkeeps & Hadds).
    split; [|split].
    + intros id l Hl. destruct (Hfrom id l Hl) as [Hm|[Hin Hd]].
      * apply lookup_insert_Some in Hm as [[<- <-]|[_ Hm]]; [|by left].
        right. split; [by left|]. by exists d0.
      * right. split; [by right|done].
    + intros id Hid. apply Hkeeps.
      destruct (decide (drop_id d0 = id)) as [<-|Hne].
      * by rewrite lookup_insert_eq.
      * by rewrite lookup_insert_ne.
    + intros l drop [->|Hin]%elem_of_cons Hdrop.
      * apply Hkeeps. rewrite Hl0 in Hdrop. injection Hdrop as <-.
        by rewrite lookup_insert_eq.
      * by eapply Hadds.
  - destruct (IH m) as (Hfrom & Hkeeps & Hadds).
    split; [|split]; [|done|].
    + intros id l Hl. destruct (Hfrom id l Hl) as [Hm|[Hin Hd]]; [by left|].
      right. split; [by right|done].
    + intros l drop [->|Hin]%elem_of_cons Hdrop; [congruence|by eapply Hadds].
Qed.

(** The storing loop keeps the index and the inventory in agreement. *)
Lemma store_campaigns_index (campaigns : list Campaign) (self : Twitch) :
  index_consistent self →
  index_consistent (for_each campaigns store_campaign self).2.
Proof.
  revert self. induction campaigns as [|c campaigns IH]; intros self Hok;
    [done|].
  cbn [for_each]. unfold bind at 1, store_campaign at 1.
  unfold bind at 1, modify. apply IH. clear IH.
  destruct Hok as [Hsound Hcomplete].
  pose proof (index_drops_fold (heap self) (drops c) (_drops self))
    as (Hfrom & Hkeeps & Hadds).
  unfold index_consistent, index_drops. destruct self; simpl in *.
  split.
  - intros id l Hl. destruct (Hfrom id l Hl) as [Hm|[Hin Hd]].
    + destruct (Hsound id l Hm) as [Hdrop (c' & Hc' & Hl')].
      split; [done|]. exists c'. split; [|done].
      apply elem_of_app. by left.
    + split; [done|]. exists c. split; [|done].
      apply elem_of_app. right. by left.
  - intros c' l drop [Hc'|Hc']%elem_of_app Hl Hdrop.
    + apply Hkeeps. by eapply Hcomplete.
    + apply list_elem_of_singleton in Hc' as ->. by eapply Hadds.
Qed.

(** X12.  When [fetch_inventory] raises, whichever request failed, the
    inventory and the index of the drops are what they were, and every drop
    object that existed is still in place. *)
Theorem fetch_inventory_failure_keeps_inventory (inv : Exn + InventoryData)
    (catalog : Exn + option (list AvailableData))
    (details : string → Exn + CampaignData) (self : Twitch) (e : Exn) :
  (fetch_inventory inv catalog details self).1 = inl e →
  let s' := (fetch_inventory inv catalog details self).2 in
  inventory s' = inventory self
  ∧ _drops s' = _drops self
  ∧ heap self `prefix_of` heap s'.
Proof.
  intros Hfails.
  destruct (fetch_inventory_cases inv catalog details self)
    as [(_ & Hframe)|(campaigns & s0 & Hrun)]; [done|].
  rewrite Hrun in Hfails.
  destruct (store_inventory campaigns (set_inventory [] (set_drops ∅ s0)))
    as (s1 & Hstore & _).
  by rewrite Hstore in Hfails.
Qed.

(** X13.  When [fetch_inventory] returns, the index of the drops agrees with
    the new inventory: every indexed identifier leads to a drop object with
    that identifier which a campaign of the inventory owns, and every drop of
    a campaign of the inventory is indexed. *)
Theorem fetch_inventory_indexes_drops (inv : Exn + InventoryData)
    (catalog : Exn + option (list AvailableData))
    (details : string → Exn + CampaignData) (self s' : Twitch) :
  fetch_inventory inv catalog details self = (inr tt, s') →
  index_consistent s'.
Proof.
  intros Hrun.
  destruct (fetch_inventory_cases inv catalog details self)
    as [([e He] & _)|(campaigns & s0 & Hstore)].
  { by rewrite Hrun in He. }
  rewrite Hrun in Hstore.
  replace s' with (inr (A:=Exn) tt, s').2 by done. rewrite Hstore.
  apply store_campaigns_index. split.
  - intros id l Hl. by destruct s0.
  - intros c l drop Hc. destruct s0; simpl in Hc. by apply elem_of_nil in Hc.
Qed.
End InventoryFacts.

Lemma fetch_inventory_failure_keeps_inventory_witness :
  let outcome :=
    @fetch_inventory stocked_inventory (inr sample_inventory_data)
      (inr (Some sample_catalog)) failing_details chess_miner in
  outcome.1 = inl (RequestException (Some 104))
  ∧ inventory outcome.2 = [chess_campaign]
  ∧ _drops outcome.2 = _drops chess_miner
  ∧ heap chess_miner `prefix_of` heap outcome.2.
Proof.
  split; [reflexivity|].
  exact (@fetch_inventory_failure_keeps_inventory stocked_inventory
           (inr sample_inventory_data) (inr (Some sample_catalog))
           failing_details chess_miner (RequestException (Some 104)) eq_refl).
Defined.

Lemma fetch_inventory_indexes_drops_witness :
  let outcome :=
    @fetch_inventory stocked_inventory (inr sample_inventory_data)
      (inr (Some sample_catalog)) sample_details chess_miner in
  outcome.1 = inr tt
  ∧ _drops outcome.2 !! "campaign-chess" = Some 3%nat
  ∧ _drops outcome.2 !! "drop-a" = None
  ∧ index_consistent outcome.2.
Proof.
  split; [reflexivity|]. split; [reflexivity|]. split; [reflexivity|].
  exact (@fetch_inventory_indexes_drops stocked_inventory
           (inr sample_inventory_data) (inr (Some sample_catalog))
           sample_details chess_miner _ eq_refl).
Defined.

(** ** [run], state [CHANNELS_CLEANUP] *)

Lemma odict_del_missing {V} (k : Z) (d : list (Z * V)) :
  k ∉ d.*1 → odict_del k d = None.
Proof.
  induction d as [|[k' v'] d IH]; csimpl; [done|].
  intros Hk. apply not_elem_of_cons in Hk as [Hne Hk].
  rewrite bool_decide_eq_false_2 by done. by rewrite IH.
Qed.

Lemma filter_keys_fresh {V} (k : Z) (d : list (Z * V)) :
  k ∉ d.*1 → filter (λ kv, kv.1 ≠ k) d = d.
Proof.
  induction d as [|[k' v'] d IH]; csimpl; [done|].
  intros Hk. apply not_elem_of_cons in Hk as [Hne Hk].
  rewrite filter_cons_True by (simpl; congruence). by rewrite IH.
Qed.

Lemma filter_all {A} (P : A → Prop) `{!∀ x, Decision (P x)} (l : list A) :
  (∀ x, x ∈ l → P x) → filter P l = l.
Proof.
  induction l as [|x l IH]; intros Hall; [done|].
  rewrite filter_cons_True by (apply Hall; left).
  rewrite IH; [done|]. intros y Hy. apply Hall. by right.
Qed.

Lemma filter_none {A} (P : A → Prop) `{!∀ x, Decision (P x)} (l : list A) :
  (∀ x, x ∈ l → ¬ P x) → filter P l = [].
Proof.
  induction l as [|x l IH]; intros Hnone; [done|].
  rewrite filter_cons_False by (apply Hnone; left).
  apply IH. intros y Hy. apply Hnone. by right.
Qed.


(** Deleting a key that is there takes out its entry and keeps the order of
    the others. *)
Lemma odict_del_filter {V} (k : Z) (d : list (Z * V)) :
  NoDup d.*1 → k ∈ d.*1 →
  odict_del k d = Some (filter (λ kv, kv.1 ≠ k) d).
Proof.
  induction d as [|[k' v'] d IH]; csimpl; [by intros _ ?%elem_of_nil|].
  intros [Hfresh Hnd]%NoDup_cons Hk.
  case_bool_decide as Heq.
  - subst k'. rewrite filter_cons_False by (simpl; tauto).
    by rewrite filter_keys_fresh.
  - apply elem_of_cons in Hk as [?|Hk]; [done|].
    rewrite IH by done. csimpl.
    by rewrite filter_cons_True by (simpl; congruence).
Qed.

Lemma filter_keys_sublist {V} (P : Z * V → Prop) `{!∀ kv, Decision (P kv)}
    (d : list (Z * V)) :
  NoDup d.*1 → NoDup (filter P d).*1.
Proof.
  intros Hnd. eapply sublist_NoDup; [exact Hnd|].
  apply fmap_sublist, sublist_filter.
Qed.

(** The removal loop, on channels that are all there. *)
Lemma remove_channels (to_remove : list Channel) (self : Twitch) :
  NoDup (channels self).*1 →
  NoDup (channel_id <$> to_remove) →
  (∀ channel, channel ∈ to_remove → channel_id channel ∈ (channels self).*1) →
  for_each to_remove remove_channel self
  = (inr tt,
     set_channels
       (filter (λ kv, kv.1 ∉ channel_id <$> to_remove) (channels self)) self).
Proof.
  revert self. induction to_remove as [|ch rest IH]; intros self Hnd Hids Hin.
  { simpl. unfold ret. f_equal. csimpl.
    rewrite filter_all; [by destruct self|].
    intros kv _. apply not_elem_of_nil. }
  csimpl in Hids. apply NoDup_cons in Hids as [Hfresh Hids].
  cbn [for_each]. unfold bind, remove_channel at 1, bind, gets.
  rewrite odict_del_filter by (done || apply Hin; left).
  unfold modify at 1.
  set (d1 := filter (λ kv, kv.1 ≠ channel_id ch) (channels self)).
  assert (Hd1 : channels (set_channels d1 self) = d1) by (by destruct self).
  rewrite IH.
  - rewrite Hd1. unfold d1. rewrite list_filter_filter.
    assert (Hset : ∀ d d', set_channels d (set_channels d' self)
                           = set_channels d self) by (by destruct self).
    rewrite Hset. do 2 f_equal. apply list_filter_iff.
    intros [k v]. csimpl. rewrite not_elem_of_cons. tauto.
  - rewrite Hd1. by apply filter_keys_sublist.
  - done.
  - intros c Hc. rewrite Hd1. unfold d1.
    assert (Hc' : channel_id c ∈ (channels self).*1) by (apply Hin; by right).
    apply list_elem_of_fmap in Hc' as ([k v] & Hk & Hkv). simpl in Hk.
    apply list_elem_of_fmap. exists (k, v). split; [done|].
    apply list_elem_of_filter. split; [|done]. simpl. subst k.
    intros Heq. apply Hfresh. rewrite <- Heq.
    apply list_elem_of_fmap. by exists c.
Qed.

Lemma keyed_ids (d : list (Z * Channel)) :
  channels_keyed d → channel_id <$> d.*2 = d.*1.
Proof.
  intros [_ Hkeys]. induction d as [|[k ch] d IH]; csimpl; [done|].
  rewrite IH.
  - f_equal. symmetry. apply Hkeys. by left.
  - intros k' ch' Hin. apply Hkeys. by right.
Qed.


Lemma list_filter_bool {A} (f : A → bool) (l : list A) :
  List.filter f l = filter (λ x, f x = true) l.
Proof.
  induction l as [|x l IH]; [done|]. simpl. rewrite filter_cons, IH.
  destruct (f x); by case_decide.
Qed.

Section CleanupFacts.
Variable offline : Channel → bool.

(** The handler of [CHANNELS_CLEANUP] on an active set that is keyed by
    channel identifier: it does not raise, and takes out the entries of the
    channels to remove. *)
Lemma channels_cleanup_run (self : Twitch) :
  channels_keyed (channels self) →
  let to_remove :=
    if bool_decide (games self = ∅) || full_cleanup self
    then (channels self).*2
    else List.filter (is_stale offline self) (channels self).*2 in
  channels_cleanup offline self
  = (inr tt,
     after_cleanup
       (set_channels
          (filter (λ kv, kv.1 ∉ channel_id <$> to_remove) (channels self))
          (remove_topics (stream_state_topics (channel_id <$> to_remove))
             (set_full_cleanup false self)))).
Proof.
  intros Hkeyed to_remove.
  assert (Hsub : to_remove `sublist_of` (channels self).*2).
  { unfold to_remove. case_match; [done|].
    rewrite list_filter_bool. apply sublist_filter. }
  assert (Hids : NoDup (channel_id <$> to_remove)).
  { eapply sublist_NoDup; [|by apply fmap_sublist].
    rewrite keyed_ids by done. apply Hkeyed. }
  assert (Hin : ∀ ch, ch ∈ to_remove → channel_id ch ∈ (channels self).*1).
  { intros ch Hch. rewrite <- keyed_ids by done.
    apply list_elem_of_fmap. exists ch. split; [done|].
    by eapply elem_of_sublist. }
  unfold channels_cleanup. unfold bind at 1, gets at 1. unfold id.
  fold to_remove. unfold bind at 1, modify at 1.
  set (s1 := set_full_cleanup false self).
  assert (Hs1 : channels s1 = channels self ∧ games s1 = games self)
    by (by destruct self).
  destruct Hs1 as [Hch1 Hg1].
  unfold bind at 1.
  assert (Hloop :
    match to_remove with
    | [] => ret tt
    | _ :: _ =>
        (modify (remove_topics (stream_state_topics (channel_id <$> to_remove)))
         >> for_each to_remove remove_channel)%M
    end s1
    = (inr tt,
       set_channels
         (filter (λ kv, kv.1 ∉ channel_id <$> to_remove) (channels self))
         (remove_topics (stream_state_topics (channel_id <$> to_remove)) s1))).
  { destruct to_remove as [|ch rest] eqn:Hto.
    - unfold ret. f_equal. csimpl.
      rewrite filter_all by (intros kv _; apply not_elem_of_nil).
      unfold remove_topics, stream_state_topics. simpl.
      rewrite difference_empty_L. by destruct self.
    - rewrite <- Hto in *. unfold bind, modify.
      set (s2 := remove_topics _ s1).
      assert (Hch2 : channels s2 = channels self) by (by destruct self).
      rewrite remove_channels; rewrite ?Hch2; try done.
      apply Hkeyed. }
  rewrite Hloop. clear Hloop.
  unfold bind at 1, gets at 1. unfold after_cleanup.
  set (s3 := set_channels _ _).
  case_bool_decide; [done|].
  by unfold bind, effect, modify.
Qed.
End CleanupFacts.

(** [change_state] touches the state and its flag only. *)
Lemma change_state_frame (state : State) (self : Twitch) :
  let self' := change_state state self in
  channels self' = channels self
  ∧ ws_topics self' = ws_topics self
  ∧ watching_channel self' = watching_channel self
  ∧ full_cleanup self' = full_cleanup self
  ∧ games self' = games self
  ∧ inventory self' = inventory self
  ∧ heap self' = heap self
  ∧ effects self' = effects self.
Proof.
  unfold change_state. destruct self; simpl. by case_bool_decide.
Qed.

Lemma after_cleanup_frame (self : Twitch) :
  let self' := after_cleanup self in
  channels self' = channels self
  ∧ ws_topics self' = ws_topics self
  ∧ watching_channel self' = watching_channel self
  ∧ full_cleanup self' = full_cleanup self
  ∧ games self' = games self
  ∧ _state_change self' = true
  ∧ _state self'
    = if bool_decide (_state self = EXIT) then EXIT
      else if bool_decide (games self ≠ ∅) then CHANNELS_FETCH else IDLE.
Proof.
  unfold after_cleanup. cbv zeta. case_bool_decide.
  - rewrite change_state_state, change_state_signals.
    destruct (change_state_frame CHANNELS_FETCH self)
      as (-> & -> & -> & -> & -> & _).
    done.
  - rewrite change_state_state, change_state_signals.
    match goal with
    | |- context [change_state IDLE ?s] =>
        destruct (change_state_frame IDLE s) as (-> & -> & -> & -> & -> & _)
    end.
    by destruct self.
Qed.

Section CleanupProperties.
Variable offline : Channel → bool.

(** X14.  The full cleanup, on an active set keyed by channel identifier:
    with no game selected, or after a games update, [CHANNELS_CLEANUP]
    empties the active set without raising and unsubscribes the stream-state
    topic of every channel that was in it; the watched channel is not
    touched; the next state is [IDLE] with no game selected and
    [CHANNELS_FETCH] otherwise. *)
Theorem channels_cleanup_full (self : Twitch) :
  channels_keyed (channels self) →
  games self = ∅ ∨ full_cleanup self = true →
  ∃ s',
    channels_cleanup offline self = (inr tt, s')
    ∧ channels s' = []
    ∧ ws_topics s' = ws_topics self ∖ stream_state_topics (channels self).*1
    ∧ full_cleanup s' = false
    ∧ watching_channel s' = watching_channel self
    ∧ _state_change s' = true
    ∧ (_state self ≠ EXIT →
       _state s' = if bool_decide (games self = ∅) then IDLE else CHANNELS_FETCH).
Proof.
  intros Hkeyed Hfull.
  pose proof (channels_cleanup_run offline self Hkeyed) as Hrun.
  cbv zeta in Hrun.
  assert (Hall : bool_decide (games self = ∅) || full_cleanup self = true).
  { destruct Hfull as [Hg| ->]; [|by rewrite orb_true_r].
    by rewrite bool_decide_eq_true_2. }
  rewrite Hall, keyed_ids in Hrun by done.
  eexists. split; [exact Hrun|].
  match goal with
  | |- context [after_cleanup ?s] =>
      destruct (after_cleanup_frame s) as (-> & -> & -> & -> & _ & -> & ->);
      assert (Hs : games s = games self ∧ _state s = _state self)
        by (by destruct self);
      destruct Hs as [Hg Hst]; rewrite Hg, Hst
  end.
  split.
  { rewrite channels_set_channels.
    apply filter_none. intros [k ch] Hin Hk.
    apply Hk. simpl. apply list_elem_of_fmap. by exists (k, ch). }
  repeat split; try by destruct self.
  intros Hexit. rewrite bool_decide_eq_false_2 by done.
  by repeat case_bool_decide.
Qed.

End CleanupProperties.

Lemma tracking_miner_keyed : channels_keyed (channels tracking_miner).
Proof.
  split.
  - simpl. apply NoDup_cons. split; [|apply NoDup_singleton].
    by intros ?%list_elem_of_singleton.
  - intros k ch Hin. simpl in Hin.
    apply elem_of_cons in Hin as [[= -> ->]|Hin]; [done|].
    by apply list_elem_of_singleton in Hin as [= -> ->].
Defined.

Lemma channels_cleanup_full_witness :
  channels_keyed (channels tracking_miner)
  ∧ full_cleanup (set_full_cleanup true tracking_miner) = true
  ∧ ∃ s',
      channels_cleanup settled_offline (set_full_cleanup true tracking_miner)
      = (inr tt, s')
      ∧ channels s' = []
      ∧ ws_topics s' = {[ UserDrops 99 ]}
      ∧ _state s' = CHANNELS_FETCH.
Proof.
  split; [exact tracking_miner_keyed|]. split; [reflexivity|].
  destruct (channels_cleanup_full settled_offline
              (set_full_cleanup true tracking_miner) tracking_miner_keyed
              (or_intror eq_refl))
    as (s' & Hrun & Hchannels & Htopics & _ & _ & _ & Hstate).
  exists s'. split; [exact Hrun|]. split; [exact Hchannels|].
  split; [rewrite Htopics; by vm_compute|].
  by apply Hstate.
Defined.


(** ** Frames of the monad *)

Global Instance keeps_control_preorder : PreOrder keeps_control.
Proof.
  split.
  - by intros s.
  - intros s1 s2 s3 (? & ? & ? & ? & ? & ?) (? & ? & ? & ? & ? & ?).
    repeat split; congruence.
Qed.

Global Instance keeps_channels_preorder : PreOrder keeps_channels.
Proof.
  split.
  - by intros s.
  - intros s1 s2 s3 [? ?] [? ?]. split; congruence.
Qed.

Section Frames.
Context (R : relation Twitch) `{!PreOrder R}.

Lemma frames_ret {A} (a : A) : frames R (ret a).
Proof. by intros s. Qed.

Lemma frames_raise {A} (e : Exn) : frames R (raise (A:=A) e).
Proof. by intros s. Qed.

Lemma frames_gets {A} (f : Twitch → A) : frames R (gets f).
Proof. by intros s. Qed.

Lemma frames_await {A} (r : Exn + A) : frames R (await r).
Proof. by intros s. Qed.

Lemma frames_modify (f : Twitch → Twitch) :
  (∀ s, R s (f s)) → frames R (modify f).
Proof. intros Hf s. apply Hf. Qed.

Lemma frames_bind {A B} (m : M A) (k : A → M B) :
  frames R m → (∀ a, frames R (k a)) → frames R (bind m k).
Proof.
  intros Hm Hk s. unfold bind. specialize (Hm s).
  destruct (m s) as [[e|a] s1]; [done|].
  etrans; [exact Hm|]. apply Hk.
Qed.

Lemma frames_for_each {A} (l : list A) (body : A → M unit) :
  (∀ x, frames R (body x)) → frames R (for_each l body).
Proof.
  intros Hbody. induction l as [|x l IH]; simpl.
  - apply frames_ret.
  - apply frames_bind; [apply Hbody|done].
Qed.

Lemma frames_fold_m {A B} (body : B → A → M B) (acc : B) (l : list A) :
  (∀ acc x, frames R (body acc x)) → frames R (fold_m body acc l).
Proof.
  intros Hbody. revert acc. induction l as [|x l IH]; intros acc; simpl.
  - apply frames_ret.
  - apply frames_bind; [apply Hbody|]. intros acc'. apply IH.
Qed.

(** [fetch_inventory] leaves in place whatever the effects and the
    assignments to the heap, to the index and to the inventory leave in
    place. *)
Lemma frames_fetch_inventory `{!InventoryAPI} (inv : Exn + InventoryData)
    (catalog : Exn + option (list AvailableData))
    (details : string → Exn + CampaignData) :
  (∀ e s, R s (emit e s)) →
  (∀ h s, R s (set_heap h s)) →
  (∀ d s, R s (set_drops d s)) →
  (∀ i s, R s (set_inventory i s)) →
  frames R (fetch_inventory inv catalog details).
Proof.
  intros Hemit Hheap Hdrops Hinv.
  assert (Hcampaign : ∀ data claimed, frames R (DropsCampaign data claimed)).
  { intros. unfold DropsCampaign.
    apply frames_bind; [apply frames_gets|]. intros h.
    apply frames_bind; [by apply frames_modify|]. intros _. apply frames_ret. }
  unfold fetch_inventory.
  apply frames_bind; [by apply frames_modify|]. intros _.
  apply frames_bind; [apply frames_await|]. intros inventory_data.
  apply frames_bind.
  { apply frames_fold_m. intros acc data. unfold construct_campaign.
    apply frames_bind; [apply Hcampaign|]. intros c. apply frames_ret. }
  intros campaigns.
  apply frames_bind; [by apply frames_modify|]. intros _.
  apply frames_bind; [apply frames_await|]. intros available_list.
  apply frames_bind.
  { apply frames_fold_m. intros acc entry.
    unfold fetch_if_earnable, fetch_campaign.
    apply frames_bind.
    - apply frames_bind; [by apply frames_modify|]. intros _.
      apply frames_bind; [apply frames_await|]. intros data. apply Hcampaign.
    - intros c. case_match; apply frames_ret. }
  intros campaigns'.
  apply frames_bind; [by apply frames_modify|]. intros _.
  apply frames_bind; [by apply frames_modify|]. intros _.
  apply frames_for_each. intros c. unfold store_campaign.
  apply frames_bind.
  - apply frames_modify. intros s. unfold index_drops. apply Hdrops.
  - intros _. apply frames_modify. intros s. apply Hinv.
Qed.
End Frames.

(** [fetch_inventory] leaves the state machine and the active set alone,
    whatever it comes to. *)
Lemma fetch_inventory_control `{!InventoryAPI} (inv : Exn + InventoryData)
    (catalog : Exn + option (list AvailableData))
    (details : string → Exn + CampaignData) (self : Twitch) :
  let s' := (fetch_inventory inv catalog details self).2 in
  keeps_control self s' ∧ keeps_channels self s'.
Proof.
  split.
  - apply (frames_fetch_inventory keeps_control); by intros ? [].
  - apply (frames_fetch_inventory keeps_channels); by intros ? [].
Qed.

Global Instance keeps_games_preorder : PreOrder keeps_games.
Proof.
  split.
  - by intros s.
  - intros s1 s2 s3 (? & ? & ? & ? & ?) (? & ? & ? & ? & ?).
    repeat split; congruence.
Qed.

(** ** The handlers of [run], one by one *)

Section HandlerFacts.
Context `{!InventoryAPI} `{!Constants}.

Lemma games_update_control (self : Twitch) :
  let self' := games_update self in
  _state self' = (if bool_decide (_state self = EXIT) then EXIT
                  else CHANNELS_CLEANUP)
  ∧ _state_change self' = true
  ∧ full_cleanup self' = true
  ∧ channels self' = channels self
  ∧ watching_channel self' = watching_channel self.
Proof.
  unfold games_update. cbv zeta.
  rewrite change_state_state, change_state_signals.
  match goal with
  | |- context [change_state _ ?s] =>
      destruct (change_state_frame CHANNELS_CLEANUP s)
        as (-> & _ & -> & -> & _)
  end.
  by destruct self.
Qed.

(** The handler of [CHANNELS_CLEANUP], whatever the active set is keyed by:
    when it does not raise, the next state is [CHANNELS_FETCH] with games
    selected and [IDLE] without. *)
Lemma channels_cleanup_control (offline : Channel → bool) (self : Twitch) :
  let outcome := channels_cleanup offline self in
  (∃ e, outcome.1 = inl e)
  ∨ (outcome.1 = inr tt
     ∧ _state_change outcome.2 = true
     ∧ _state outcome.2
       = (if bool_decide (_state self = EXIT) then EXIT
          else if bool_decide (games self ≠ ∅) then CHANNELS_FETCH else IDLE)
     ∧ games outcome.2 = games self
     ∧ inventory outcome.2 = inventory self
     ∧ watching_channel outcome.2 = watching_channel self).
Proof.
  assert (Hrun : ∃ s2,
             keeps_games self s2
             ∧ match channels_cleanup offline self with
               | (inl _, s) => s = s2
               | (inr _, s) => s = after_cleanup s2
               end).
  { unfold channels_cleanup. unfold bind at 1, gets at 1. unfold id.
    set (to_remove := if bool_decide (games self = ∅) || full_cleanup self
                      then (channels self).*2
                      else List.filter (is_stale offline self) (channels self).*2).
    unfold bind at 1, modify at 1.
    set (s1 := set_full_cleanup false self).
    assert (Hs1 : keeps_games self s1) by (by destruct self).
    unfold bind at 1.
    match goal with
    | |- context [match ?m s1 with _ => _ end] =>
        assert (Hloop : frames keeps_games m)
    end.
    { destruct to_remove; [apply (frames_ret keeps_games)|].
      apply (frames_bind keeps_games).
      - apply frames_modify. by intros [].
      - intros _. apply (frames_for_each keeps_games). intros ch.
        unfold remove_channel.
        apply (frames_bind keeps_games); [apply (frames_gets keeps_games)|].
        intros d. case_match; [|apply (frames_raise keeps_games)].
        apply frames_modify. by intros []. }
    specialize (Hloop s1).
    match goal with
    | |- context [match ?m s1 with _ => _ end] =>
        destruct (m s1) as [[e|[]] s2]
    end; exists s2; (split; [by etrans|]); [done|].
    unfold bind at 1, gets at 1. unfold after_cleanup.
    case_bool_decide; [done|]. by unfold bind, effect, modify. }
  destruct Hrun as (s2 & (Hst & Hflag & Hgames & Hinv & Hwatch) & Hrun).
  destruct (channels_cleanup offline self) as [[e|[]] s3];
    [left; by eexists|right]. subst s3.
  destruct (after_cleanup_frame s2) as (_ & _ & Hw & _ & Hg & Hsignal & Hstate').
  simpl. rewrite Hsignal, Hstate', Hst, Hgames, Hw, Hg.
  repeat split; try done.
  clear Hstate'. unfold after_cleanup. case_bool_decide.
  - destruct (change_state_frame CHANNELS_FETCH s2)
      as (_ & _ & _ & _ & _ & -> & _). done.
  - match goal with
    | |- context [change_state IDLE ?s] =>
        destruct (change_state_frame IDLE s) as (_ & _ & _ & _ & _ & -> & _)
    end.
    by destruct s2.
Qed.
End HandlerFacts.

Lemma odict_get_elem_of {V} (k : Z) (v : V) (d : list (Z * V)) :
  odict_get k d = Some v → (k, v) ∈ d.
Proof.
  induction d as [|[k' v'] d IH]; simpl; [done|].
  case_bool_decide as Hk.
  - intros [= ->]. subst. left.
  - intros Hget. right. by apply IH.
Qed.

(** Assignments by channel identifier keep the set keyed. *)
Lemma fill_channels_keyed (ordered : list Channel) (d : list (Z * Channel)) :
  channels_keyed d →
  channels_keyed
    (foldl (λ d channel, odict_set (channel_id channel) channel d) d ordered).
Proof.
  revert d. induction ordered as [|ch ordered IH]; intros d Hkeyed; [done|].
  simpl. apply IH. destruct Hkeyed as [Hnd Hkeys]. split.
  - by apply odict_set_NoDup.
  - intros k c [[= -> ->]|Hin]%elem_of_odict_set; [done|by apply Hkeys].
Qed.

Section FetchFacts.
Context `{!InventoryAPI} `{!Constants}.

Lemma channels_fetch_select_control (new_channels : list Channel)
    (self : Twitch) :
  keeps_games self (channels_fetch_select new_channels self)
  ∧ channels_keyed (channels (channels_fetch_select new_channels self)).
Proof.
  unfold channels_fetch_select. cbv zeta. rewrite fill_channels.
  unfold add_topics. split.
  - case_match; by destruct self.
  - assert (∀ v s, channels (set_ws_topics v s) = channels s) as ->
      by (by intros ? []).
    rewrite !channels_set_channels. apply fill_channels_keyed.
    split; [constructor|]. by intros k c ?%elem_of_nil.
Qed.

Lemma predisplay_cases (self : Twitch) (l : list Channel) :
  predisplay self l = self ∨ ∃ drop, predisplay self l = emit (Display drop) self.
Proof.
  induction l as [|ch l IH]; simpl; [by left|].
  destruct (can_watch self ch); [|done].
  destruct (get_active_drop self (Some ch)); [right; by eexists|by left].
Qed.

Lemma can_watch_keeps (s s' : Twitch) (channel : Channel) :
  games s' = games s → inventory s' = inventory s →
  can_watch s' channel = can_watch s channel.
Proof. intros Hg Hi. unfold can_watch. by rewrite Hg, Hi. Qed.

(** The handler of [CHANNELS_FETCH], once the candidates are gathered,
    returns with the flag set and asks for [CHANNEL_SWITCH]. *)
Lemma channels_fetch_control (new_channels : list Channel) (self : Twitch) :
  ∃ s',
    channels_fetch (inr new_channels) self = (inr tt, s')
    ∧ _state_change s' = true
    ∧ _state s' = (if bool_decide (_state self = EXIT) then EXIT
                   else CHANNEL_SWITCH).
Proof.
  unfold channels_fetch, bind, await, modify.
  eexists. split; [reflexivity|].
  rewrite change_state_state, change_state_signals. split; [done|].
  destruct (channels_fetch_select_control new_channels self)
    as [(Hstate & _) _].
  set (s1 := channels_fetch_select new_channels self) in *.
  assert (Hrelink : _state (relink_watching s1) = _state s1).
  { unfold relink_watching, watch, stop_watching.
    repeat case_match; by destruct s1. }
  set (s2 := relink_watching s1) in *.
  assert (Hdisplay : _state (predisplay s2 (channels s2).*2) = _state s2).
  { destruct (predisplay_cases s2 (channels s2).*2) as [->|[d ->]];
      [done|by destruct s2]. }
  by rewrite Hdisplay, Hrelink, Hstate.
Qed.

(** X16.  [CHANNELS_FETCH], once the candidate channels are gathered, does
    not raise.  The active set is keyed by channel identifier.  A channel is
    watched afterwards only if a channel with the same identifier was watched
    before, and then it is the entry of the new active set under that
    identifier and it can be watched; with nothing watched before, nothing
    is watched after.  The flag is set and the next state is
    [CHANNEL_SWITCH]. *)
Theorem channels_fetch_relinks (new_channels : list Channel) (self : Twitch) :
  ∃ s',
    channels_fetch (inr new_channels) self = (inr tt, s')
    ∧ channels s' = channels (channels_fetch_select new_channels self)
    ∧ channels_keyed (channels s')
    ∧ (∀ channel, watching_channel s' = Some channel →
         can_watch s' channel = true
         ∧ (channel_id channel, channel) ∈ channels s'
         ∧ ∃ w, watching_channel self = Some w
                ∧ channel_id w = channel_id channel)
    ∧ (watching_channel self = None → watching_channel s' = None)
    ∧ _state_change s' = true
    ∧ _state s' = (if bool_decide (_state self = EXIT) then EXIT
                   else CHANNEL_SWITCH).
Proof.
  unfold channels_fetch, bind, await, modify.
  set (s1 := channels_fetch_select new_channels self).
  destruct (channels_fetch_select_control new_channels self)
    as [(Hst1 & _ & Hg1 & Hi1 & Hw1) Hkeyed]. fold s1 in Hst1, Hg1, Hi1, Hw1, Hkeyed.
  set (s2 := relink_watching s1).
  assert (Hs2 : _state s2 = _state s1 ∧ channels s2 = channels s1
                ∧ games s2 = games s1 ∧ inventory s2 = inventory s1).
  { unfold s2, relink_watching, watch, stop_watching.
    repeat case_match; by destruct s1. }
  destruct Hs2 as (Hst2 & Hch2 & Hg2 & Hi2).
  set (s3 := predisplay s2 (channels s2).*2).
  assert (Hs3 : _state s3 = _state s2 ∧ channels s3 = channels s2
                ∧ games s3 = games s2 ∧ inventory s3 = inventory s2
                ∧ watching_channel s3 = watching_channel s2).
  { unfold s3. destruct (predisplay_cases s2 (channels s2).*2) as [->|[d ->]];
      [done|by destruct s2]. }
  destruct Hs3 as (Hst3 & Hch3 & Hg3 & Hi3 & Hw3).
  eexists. split; [reflexivity|].
  destruct (change_state_frame CHANNEL_SWITCH s3)
    as (Hch4 & _ & Hw4 & _ & Hg4 & Hi4 & _).
  rewrite change_state_state, change_state_signals, Hch4, Hw4.
  rewrite Hch3, Hch2, Hw3, Hst3, Hst2, Hst1.
  split; [done|]. split; [done|]. split.
  { intros c Hc.
    rewrite (can_watch_keeps s2) by congruence.
    revert Hc. unfold s2, relink_watching, get_with_default.
    destruct (watching_channel s1) as [w|] eqn:Hw; [|by rewrite Hw].
    destruct (odict_get (channel_id w) (channels s1)) as [new|] eqn:Hget;
      [|by destruct s1].
    destruct (can_watch s1 new) eqn:Hcan; [|by destruct s1].
    assert (Hnew : watching_channel (watch new s1) = Some new)
      by (by destruct s1).
    rewrite Hnew. intros [= <-].
    apply odict_get_elem_of in Hget.
    assert (Hid : channel_id w = channel_id new) by (by apply Hkeyed).
    rewrite Hid in Hget.
    split; [|split; [done|]].
    - rewrite <- Hcan. apply can_watch_keeps; by destruct s1.
    - exists w. split; [congruence|done]. }
  split; [|done].
  intros Hnone. unfold s2, relink_watching, get_with_default.
  by rewrite Hw1, Hnone, Hw1, Hnone.
Qed.
End FetchFacts.

(** ** The loop of [run] *)

Section RunFacts.
Context `{!InventoryAPI} `{!Constants}.
Variable inv : Exn + InventoryData.
Variable catalog : Exn + option (list AvailableData).
Variable details : string → Exn + CampaignData.
Variable gathered : Exn + list Channel.
Variable offline : Channel → bool.

(** [CHANNEL_SWITCH] does not raise: it leaves a watched channel that can be
    watched and clears the flag, or asks for [IDLE]. *)
Lemma channel_switch_outcome (self : Twitch) :
  _state self = CHANNEL_SWITCH →
  ∃ s',
    channel_switch self = (inr tt, s')
    ∧ ((_state s' = CHANNEL_SWITCH ∧ _state_change s' = false
        ∧ ∃ channel, watching_channel s' = Some channel
                     ∧ can_watch s' channel = true)
       ∨ (_state s' = IDLE ∧ _state_change s' = true)).
Proof.
  intros Hstate.
  set (candidates :=
         option_list (gui_selection self) ++ option_list (watching_channel self)
         ++ sorted_by (_game_key self) (snd <$> channels self)).
  set (self0 := set_gui_selection None self).
  assert (Hrun : channel_switch self
    = let '(new_watching, channel) := scan_watchable self0 candidates None in
      match new_watching with
      | Some _ =>
          match channel with
          | Some ch => (inr tt, set_state_change false (watch ch self0))
          | None => (inl UnboundLocalError, self0)
          end
      | None =>
          (inr tt,
           change_state IDLE
             (emit (GuiPrint "No available channels to watch. Waiting for an ONLINE channel...")
                   self0))
      end).
  { unfold candidates. rewrite app_assoc, scan_watchable_app.
    unfold channel_switch, bind, gets, modify, ret, effect, raise, id,
      get_selection, clear_selection.
    assert (Hkeys : _game_key self0 = _game_key self) by (by destruct self).
    assert (Hchs : channels self0 = channels self) by (by destruct self).
    assert (Hw : watching_channel self0 = watching_channel self)
      by (by destruct self).
    destruct (gui_selection self) as [sel|] eqn:Hsel; simpl.
    - fold self0. rewrite Hw, Hkeys, Hchs.
      destruct (watching_channel self) as [w|]; simpl; by_scan_cases.
    - assert (Hself : self0 = self).
      { unfold self0. rewrite <- Hsel. apply set_gui_selection_same. }
      rewrite Hself.
      destruct (watching_channel self) as [w|]; simpl; by_scan_cases. }
  rewrite Hrun.
  pose proof (scan_watchable_find self0 candidates None) as Hfind.
  destruct (List.find (can_watch self0) candidates) as [ch|] eqn:Hfound.
  - rewrite Hfind. eexists. split; [done|]. left.
    apply find_some in Hfound as [_ Hcan].
    split; [by destruct self|]. split; [by destruct self|].
    exists ch. split; [by destruct self|].
    rewrite <- Hcan. apply can_watch_keeps; by destruct self.
  - destruct (scan_watchable self0 candidates None) as [nw ch]. simpl in Hfind.
    subst nw. eexists. split; [done|]. right.
    rewrite change_state_state, change_state_signals.
    split; [|done]. rewrite bool_decide_eq_false_2; [done|].
    assert (_state (emit (GuiPrint "No available channels to watch. Waiting for an ONLINE channel...") self0)
            = _state self) as -> by (by destruct self).
    by rewrite Hstate.
Qed.

(** What every turn leaves in place, the loop leaves in place. *)
Lemma frames_run_loop (R : relation Twitch) `{!PreOrder R} :
  frames R (run_turn inv catalog details gathered offline) →
  ∀ turns, frames R (run_loop inv catalog details gathered offline turns).
Proof.
  intros Hturn turns. induction turns as [|turns IH]; cbn [run_loop].
  - apply (frames_ret R).
  - apply (frames_bind R); [exact Hturn|].
    intros []; [|apply (frames_ret R)].
    apply (frames_bind R); [apply (frames_gets R)|].
    intros []; [done|apply (frames_ret R)].
Qed.

End RunFacts.

(** ** The loop of [run] among the other tasks *)

Lemma settles_among_weaken `{!InventoryAPI} (answer answer' calm calm' : Prop)
    (outcome : (Exn + Pause) * Twitch) :
  (answer' → answer) → (calm' → calm) →
  settles_among answer calm outcome → settles_among answer' calm' outcome.
Proof.
  intros Ha Hc [(e & He & Hno)|[[Hexits Hno]|Hrest]].
  - left. exists e. split; [done|]. intros H'. by apply Hno, Ha.
  - right; left. split; [done|]. intros H'. by apply Hno, Hc.
  - by right; right.
Qed.

Section RunAmongFacts.
Context `{!InventoryAPI} `{!Constants}.
Variable fetching : M unit.
Variable claiming : M unit.
Variable gathering : M (list Channel).
Variable offline : Channel → bool.

Lemma run_loop_among_step (turns : nat) (self : Twitch) :
  run_loop_among fetching claiming gathering offline (S turns) self
  = match run_turn_among fetching claiming gathering offline self with
    | (inl e, s) => (inl e, s)
    | (inr Break, s) => (inr Finished, s)
    | (inr Continue, s) =>
        if _state_change s
        then run_loop_among fetching claiming gathering offline turns s
        else (inr Waiting, s)
    end.
Proof.
  cbn [run_loop_among]. unfold bind at 1.
  destruct (run_turn_among fetching claiming gathering offline self)
    as [[e|[]] s]; try done.
  unfold bind, gets, ret. by destruct (_state_change s).
Qed.

Lemma run_turn_among_handler (self : Twitch) :
  run_turn_among fetching claiming gathering offline self
  = match _state self with
    | IDLE => (inr Continue, set_state_change false (stop_watching self))
    | INVENTORY_FETCH =>
        match fetching self with
        | (inl e, s) => (inl e, s)
        | (inr _, s) => (inr Continue, change_state GAMES_UPDATE s)
        end
    | GAMES_UPDATE =>
        match claiming (set_games ∅ self) with
        | (inl e, s) => (inl e, s)
        | (inr _, s) =>
            (inr Continue, games_collect (priorities (settings self)) s)
        end
    | CHANNELS_CLEANUP =>
        match channels_cleanup offline self with
        | (inl e, s) => (inl e, s)
        | (inr _, s) => (inr Continue, s)
        end
    | CHANNELS_FETCH =>
        match gathering self with
        | (inl e, s) => (inl e, s)
        | (inr new_channels, s) =>
            match channels_fetch (inr new_channels) s with
            | (inl e, s') => (inl e, s')
            | (inr _, s') => (inr Continue, s')
            end
        end
    | CHANNEL_SWITCH =>
        match channel_switch self with
        | (inl e, s) => (inl e, s)
        | (inr _, s) => (inr Continue, s)
        end
    | EXIT => (inr Break, self)
    end.
Proof.
  unfold run_turn_among. unfold bind at 1, gets at 1.
  destruct (_state self); try done.
  - unfold bind at 1 2, modify at 1, gets at 1.
    assert (settings (set_games ∅ self) = settings self) as ->
      by (by destruct self).
    unfold bind at 1 2.
    by destruct (claiming (set_games ∅ self)) as [[e|[]] s].
  - unfold bind at 1 2.
    by destruct (gathering self) as [[e|new_channels] s].
Qed.

(** What every turn leaves in place, the loop leaves in place. *)
Lemma frames_run_loop_among (R : relation Twitch) `{!PreOrder R} :
  frames R (run_turn_among fetching claiming gathering offline) →
  ∀ turns,
    frames R (run_loop_among fetching claiming gathering offline turns).
Proof.
  intros Hturn turns. induction turns as [|turns IH]; cbn [run_loop_among].
  - apply (frames_ret R).
  - apply (frames_bind R); [exact Hturn|].
    intros []; [|apply (frames_ret R)].
    apply (frames_bind R); [apply (frames_gets R)|].
    intros []; [done|apply (frames_ret R)].
Qed.

Lemma games_collect_control (priorities : gmap string Z) (self : Twitch) :
  let self' := games_collect priorities self in
  _state self' = (if bool_decide (_state self = EXIT) then EXIT
                  else CHANNELS_CLEANUP)
  ∧ _state_change self' = true
  ∧ channels self' = channels self.
Proof.
  unfold games_collect. cbv zeta.
  rewrite change_state_state, change_state_signals.
  match goal with
  | |- context [change_state _ ?s] =>
      destruct (change_state_frame CHANNELS_CLEANUP s) as (-> & _)
  end.
  by destruct self.
Qed.

(** From [EXIT]: the loop is left at once, and nothing is touched. *)
Lemma run_loop_among_exit (turns : nat) (self : Twitch) :
  _state self = EXIT →
  run_loop_among fetching claiming gathering offline (1 + turns) self
  = (inr Finished, self).
Proof.
  intros Hstate. cbn [Nat.add].
  by rewrite run_loop_among_step, run_turn_among_handler, Hstate.
Qed.

(** From [IDLE]: one turn. *)
Lemma run_loop_among_idle (turns : nat) (self : Twitch) :
  _state self = IDLE →
  comes_to_rest
    (run_loop_among fetching claiming gathering offline (1 + turns) self).
Proof.
  intros Hstate. cbn [Nat.add].
  rewrite run_loop_among_step, run_turn_among_handler, Hstate.
  assert (Hflag : _state_change (set_state_change false (stop_watching self))
                  = false) by (by destruct self).
  rewrite Hflag. split; [done|]. split; [done|]. left.
  split; by destruct self.
Qed.

(** From [CHANNEL_SWITCH]: at most two turns, and no exception. *)
Lemma run_loop_among_switch (turns : nat) (self : Twitch) :
  _state self = CHANNEL_SWITCH →
  comes_to_rest
    (run_loop_among fetching claiming gathering offline (2 + turns) self).
Proof.
  intros Hstate. cbn [Nat.add].
  rewrite run_loop_among_step, run_turn_among_handler, Hstate.
  destruct (channel_switch_outcome self Hstate)
    as (s' & -> & [(Hst & Hflag & Hwatch)|(Hst & Hflag)]).
  - rewrite Hflag. split; [done|]. split; [done|]. by right.
  - rewrite Hflag. by apply (run_loop_among_idle turns).
Qed.

(** After a handler that has waited: the loop is left if a task has asked
    to exit meanwhile, and goes on with the next state otherwise. *)
Lemma run_loop_among_next (next : State) (answer calm : Prop) (turns : nat)
    (waited s : Twitch) :
  _state s = (if bool_decide (_state waited = EXIT) then EXIT else next) →
  (calm → _state waited ≠ EXIT) →
  (_state s = next →
   settles_among answer calm
     (run_loop_among fetching claiming gathering offline (1 + turns) s)) →
  settles_among answer calm
    (run_loop_among fetching claiming gathering offline (1 + turns) s).
Proof.
  intros Hst Hcalm Hnext. case_bool_decide as Hexit; [|by apply Hnext].
  rewrite run_loop_among_exit by done.
  right; left. split; [by split|]. intros Hc. by apply Hcalm.
Qed.

(** From [CHANNELS_FETCH]: at most three turns. *)
Lemma run_loop_among_fetch (turns : nat) (self : Twitch) :
  _state self = CHANNELS_FETCH →
  settles_among (returns gathering) (no_exit gathering)
    (run_loop_among fetching claiming gathering offline (3 + turns) self).
Proof.
  intros Hstate. cbn [Nat.add].
  rewrite run_loop_among_step, run_turn_among_handler, Hstate.
  destruct (gathering self) as [[e|new_channels] s1] eqn:Hgather.
  { left. exists e. split; [done|]. intros Hreturns.
    destruct (Hreturns self) as [l Hl]. rewrite Hgather in Hl. done. }
  destruct (channels_fetch_control new_channels s1)
    as (s' & -> & Hflag & Hst).
  rewrite Hflag.
  apply (run_loop_among_next CHANNEL_SWITCH _ _ (1 + turns) s1 s' Hst).
  - intros Hcalm. specialize (Hcalm self). rewrite Hgather in Hcalm.
    apply Hcalm. by rewrite Hstate.
  - intros Hswitch. right; right. by apply (run_loop_among_switch turns).
Qed.

(** From [CHANNELS_CLEANUP]: at most four turns. *)
Lemma run_loop_among_cleanup (turns : nat) (self : Twitch) :
  _state self = CHANNELS_CLEANUP →
  settles_among (returns gathering ∧ channels_keyed (channels self))
    (no_exit gathering)
    (run_loop_among fetching claiming gathering offline (4 + turns) self).
Proof.
  intros Hstate. cbn [Nat.add].
  rewrite run_loop_among_step, run_turn_among_handler, Hstate.
  pose proof (channels_cleanup_control offline self) as Hcontrol.
  pose proof (channels_cleanup_run offline self) as Hkeyed.
  cbv zeta in Hcontrol, Hkeyed. rewrite Hstate in Hcontrol.
  destruct (channels_cleanup offline self) as [[e|[]] s'].
  { left. exists e. split; [done|]. intros [_ Hk]. by specialize (Hkeyed Hk). }
  clear Hkeyed.
  destruct Hcontrol as [[e He]|(_ & Hflag & Hst & _)]; [done|].
  simpl in Hflag, Hst. rewrite Hflag.
  case_bool_decide.
  - eapply settles_among_weaken;
      [| |apply (run_loop_among_fetch turns s' Hst)]; [by intros [? _]|done].
  - right; right. by apply (run_loop_among_idle (2 + turns)).
Qed.

(** From [GAMES_UPDATE]: at most five turns. *)
Lemma run_loop_among_games (turns : nat) (self : Twitch) :
  _state self = GAMES_UPDATE →
  settles_among
    (parts_answer fetching claiming gathering
     ∧ channels_keyed (channels self))
    (parts_calm fetching claiming gathering)
    (run_loop_among fetching claiming gathering offline (5 + turns) self).
Proof.
  intros Hstate. cbn [Nat.add].
  rewrite run_loop_among_step, run_turn_among_handler, Hstate.
  assert (Hcleared : _state (set_games ∅ self) = GAMES_UPDATE
                     ∧ channels (set_games ∅ self) = channels self)
    by (rewrite <- Hstate; by destruct self).
  destruct Hcleared as [Hst0 Hch0].
  destruct (claiming (set_games ∅ self)) as [[e|[]] s1] eqn:Hclaim.
  { left. exists e. split; [done|]. intros [(_ & Hreturns & _) _].
    destruct (Hreturns (set_games ∅ self)) as [u Hu].
    rewrite Hclaim in Hu. done. }
  destruct (games_collect_control (priorities (settings self)) s1)
    as (Hst & Hflag & Hch).
  rewrite Hflag.
  apply (run_loop_among_next CHANNELS_CLEANUP _ _ (3 + turns) s1 _ Hst).
  - intros (_ & Hcalm & _). specialize (Hcalm (set_games ∅ self)).
    rewrite Hclaim in Hcalm. apply Hcalm. by rewrite Hst0.
  - intros Hcleanup.
    eapply settles_among_weaken;
      [| |apply (run_loop_among_cleanup turns _ Hcleanup)].
    + intros [(_ & _ & Hgather & _ & Hkeeps) Hkeyed]. split; [done|].
      rewrite Hch. specialize (Hkeeps (set_games ∅ self)).
      rewrite Hclaim in Hkeeps. apply Hkeeps. by rewrite Hch0.
    + by intros (_ & _ & ?).
Qed.

(** From [INVENTORY_FETCH]: at most six turns. *)
Lemma run_loop_among_inventory (turns : nat) (self : Twitch) :
  _state self = INVENTORY_FETCH →
  settles_among
    (parts_answer fetching claiming gathering
     ∧ channels_keyed (channels self))
    (parts_calm fetching claiming gathering)
    (run_loop_among fetching claiming gathering offline (6 + turns) self).
Proof.
  intros Hstate. cbn [Nat.add].
  rewrite run_loop_among_step, run_turn_among_handler, Hstate.
  destruct (fetching self) as [[e|[]] s1] eqn:Hfetch.
  { left. exists e. split; [done|]. intros [(Hreturns & _) _].
    destruct (Hreturns self) as [u Hu]. rewrite Hfetch in Hu. done. }
  rewrite change_state_signals.
  apply (run_loop_among_next GAMES_UPDATE _ _ (4 + turns) s1 _
           (change_state_state GAMES_UPDATE s1)).
  - intros (Hcalm & _). specialize (Hcalm self).
    rewrite Hfetch in Hcalm. apply Hcalm. by rewrite Hstate.
  - intros Hgames.
    eapply settles_among_weaken;
      [| |apply (run_loop_among_games turns _ Hgames)]; [|done].
    intros [Hanswer Hkeyed]. split; [done|].
    destruct (change_state_frame GAMES_UPDATE s1) as (-> & _).
    destruct Hanswer as (_ & _ & _ & Hkeeps & _).
    specialize (Hkeeps self). rewrite Hfetch in Hkeeps. by apply Hkeeps.
Qed.

(** From any state: at most six turns. *)
Lemma run_loop_among_ends (self : Twitch) :
  _state self ≠ EXIT →
  settles_among
    (parts_answer fetching claiming gathering
     ∧ channels_keyed (channels self))
    (parts_calm fetching claiming gathering)
    (run_loop_among fetching claiming gathering offline 6 self).
Proof.
  intros Hexit. destruct (_state self) eqn:Hstate; [| | | | | |done].
  - right; right. apply (run_loop_among_idle 5 self Hstate).
  - apply (run_loop_among_inventory 0 self Hstate).
  - apply (run_loop_among_games 1 self Hstate).
  - eapply settles_among_weaken;
      [| |apply (run_loop_among_cleanup 2 self Hstate)].
    + by intros [(_ & _ & ? & _) ?].
    + by intros (_ & _ & ?).
  - eapply settles_among_weaken;
      [| |apply (run_loop_among_fetch 3 self Hstate)].
    + by intros [(_ & _ & ? & _) ?].
    + by intros (_ & _ & ?).
  - right; right. apply (run_loop_among_switch 4 self Hstate).
Qed.

(** X17.  Whatever state the loop of [run] is entered in, whatever the
    requests come to and whatever the other tasks do while a handler waits,
    the loop is not running any more after six turns without a wait at the
    flag: it has raised, or it has left through [break], the state being
    [EXIT], or it waits for the flag, which is cleared, either in [IDLE]
    with nothing watched or in [CHANNEL_SWITCH] with a watched channel that
    can be watched.  Entered in [EXIT], it is left at once and touches
    nothing. *)
Theorem run_loop_settles (self : Twitch) :
  let outcome := run_loop_among fetching claiming gathering offline 6 self in
  ((∃ e, outcome.1 = inl e)
   ∨ (outcome.1 = inr Finished ∧ _state outcome.2 = EXIT)
   ∨ (outcome.1 = inr Waiting ∧ at_rest outcome.2))
  ∧ (_state self = EXIT → outcome = (inr Finished, self)).
Proof.
  cbv zeta. split; [|apply (run_loop_among_exit 5)].
  destruct (decide (_state self = EXIT)) as [Hexit|Hexit].
  - right; left. by rewrite (run_loop_among_exit 5) by done.
  - destruct (run_loop_among_ends self Hexit)
      as [(e & He & _)|[[Hexits _]|Hrest]].
    + left. by exists e.
    + by right; left.
    + by right; right.
Qed.

(** X18.  When the parts of the handlers that wait return, whatever else
    happens meanwhile, and leave the active set keyed by channel identifier,
    the loop of [run] does not raise: within six turns it has left through
    [break], the state being [EXIT], or has come to rest.  When moreover it
    is not entered in [EXIT] and no task asks to exit while a handler
    waits, it comes to rest. *)
Theorem run_loop_comes_to_rest (self : Twitch) :
  returns fetching → returns claiming → returns gathering →
  keeps_keyed fetching → keeps_keyed claiming →
  channels_keyed (channels self) →
  let outcome := run_loop_among fetching claiming gathering offline 6 self in
  ((outcome.1 = inr Finished ∧ _state outcome.2 = EXIT)
   ∨ (outcome.1 = inr Waiting ∧ at_rest outcome.2))
  ∧ (_state self ≠ EXIT →
     no_exit fetching → no_exit claiming → no_exit gathering →
     outcome.1 = inr Waiting ∧ at_rest outcome.2).
Proof.
  intros Hfetch Hclaim Hgather Hkfetch Hkclaim Hkeyed. cbv zeta.
  assert (Hanswer : parts_answer fetching claiming gathering
                    ∧ channels_keyed (channels self)).
  { exact (conj (conj Hfetch (conj Hclaim (conj Hgather
                   (conj Hkfetch Hkclaim)))) Hkeyed). }
  split.
  - destruct (decide (_state self = EXIT)) as [Hexit|Hexit].
    { left. by rewrite (run_loop_among_exit 5) by done. }
    destruct (run_loop_among_ends self Hexit)
      as [(e & He & Hno)|[[Hexits _]|Hrest]]; [done|by left|by right].
  - intros Hexit Hnfetch Hnclaim Hngather.
    destruct (run_loop_among_ends self Hexit)
      as [(e & He & Hno)|[[Hexits Hno]|Hrest]]; [done| |done].
    destruct Hno. exact (conj Hnfetch (conj Hnclaim Hngather)).
Qed.
End RunAmongFacts.

(** *** The loop when no other task runs *)

Section RunAlone.
Context `{!InventoryAPI} `{!Constants}.

(** An inventory fetch whose requests are answered returns. *)
Lemma fetching_alone_returns (inventory_data : InventoryData)
    (available_list : option (list AvailableData))
    (details : string → Exn + CampaignData) :
  (∀ id, answered (details id)) →
  returns (fetch_inventory (inr inventory_data) (inr available_list) details).
Proof.
  intros Hdetails self.
  set (detail_of := λ id, match details id with
                          | inr data => data
                          | inl _ => chess_data
                          end).
  destruct (fetch_inventory_run self inventory_data available_list details
              detail_of) as (s' & Hrun & _).
  { intros e _. unfold detail_of. by destruct (Hdetails e.1) as [d ->]. }
  rewrite Hrun. by eexists.
Qed.

(** An inventory fetch leaves the active set and the state alone. *)
Lemma fetching_alone_quiet (inv : Exn + InventoryData)
    (catalog : Exn + option (list AvailableData))
    (details : string → Exn + CampaignData) :
  keeps_keyed (fetch_inventory inv catalog details)
  ∧ no_exit (fetch_inventory inv catalog details).
Proof.
  split; intros self Hself;
    destruct (fetch_inventory_control inv catalog details self)
      as [(Hstate & _) [Hchannels _]].
  - by rewrite Hchannels.
  - by rewrite Hstate.
Qed.

(** Claims that are answered return, and leave the active set and the
    state alone. *)
Lemma claiming_alone_quiet :
  returns claiming_alone ∧ keeps_keyed claiming_alone ∧ no_exit claiming_alone.
Proof.
  split; [|split].
  - intros self. by eexists.
  - intros self Hself. unfold claiming_alone, modify. by destruct self.
  - intros self Hself. unfold claiming_alone, modify. by destruct self.
Qed.

(** A gathering that is answered returns; it leaves the state alone. *)
Lemma gathering_alone_quiet (gathered : Exn + list Channel) :
  (answered gathered → returns (await gathered)) ∧ no_exit (await gathered).
Proof.
  split.
  - intros [new_channels ->] self. by eexists.
  - intros self Hself. unfold await. by destruct gathered.
Qed.

(** The fetch during which the GUI is closed returns, and leaves the active
    set alone. *)
Lemma closing_returns : returns closing ∧ keeps_keyed closing.
Proof.
  split.
  - intros self. by eexists.
  - intros self Hself. unfold closing, bind, effect, modify.
    cbn [fst snd].
    match goal with
    | |- context [change_state EXIT ?s] =>
        destruct (change_state_frame EXIT s) as (-> & _)
    end.
    by destruct self.
Qed.

(** The loop of [run] when no other task runs while a handler waits is the
    loop among tasks that do nothing. *)
Lemma run_turn_among_alone (inv : Exn + InventoryData)
    (catalog : Exn + option (list AvailableData))
    (details : string → Exn + CampaignData) (gathered : Exn + list Channel)
    (offline : Channel → bool) (self : Twitch) :
  run_turn_among (fetch_inventory inv catalog details) claiming_alone
    (await gathered) offline self
  = run_turn inv catalog details gathered offline self.
Proof.
  rewrite run_turn_among_handler.
  unfold run_turn. unfold bind at 1, gets at 1.
  destruct (_state self); try done.
  - unfold claiming_alone, modify, bind, ret. cbn [fst snd]. f_equal.
    unfold games_update, games_collect. cbv zeta.
    destruct self as [[] ?]; reflexivity.
  - unfold channels_fetch.
    destruct gathered as [e|new_channels]; [done|].
    unfold bind, await, modify, ret. done.
Qed.

Lemma run_loop_among_alone (inv : Exn + InventoryData)
    (catalog : Exn + option (list AvailableData))
    (details : string → Exn + CampaignData) (gathered : Exn + list Channel)
    (offline : Channel → bool) (turns : nat) (self : Twitch) :
  run_loop_among (fetch_inventory inv catalog details) claiming_alone
    (await gathered) offline turns self
  = run_loop inv catalog details gathered offline turns self.
Proof.
  revert self. induction turns as [|turns IH]; intros self; [done|].
  rewrite run_loop_among_step, run_turn_among_alone.
  cbn [run_loop]. unfold bind at 1.
  destruct (run_turn inv catalog details gathered offline self)
    as [[e|[]] s]; try done.
  unfold bind, gets, ret. rewrite IH. by destruct (_state_change s).
Qed.
End RunAlone.

Lemma run_loop_comes_to_rest_witness :
  let alone :=
    @run_loop_among simple_inventory small_pool
      (fetch_inventory (H:=simple_inventory) (inr sample_inventory_data) (inr (Some sample_catalog))
         sample_details)
      (claiming_alone (H:=simple_inventory)) (await chess_gathering) settled_offline 6
      starting_miner in
  let closed :=
    @run_loop_among simple_inventory small_pool closing (claiming_alone (H:=simple_inventory))
      (await chess_gathering) settled_offline 6 starting_miner in
  channels_keyed (channels starting_miner)
  ∧ alone.1 = inr Waiting
  ∧ at_rest (H:=simple_inventory) alone.2
  ∧ watching_channel alone.2 = Some chess_channel
  ∧ closed.1 = inr Finished
  ∧ _state closed.2 = EXIT.
Proof.
  intros alone closed.
  assert (Hanswered : ∀ id, answered (sample_details id))
    by (intros id; by eexists).
  assert (Hgathered : answered chess_gathering) by (by eexists).
  destruct (@claiming_alone_quiet simple_inventory)
    as (Hclaims & Hclaims_keyed & Hclaims_calm).
  destruct (@fetching_alone_quiet simple_inventory
              (inr sample_inventory_data) (inr (Some sample_catalog))
              sample_details) as [Hfetch_keyed Hfetch_calm].
  destruct (gathering_alone_quiet chess_gathering) as [Hgather Hgather_calm].
  destruct closing_returns as [Hclosing Hclosing_keyed].
  split; [exact tracking_miner_keyed|].
  destruct (@run_loop_comes_to_rest simple_inventory small_pool
              (fetch_inventory (H:=simple_inventory) (inr sample_inventory_data)
                 (inr (Some sample_catalog)) sample_details)
              (claiming_alone (H:=simple_inventory)) (await chess_gathering) settled_offline
              starting_miner
              (fetching_alone_returns (H:=simple_inventory) sample_inventory_data
                 (Some sample_catalog) sample_details Hanswered)
              Hclaims (Hgather Hgathered) Hfetch_keyed Hclaims_keyed
              tracking_miner_keyed) as [_ Halone].
  destruct Halone as [Hwaiting Hrest];
    [discriminate|exact Hfetch_calm|exact Hclaims_calm|exact Hgather_calm|].
  split; [exact Hwaiting|]. split; [exact Hrest|]. split; [reflexivity|].
  destruct (@run_loop_comes_to_rest simple_inventory small_pool closing
              (claiming_alone (H:=simple_inventory)) (await chess_gathering) settled_offline
              starting_miner Hclosing Hclaims (Hgather Hgathered)
              Hclosing_keyed Hclaims_keyed tracking_miner_keyed)
    as [[Hclosed|[Hwaits _]] _]; [exact Hclosed|].
  discriminate Hwaits.
Defined.

(** ** The account topics *)

Global Instance keeps_account_topics_preorder : PreOrder keeps_account_topics.
Proof.
  split.
  - by intros s topic.
  - intros s1 s2 s3 H12 H23 topic Hns Hin. by apply H23, H12.
Qed.

Lemma keeps_account_topics_same (s s' : Twitch) :
  ws_topics s' = ws_topics s → keeps_account_topics s s'.
Proof. intros Hws topic _. by rewrite Hws. Qed.

Lemma keeps_account_topics_change_state (state : State) (s : Twitch) :
  keeps_account_topics s (change_state state s).
Proof.
  apply keeps_account_topics_same.
  by destruct (change_state_frame state s) as (_ & -> & _).
Qed.

Lemma keeps_account_topics_remove (ids : list Z) (s : Twitch) :
  keeps_account_topics s (remove_topics (stream_state_topics ids) s).
Proof.
  intros topic Hns Hin.
  assert (ws_topics (remove_topics (stream_state_topics ids) s)
          = ws_topics s ∖ stream_state_topics ids) as -> by (by destruct s).
  apply elem_of_difference. split; [done|].
  unfold stream_state_topics. rewrite elem_of_list_to_set, list_elem_of_fmap.
  intros (id & -> & _). by apply (Hns id).
Qed.

Lemma keeps_account_topics_add (topics : gset Topic) (s : Twitch) :
  keeps_account_topics s (add_topics topics s).
Proof.
  intros topic _ Hin.
  assert (ws_topics (add_topics topics s) = ws_topics s ∪ topics) as ->
    by (by destruct s).
  apply elem_of_union. by left.
Qed.

Ltac frames_account_topics :=
  repeat lazymatch goal with
         | |- frames _ (ret _) => apply (frames_ret keeps_account_topics)
         | |- frames _ (raise _) => apply (frames_raise keeps_account_topics)
         | |- frames _ (gets _) => apply (frames_gets keeps_account_topics)
         | |- frames _ (await _) => apply (frames_await keeps_account_topics)
         | |- frames _ (bind _ _) => apply (frames_bind keeps_account_topics)
         | |- frames _ (for_each _ _) =>
             apply (frames_for_each keeps_account_topics)
         | |- frames _ (modify _) => apply (frames_modify keeps_account_topics)
         | |- frames _ (effect _) => unfold effect
         | |- frames _ _ => first [progress cbv beta | case_match]
         | |- keeps_account_topics _ (change_state _ _) =>
             apply keeps_account_topics_change_state
         | |- keeps_account_topics _ (remove_topics (stream_state_topics _) _) =>
             apply keeps_account_topics_remove
         | |- keeps_account_topics _ (add_topics _ _) =>
             apply keeps_account_topics_add
         | |- keeps_account_topics _ _ => fail
         | |- _ => intro
         end.

Ltac same_account_topics :=
  match goal with
  | |- keeps_account_topics ?s _ =>
      apply keeps_account_topics_same; by destruct s
  end.

Section AccountTopics.
Context `{!InventoryAPI} `{!Constants}.
Variable inv : Exn + InventoryData.
Variable catalog : Exn + option (list AvailableData).
Variable details : string → Exn + CampaignData.
Variable gathered : Exn + list Channel.
Variable offline : Channel → bool.

Lemma channels_fetch_select_account_topics (new_channels : list Channel)
    (s : Twitch) :
  keeps_account_topics s (channels_fetch_select new_channels s).
Proof.
  assert (Hset : ∀ d t, keeps_account_topics t (set_channels d t)).
  { intros d t. apply keeps_account_topics_same. by destruct t. }
  unfold channels_fetch_select. cbv zeta. rewrite fill_channels.
  etrans; [|apply keeps_account_topics_add].
  etrans; [|apply Hset]. etrans; [|apply Hset].
  case_match; [reflexivity|]. apply keeps_account_topics_remove.
Qed.

Lemma run_turn_account_topics :
  frames keeps_account_topics
    (run_turn inv catalog details gathered offline).
Proof.
  unfold run_turn.
  apply (frames_bind keeps_account_topics);
    [apply (frames_gets keeps_account_topics)|].
  intros [].
  - frames_account_topics; same_account_topics.
  - apply (frames_bind keeps_account_topics); [|frames_account_topics].
    apply (frames_fetch_inventory keeps_account_topics);
      intros; same_account_topics.
  - frames_account_topics. unfold games_update. cbv zeta.
    etrans; [|apply keeps_account_topics_change_state].
    same_account_topics.
  - unfold channels_cleanup, remove_channel.
    frames_account_topics; same_account_topics.
  - unfold channels_fetch. frames_account_topics.
    + apply channels_fetch_select_account_topics.
    + apply keeps_account_topics_same.
      unfold relink_watching, watch, stop_watching.
      repeat case_match;
        match goal with |- _ = ws_topics ?s => by destruct s end.
    + apply keeps_account_topics_same.
      match goal with
      | |- context [predisplay ?s ?l] =>
          destruct (predisplay_cases s l) as [->|[d ->]];
          [done|by destruct s]
      end.
  - unfold channel_switch.
    frames_account_topics; same_account_topics.
  - frames_account_topics.
Qed.

(** X19.  The loop of [run] never unsubscribes a topic other than the
    stream-state topic of a channel: whatever the state, the number of turns
    and the outcome, such a topic subscribed before is subscribed after. *)
Theorem run_loop_keeps_account_topics (turns : nat) (self : Twitch)
    (topic : Topic) :
  (∀ id, topic ≠ StreamState id) →
  topic ∈ ws_topics self →
  topic ∈ ws_topics (run_loop inv catalog details gathered offline turns self).2.
Proof.
  revert self topic.
  change (frames keeps_account_topics
            (run_loop inv catalog details gathered offline turns)).
  apply (frames_run_loop inv catalog details gathered offline
           keeps_account_topics), run_turn_account_topics.
Qed.
End AccountTopics.

Lemma run_loop_keeps_account_topics_witness :
  (∀ id, UserDrops 99 ≠ StreamState id)
  ∧ UserDrops 99 ∈ ws_topics starting_miner
  ∧ UserDrops 99
    ∈ ws_topics
        (@run_loop simple_inventory small_pool (inr sample_inventory_data)
           (inr (Some sample_catalog)) sample_details chess_gathering
           settled_offline 6 starting_miner).2.
Proof.
  assert (Hkind : ∀ id, UserDrops 99 ≠ StreamState id) by discriminate.
  assert (Hin : UserDrops 99 ∈ ws_topics starting_miner).
  { simpl. apply elem_of_union. right. by apply elem_of_singleton. }
  split; [exact Hkind|]. split; [exact Hin|].
  exact (@run_loop_keeps_account_topics simple_inventory small_pool
           (inr sample_inventory_data) (inr (Some sample_catalog))
           sample_details chess_gathering settled_offline 6 starting_miner
           (UserDrops 99) Hkind Hin).
Defined.

(** ** The login and the loop *)

Global Instance keeps_login_preorder : PreOrder keeps_login.
Proof.
  split.
  - by intros s.
  - intros s1 s2 s3 (? & ? & ? & ? & ?) (? & ? & ? & ? & ?).
    repeat split; congruence.
Qed.

Lemma keeps_login_change_state (state : State) (s : Twitch) :
  keeps_login s (change_state state s).
Proof. unfold change_state. destruct s; simpl. by case_bool_decide. Qed.

Ltac frames_steps R :=
  repeat lazymatch goal with
         | |- frames _ (ret _) => apply (frames_ret R)
         | |- frames _ (raise _) => apply (frames_raise R)
         | |- frames _ (gets _) => apply (frames_gets R)
         | |- frames _ (await _) => apply (frames_await R)
         | |- frames _ (bind _ _) => apply (frames_bind R)
         | |- frames _ (for_each _ _) => apply (frames_for_each R)
         | |- frames _ (modify _) => apply (frames_modify R)
         | |- frames _ (effect _) => unfold effect
         | |- frames _ _ => first [progress cbv beta | case_match]
         | |- R _ _ => fail
         | |- _ => intro
         end.

Section LoginUntouched.
Context `{!InventoryAPI} `{!Constants}.
Variable inv : Exn + InventoryData.
Variable catalog : Exn + option (list AvailableData).
Variable details : string → Exn + CampaignData.
Variable gathered : Exn + list Channel.
Variable offline : Channel → bool.

Lemma run_turn_login :
  frames keeps_login (run_turn inv catalog details gathered offline).
Proof.
  unfold run_turn.
  apply (frames_bind keeps_login); [apply (frames_gets keeps_login)|].
  intros [].
  - frames_steps keeps_login; by destruct s.
  - apply (frames_bind keeps_login).
    + apply (frames_fetch_inventory keeps_login); intros; by destruct s.
    + frames_steps keeps_login. apply keeps_login_change_state.
  - frames_steps keeps_login. unfold games_update. cbv zeta.
    etrans; [|apply keeps_login_change_state]. by destruct s.
  - unfold channels_cleanup, remove_channel.
    frames_steps keeps_login;
      first [apply keeps_login_change_state | by destruct s].
  - unfold channels_fetch. frames_steps keeps_login.
    + unfold channels_fetch_select. cbv zeta. rewrite fill_channels.
      case_match; by destruct s.
    + unfold relink_watching, watch, stop_watching.
      repeat case_match; by destruct s.
    + destruct (predisplay_cases s (channels s).*2) as [->|[d ->]];
        [done|by destruct s].
    + apply keeps_login_change_state.
  - unfold channel_switch.
    frames_steps keeps_login;
      first [apply keeps_login_change_state | by destruct s].
  - frames_steps keeps_login.
Qed.

Lemma run_loop_login (turns : nat) :
  frames keeps_login (run_loop inv catalog details gathered offline turns).
Proof.
  apply (frames_run_loop inv catalog details gathered offline keeps_login),
    run_turn_login.
Qed.
End LoginUntouched.

(** [check_login] leaves in place whatever the effects and the assignments
    to the session, the cookie file, the token, the user and the logged-in
    flag leave in place. *)
Lemma frames_check_login (R : relation Twitch) `{!PreOrder R}
    (login : Z → Exn + string) (validate : Z → option string → Exn + (Z * Z)) :
  (∀ e s, R s (emit e s)) →
  (∀ v s, R s (set_session v s)) →
  (∀ v s, R s (set_cookies_file v s)) →
  (∀ v s, R s (set_access_token v s)) →
  (∀ v s, R s (set_user_id v s)) →
  (∀ v s, R s (set_is_logged_in v s)) →
  frames R (check_login login validate).
Proof.
  intros Hemit Hsession Hfile Htoken Huser Hlogged.
  assert (Hobtain : ∀ attempt, frames R (obtain_token login attempt)).
  { intros attempt. unfold obtain_token. frames_steps R; auto. }
  assert (Hloop : ∀ todo, frames R (validate_attempts login validate todo)).
  { induction todo as [|attempt todo IH]; cbn [validate_attempts].
    - apply (frames_ret R).
    - apply (frames_bind R); [apply Hobtain|]. intros cookie.
      apply (frames_bind R); [apply (frames_gets R)|]. intros token.
      apply (frames_bind R); [apply (frames_modify R), Hemit|]. intros _.
      apply (frames_bind R); [apply (frames_await R)|]. intros [status uid].
      case_bool_decide; [|case_bool_decide; [apply (frames_ret R)|done]].
      apply (frames_bind R); [apply (frames_modify R), Hsession|]. intros _.
      apply (frames_bind R); [apply (frames_modify R), Hemit|]. by intros _. }
  unfold check_login.
  apply (frames_bind R); [apply (frames_gets R)|]. intros token.
  apply (frames_bind R); [apply (frames_gets R)|]. intros user.
  case_bool_decide; [apply (frames_ret R)|].
  apply (frames_bind R); [apply (frames_gets R)|]. intros session.
  apply (frames_bind R).
  { destruct session; [apply (frames_ret R)|].
    apply (frames_modify R). intros s. apply Hsession. }
  intros _. apply (frames_bind R); [apply Hloop|].
  intros [[cookie uid]|]; [|apply (frames_raise R)].
  frames_steps R; auto.
Qed.

(** [check_login] leaves the state machine alone, whatever it comes to. *)
Lemma check_login_control (login : Z → Exn + string)
    (validate : Z → option string → Exn + (Z * Z)) (self : Twitch) :
  let s' := (check_login login validate self).2 in
  keeps_control self s' ∧ keeps_channels self s'.
Proof.
  split.
  - apply (frames_check_login keeps_control); by intros ? [].
  - apply (frames_check_login keeps_channels); by intros ? [].
Qed.

(** A check of the login that returns has found a user. *)
Lemma check_login_user (login : Z → Exn + string)
    (validate : Z → option string → Exn + (Z * Z)) (self s' : Twitch) :
  check_login login validate self = (inr tt, s') → is_Some (_user_id s').
Proof.
  intros Hrun.
  destruct (decide (is_Some (_access_token self) ∧ is_Some (_user_id self)))
    as [[Htoken Huser]|Hneeds].
  { rewrite check_login_already_validated in Hrun by done. by simplify_eq. }
  rewrite check_login_due in Hrun by done.
  destruct (validate_attempts login validate [0; 1] _)
    as [[e|[[cookie uid]|]] s]; simpl in *; [done| |done].
  simplify_eq. unfold finish_login. by destruct s.
Qed.

Section RunFromLogin.
Context `{!InventoryAPI} `{!Constants}.
Variable inv : Exn + InventoryData.
Variable catalog : Exn + option (list AvailableData).
Variable details : string → Exn + CampaignData.
Variable gathered : Exn + list Channel.
Variable offline : Channel → bool.

(** X21.  [run] with a login that is left with [ExitRequest] returns at
    once: what the login check did apart, nothing is subscribed, no state is
    requested and no handler runs.  With any other exception of the login
    check, [run] raises it. *)
Theorem run_stops_at_failed_login (login : Z → Exn + string)
    (validate : Z → option string → Exn + (Z * Z)) (turns : nat)
    (self : Twitch) (e : Exn) :
  (check_login login validate self).1 = inl e →
  let logged := check_login login validate self in
  run inv catalog details gathered offline login validate turns self
  = (match e with ExitRequest => inr Finished | _ => inl e end, logged.2)
  ∧ ws_topics logged.2 = ws_topics self
  ∧ _state logged.2 = _state self
  ∧ _state_change logged.2 = _state_change self.
Proof.
  intros Hfails. cbv zeta.
  destruct (check_login_control login validate self)
    as [(Hstate & Hflag & _) [_ Htopics]].
  split; [|done].
  unfold run. destruct (check_login login validate self) as [[e'|[]] s1];
    simpl in Hfails; [|done].
  injection Hfails as ->. by destruct e.
Qed.
End RunFromLogin.

Lemma run_stops_at_failed_login_witness :
  let outcome :=
    @run simple_inventory small_pool (inr sample_inventory_data)
      (inr (Some sample_catalog)) sample_details chess_gathering
      settled_offline closed_login strict_backend 6 new_miner in
  (check_login closed_login strict_backend new_miner).1 = inl ExitRequest
  ∧ outcome.1 = inr Finished
  ∧ ws_topics outcome.2 = ∅
  ∧ _state outcome.2 = IDLE
  ∧ effects outcome.2 = [LoginFlow].
Proof.
  destruct (@run_stops_at_failed_login simple_inventory small_pool
              (inr sample_inventory_data) (inr (Some sample_catalog))
              sample_details chess_gathering settled_offline closed_login
              strict_backend 6 new_miner ExitRequest eq_refl)
    as (Hrun & Htopics & Hstate & _).
  split; [reflexivity|]. rewrite Hrun.
  split; [reflexivity|]. split; [exact Htopics|]. split; [exact Hstate|].
  reflexivity.
Defined.

(** ** [run] among the other tasks *)

Section RunAmongFromLogin.
Context `{!InventoryAPI} `{!Constants}.
Variable fetching : M unit.
Variable claiming : M unit.
Variable gathering : M (list Channel).
Variable offline : Channel → bool.

Lemma channels_fetch_account_topics (gathered : Exn + list Channel) :
  frames keeps_account_topics (channels_fetch gathered).
Proof.
  unfold channels_fetch. frames_account_topics.
  - apply channels_fetch_select_account_topics.
  - apply keeps_account_topics_same.
    unfold relink_watching, watch, stop_watching.
    repeat case_match;
      match goal with |- _ = ws_topics ?s => by destruct s end.
  - apply keeps_account_topics_same.
    match goal with
    | |- context [predisplay ?s ?l] =>
        destruct (predisplay_cases s l) as [->|[d ->]];
        [done|by destruct s]
    end.
Qed.

Lemma channels_fetch_login (gathered : Exn + list Channel) :
  frames keeps_login (channels_fetch gathered).
Proof.
  unfold channels_fetch. frames_steps keeps_login.
  - unfold channels_fetch_select. cbv zeta. rewrite fill_channels.
    case_match; by destruct s.
  - unfold relink_watching, watch, stop_watching.
    repeat case_match; by destruct s.
  - destruct (predisplay_cases s (channels s).*2) as [->|[d ->]];
      [done|by destruct s].
  - apply keeps_login_change_state.
Qed.

(** What the parts that wait leave of the account topics, a turn leaves. *)
Lemma run_turn_among_account_topics :
  frames keeps_account_topics fetching →
  frames keeps_account_topics claiming →
  frames keeps_account_topics gathering →
  frames keeps_account_topics
    (run_turn_among fetching claiming gathering offline).
Proof.
  intros Hfetch Hclaim Hgather. unfold run_turn_among.
  apply (frames_bind keeps_account_topics);
    [apply (frames_gets keeps_account_topics)|].
  intros [].
  - frames_account_topics; same_account_topics.
  - apply (frames_bind keeps_account_topics); [exact Hfetch|].
    frames_account_topics.
  - apply (frames_bind keeps_account_topics).
    { apply (frames_modify keeps_account_topics). intros s.
      same_account_topics. }
    intros _. apply (frames_bind keeps_account_topics);
      [apply (frames_gets keeps_account_topics)|].
    intros priorities.
    apply (frames_bind keeps_account_topics); [exact Hclaim|].
    intros _. apply (frames_bind keeps_account_topics);
      [|frames_account_topics].
    apply (frames_modify keeps_account_topics). intros s.
    unfold games_collect. cbv zeta.
    etrans; [|apply keeps_account_topics_change_state].
    same_account_topics.
  - unfold channels_cleanup, remove_channel.
    frames_account_topics; same_account_topics.
  - apply (frames_bind keeps_account_topics); [|frames_account_topics].
    apply (frames_bind keeps_account_topics); [exact Hgather|].
    intros new_channels. apply channels_fetch_account_topics.
  - unfold channel_switch.
    frames_account_topics; same_account_topics.
  - frames_account_topics.
Qed.

(** What the parts that wait leave of the login, a turn leaves. *)
Lemma run_turn_among_login :
  frames keeps_login fetching →
  frames keeps_login claiming →
  frames keeps_login gathering →
  frames keeps_login (run_turn_among fetching claiming gathering offline).
Proof.
  intros Hfetch Hclaim Hgather. unfold run_turn_among.
  apply (frames_bind keeps_login); [apply (frames_gets keeps_login)|].
  intros [].
  - frames_steps keeps_login; by destruct s.
  - apply (frames_bind keeps_login); [exact Hfetch|].
    frames_steps keeps_login. apply keeps_login_change_state.
  - apply (frames_bind keeps_login).
    { apply (frames_modify keeps_login). by intros []. }
    intros _. apply (frames_bind keeps_login);
      [apply (frames_gets keeps_login)|].
    intros priorities.
    apply (frames_bind keeps_login); [exact Hclaim|].
    intros _. apply (frames_bind keeps_login); [|frames_steps keeps_login].
    apply (frames_modify keeps_login). intros s.
    unfold games_collect. cbv zeta.
    etrans; [|apply keeps_login_change_state]. by destruct s.
  - unfold channels_cleanup, remove_channel.
    frames_steps keeps_login;
      first [apply keeps_login_change_state | by destruct s].
  - apply (frames_bind keeps_login); [|frames_steps keeps_login].
    apply (frames_bind keeps_login); [exact Hgather|].
    intros new_channels. apply channels_fetch_login.
  - unfold channel_switch.
    frames_steps keeps_login;
      first [apply keeps_login_change_state | by destruct s].
  - frames_steps keeps_login.
Qed.

(** X20.  [run] among the other tasks, whatever the login, the backend,
    the state it starts in and what the other tasks do while it waits:
    after at most six turns of its loop without a wait at the flag it has
    raised, or it has returned (because the login was left with
    [ExitRequest], and then nothing but the login check has happened, or
    through [break], the state being [EXIT]), or its loop rests, in [IDLE]
    with nothing watched or in [CHANNEL_SWITCH] with a watched channel that
    can be watched.  When the other tasks leave the login and the account
    topics alone, the user at rest is the one the login check found, and
    the drops and the points topics of that user are subscribed. *)
Theorem run_settles (starting : M unit) (login : Z → Exn + string)
    (validate : Z → option string → Exn + (Z * Z)) (self : Twitch) :
  let logged := check_login login validate self in
  let outcome :=
    run_among fetching claiming gathering offline starting login validate 6
      self in
  ((∃ e, outcome.1 = inl e)
   ∨ (outcome.1 = inr Finished
      ∧ (logged = (inl ExitRequest, outcome.2) ∨ _state outcome.2 = EXIT))
   ∨ (outcome.1 = inr Waiting ∧ at_rest outcome.2))
  ∧ (keeps_account starting → keeps_account fetching →
     keeps_account claiming → keeps_account gathering →
     outcome.1 = inr Waiting →
     ∃ user_id,
       _user_id logged.2 = Some user_id
       ∧ _user_id outcome.2 = Some user_id
       ∧ UserDrops user_id ∈ ws_topics outcome.2
       ∧ UserCommunityPoints user_id ∈ ws_topics outcome.2).
Proof.
  intros logged outcome.
  assert (Hrun : outcome =
    match check_login login validate self with
    | (inl ExitRequest, s) => (inr Finished, s)
    | (inl e, s) => (inl e, s)
    | (inr _, s1) =>
        match starting s1 with
        | (inl e, s2) => (inl e, s2)
        | (inr _, s2) =>
            match _user_id s2 with
            | None => (inl AssertionError, s2)
            | Some user_id =>
                run_loop_among fetching claiming gathering offline 6
                  (change_state INVENTORY_FETCH
                     (set_full_cleanup false
                        (add_topics {[ UserDrops user_id;
                                       UserCommunityPoints user_id ]} s2)))
            end
        end
    end).
  { unfold outcome, run_among.
    destruct (check_login login validate self) as [[[]|[]] s1]; try done.
    unfold bind at 1. destruct (starting s1) as [[e|[]] s2]; [done|].
    unfold bind at 1, gets at 1. by destruct (_user_id s2). }
  clearbody outcome. unfold logged. clear logged.
  destruct (check_login login validate self) as [[e|[]] s1] eqn:Hlogin.
  { split.
    - destruct e; subst outcome; try (left; by eexists).
      right; left. split; [done|by left].
    - intros _ _ _ _ Hwaiting. by destruct e; subst outcome. }
  destruct (starting s1) as [[e|[]] s2] eqn:Hstart.
  { subst outcome. split; [left; by eexists|]. by intros _ _ _ _ Hwaiting. }
  destruct (_user_id s2) as [uid|] eqn:Huid.
  2:{ subst outcome. split; [left; by eexists|].
      by intros _ _ _ _ Hwaiting. }
  revert Hrun.
  set (s3 := change_state INVENTORY_FETCH _). intros ->.
  split.
  - destruct (decide (_state s3 = EXIT)) as [Hexit|Hexit].
    + right; left.
      rewrite (run_loop_among_exit fetching claiming gathering offline 5)
        by done.
      split; [done|by right].
    + destruct (run_loop_among_ends fetching claiming gathering offline s3
                  Hexit) as [(e & He & _)|[[[Hfinished Hstate] _]|Hrest]].
      * left. by exists e.
      * right; left. split; [done|by right].
      * by right; right.
  - intros [Hstart_login Hstart_topics] [Hfetch_login Hfetch_topics]
      [Hclaim_login Hclaim_topics] [Hgather_login Hgather_topics] Hwaiting.
    exists uid.
    specialize (Hstart_login s1). rewrite Hstart in Hstart_login.
    destruct Hstart_login as (_ & _ & _ & Hu & _). simpl in Hu.
    split; [cbn [snd]; by rewrite <- Hu|].
    assert (Huid3 : _user_id s3 = Some uid).
    { unfold s3.
      destruct (keeps_login_change_state INVENTORY_FETCH
                  (set_full_cleanup false
                     (add_topics {[ UserDrops uid;
                                    UserCommunityPoints uid ]} s2)))
        as (_ & _ & _ & -> & _). by destruct s2. }
    assert (Htopics : UserDrops uid ∈ ws_topics s3
                      ∧ UserCommunityPoints uid ∈ ws_topics s3).
    { unfold s3.
      destruct (change_state_frame INVENTORY_FETCH
                  (set_full_cleanup false
                     (add_topics {[ UserDrops uid;
                                    UserCommunityPoints uid ]} s2)))
        as (_ & -> & _).
      assert (ws_topics (set_full_cleanup false
                           (add_topics {[ UserDrops uid;
                                          UserCommunityPoints uid ]} s2))
              = ws_topics s2 ∪ {[ UserDrops uid; UserCommunityPoints uid ]})
        as -> by (by destruct s2).
      split; apply elem_of_union; right.
      - apply elem_of_union; left. by apply elem_of_singleton.
      - apply elem_of_union; right. by apply elem_of_singleton. }
    pose proof (frames_run_loop_among fetching claiming gathering offline
                  keeps_login
                  (run_turn_among_login Hfetch_login Hclaim_login
                     Hgather_login) 6 s3) as (_ & _ & _ & Hkeeps_user & _).
    pose proof (frames_run_loop_among fetching claiming gathering offline
                  keeps_account_topics
                  (run_turn_among_account_topics Hfetch_topics Hclaim_topics
                     Hgather_topics) 6 s3) as Hkeeps.
    destruct Htopics as [Hdrops Hpoints].
    split; [by rewrite Hkeeps_user|].
    split; (apply Hkeeps; [discriminate|done]).
Qed.

(** Without other tasks, the parts that wait leave the login and the
    account topics alone. *)
Lemma alone_keeps_account (inv : Exn + InventoryData)
    (catalog : Exn + option (list AvailableData))
    (details : string → Exn + CampaignData) (gathered : Exn + list Channel) :
  keeps_account (ret tt)
  ∧ keeps_account (fetch_inventory inv catalog details)
  ∧ keeps_account claiming_alone
  ∧ keeps_account (await gathered).
Proof.
  split; [|split; [|split]]; split.
  - apply (frames_ret keeps_login).
  - apply (frames_ret keeps_account_topics).
  - apply (frames_fetch_inventory keeps_login); intros; by destruct s.
  - apply (frames_fetch_inventory keeps_account_topics);
      intros; same_account_topics.
  - apply (frames_modify keeps_login). by intros [].
  - apply (frames_modify keeps_account_topics). intros s.
    same_account_topics.
  - apply (frames_await keeps_login).
  - apply (frames_await keeps_account_topics).
Qed.
End RunAmongFromLogin.

Lemma run_settles_witness :
  let alone :=
    @run_among simple_inventory small_pool
      (fetch_inventory (H:=simple_inventory) (inr sample_inventory_data)
         (inr (Some sample_catalog)) sample_details)
      (claiming_alone (H:=simple_inventory)) (await chess_gathering)
      settled_offline (ret tt) fresh_login strict_backend 6 new_miner in
  let closed :=
    @run_among simple_inventory small_pool closing
      (claiming_alone (H:=simple_inventory)) (await chess_gathering)
      settled_offline (ret tt) fresh_login strict_backend 6 new_miner in
  alone.1 = inr Waiting
  ∧ at_rest (H:=simple_inventory) alone.2
  ∧ watching_channel alone.2 = Some chess_channel
  ∧ _user_id alone.2 = Some 99
  ∧ UserDrops 99 ∈ ws_topics alone.2
  ∧ closed.1 = inr Finished
  ∧ _state closed.2 = EXIT.
Proof.
  intros alone closed.
  assert (Hwaiting : alone.1 = inr Waiting) by reflexivity.
  assert (Huser : _user_id alone.2 = Some 99) by reflexivity.
  assert (Hfinished : closed.1 = inr Finished) by reflexivity.
  destruct (@alone_keeps_account simple_inventory
              (inr sample_inventory_data) (inr (Some sample_catalog))
              sample_details chess_gathering)
    as (Hstart & Hfetch & Hclaim & Hgather).
  destruct (@run_settles simple_inventory small_pool
              (fetch_inventory (H:=simple_inventory)
                 (inr sample_inventory_data) (inr (Some sample_catalog))
                 sample_details)
              (claiming_alone (H:=simple_inventory)) (await chess_gathering)
              settled_offline (ret tt) fresh_login strict_backend new_miner)
    as [Hends Haccount].
  fold alone in Hends, Haccount.
  destruct (Haccount Hstart Hfetch Hclaim Hgather Hwaiting)
    as (uid & _ & Huid & Hdrops & _).
  rewrite Huser in Huid. injection Huid as <-.
  destruct Hends as [[e He]|[[Hleft _]|[_ Hrest]]].
  { rewrite Hwaiting in He. discriminate He. }
  { rewrite Hwaiting in Hleft. discriminate Hleft. }
  split; [exact Hwaiting|]. split; [exact Hrest|].
  split; [reflexivity|]. split; [exact Huser|]. split; [exact Hdrops|].
  split; [exact Hfinished|].
  destruct (@run_settles simple_inventory small_pool closing
              (claiming_alone (H:=simple_inventory)) (await chess_gathering)
              settled_offline (ret tt) fresh_login strict_backend new_miner)
    as [[[e He]|[[_ [Hlogin|Hexit]]|[Hwaits _]]] _].
  - fold closed in He. rewrite Hfinished in He. discriminate He.
  - discriminate Hlogin.
  - exact Hexit.
  - fold closed in Hwaits. rewrite Hfinished in Hwaits. discriminate Hwaits.
Defined.


(** ** The login across a restart *)

(** With an empty cookie jar the loop of [check_login] logs in afresh in
    every turn: when it is left through [break], the cookie holds the token
    of the last login, and nothing else. *)
Lemma validate_attempts_fresh (login : Z → Exn + string)
    (validate : Z → option string → Exn + (Z * Z)) (todo : list Z)
    (self s' : Twitch) (cookie : gmap string string) (user_id : Z) :
  _session self = Some ∅ →
  validate_attempts login validate todo self = (inr (Some (cookie, user_id)), s') →
  ∃ token,
    cookie = {[ "auth-token" := token ]}
    ∧ _access_token s' = Some token
    ∧ _session s' = Some ∅.
Proof.
  revert self. induction todo as [|attempt todo IH]; intros self Hjar Hrun;
    [done|].
  rewrite validate_attempts_cons in Hrun.
  destruct (login attempt) as [e|token] eqn:Hlogin.
  { by rewrite (obtain_token_login_fails _ _ _ e Hjar Hlogin) in Hrun. }
  rewrite (obtain_token_fresh _ _ _ token Hjar Hlogin) in Hrun.
  cbv zeta in Hrun.
  set (s1 := set_access_token (Some token) (emit LoginFlow self)) in Hrun.
  assert (Hs1 : _session s1 = Some ∅ ∧ _access_token s1 = Some token)
    by (unfold s1; by destruct self).
  destruct Hs1 as [Hjar1 Htoken1].
  destruct (validate attempt (_access_token s1)) as [e|[status uid]]; [done|].
  repeat case_bool_decide.
  - apply IH in Hrun; [done|]. by destruct s1.
  - simplify_eq. exists token. split; [done|]. by destruct s1.
  - apply IH in Hrun; [done|]. by destruct s1.
Qed.

(** X22.  A login survives a restart.  When the first login check of a new
    miner returns, the cookie file it saves holds the access token; a miner
    started anew with that cookie file validates this token and, if the
    backend accepts it at once, is logged in with one validation request and
    without running the login flow. *)
Theorem check_login_survives_restart (settings settings' : Settings)
    (login login' : Z → Exn + string)
    (validate validate' : Z → option string → Exn + (Z * Z))
    (s1 : Twitch) (user_id' : Z) :
  check_login login validate (Twitch_init settings) = (inr tt, s1) →
  validate' 0 (_access_token s1) = inr (200, user_id') →
  is_Some (_access_token s1)
  ∧ cookies_file s1 !! "auth-token" = _access_token s1
  ∧ ∃ s2,
      check_login login' validate' (restart settings' s1) = (inr tt, s2)
      ∧ effects s2 = [Validate (_access_token s1)]
      ∧ _access_token s2 = _access_token s1
      ∧ _user_id s2 = Some user_id'
      ∧ _is_logged_in s2 = true
      ∧ cookies_file s2 !! "auth-token" = _access_token s1.
Proof.
  intros Hfirst Haccepts.
  rewrite check_login_due in Hfirst by (by intros [[? ?] _]).
  change (match _session (Twitch_init settings) with
          | Some _ => Twitch_init settings
          | None => initialize (Twitch_init settings)
          end) with (initialize (Twitch_init settings)) in Hfirst.
  destruct (validate_attempts login validate [0; 1]
              (initialize (Twitch_init settings)))
    as [[e|[[cookie uid]|]] s] eqn:Hloop; [done| |done].
  apply validate_attempts_fresh in Hloop as (token & -> & Htoken & Hjar);
    [|done].
  injection Hfirst as <-.
  set (old := finish_login {[ "auth-token" := token ]} uid s) in *.
  assert (Htoken1 : _access_token old = Some token)
    by (unfold old, finish_login; by destruct s).
  set (saved := (<["persistent" := pretty uid]> {[ "auth-token" := token ]} ∪ ∅
                 : gmap string string)).
  assert (Hfile : cookies_file old = saved).
  { unfold old, finish_login, saved. destruct s; simpl in *. by rewrite Hjar. }
  assert (Hsaved : saved !! "auth-token" = Some token).
  { unfold saved. apply lookup_union_Some_l.
    rewrite lookup_insert_ne by done. by rewrite lookup_singleton_eq. }
  rewrite Htoken1 in Haccepts |- *. rewrite Hfile.
  split; [done|]. split; [done|].
  rewrite check_login_due by (by intros [[? ?] _]).
  change (match _session (restart settings' old) with
          | Some _ => restart settings' old
          | None => initialize (restart settings' old)
          end) with (initialize (restart settings' old)).
  set (start := initialize (restart settings' old)).
  assert (Hstart : _session start = Some saved ∧ _access_token start = None
                   ∧ effects start = [] ∧ _user_id start = None).
  { unfold start, restart. by rewrite Hfile. }
  destruct Hstart as (Hjar2 & Hnone & Heffects & Huser).
  rewrite validate_attempts_cons.
  rewrite (obtain_token_recovered login' 0 start saved token Hjar2 Hsaved Hnone).
  cbv zeta.
  assert (Htoken2 : _access_token (set_access_token (Some token) start)
                    = Some token) by (by destruct start).
  rewrite Htoken2, Haccepts. simpl.
  eexists. split; [reflexivity|].
  unfold finish_login.
  destruct start; simpl in *. subst.
  repeat split.
  apply lookup_union_Some_l. by rewrite lookup_insert_ne.
Qed.

Lemma check_login_survives_restart_witness :
  let first := check_login fresh_login strict_backend
                 (Twitch_init default_settings) in
  first.1 = inr tt
  ∧ strict_backend 0 (_access_token first.2) = inr (200, 99)
  ∧ cookies_file first.2 !! "auth-token" = Some "fresh"
  ∧ ∃ s2,
      check_login closed_login strict_backend
        (restart default_settings first.2) = (inr tt, s2)
      ∧ effects s2 = [Validate (Some "fresh")]
      ∧ _user_id s2 = Some 99.
Proof.
  intros first.
  assert (Hfirst : check_login fresh_login strict_backend
                     (Twitch_init default_settings) = (inr tt, first.2))
    by reflexivity.
  destruct (check_login_survives_restart default_settings default_settings
              fresh_login closed_login strict_backend strict_backend
              first.2 99 Hfirst eq_refl)
    as (_ & Hfile & s2 & Hsecond & Heffects & _ & Huser & _).
  split; [reflexivity|]. split; [reflexivity|]. split; [exact Hfile|].
  exists s2. split; [exact Hsecond|]. split; [exact Heffects|exact Huser].
Defined.

(** ** [process_drops]: the wait for the next drop *)

Lemma session_emit_all (es : list Effect) (self : Twitch) :
  _session (emit_all es self) = _session self.
Proof. by destruct self. Qed.

Lemma total_sleep_cons (e : Effect) (es : list Effect) :
  total_sleep (e :: es) = slept_tenths e + total_sleep es.
Proof. reflexivity. Qed.

Section RequestPace.
Context {R : Type}.
Implicit Types (net : Z → Attempt R) (attempts : Z).

(** The sleeps of the loop of [request] stay within the back-off budget of
    the attempts that are left; so they do once a connection error of the
    caller's body was thrown in. *)
Lemma request_after_throw_paced net attempts (todo : list Z)
    (cause : option Z) (self : Twitch) :
  Forall (λ i, 0 ≤ i < attempts) todo →
  ∃ es,
    (request_after_throw net attempts todo cause self).2 = emit_all es self
    ∧ (length (List.filter is_session_request es) ≤ length todo)%nat
    ∧ Forall (within_budget attempts) es
    ∧ total_sleep es ≤ backoff_budget attempts todo.
Proof.
  revert cause self. induction todo as [|i todo IH]; intros cause self Hall.
  - exists []. simpl. by rewrite emit_all_nil.
  - apply Forall_cons in Hall as [Hi Hall].
    assert (Hone : ∀ outcome : Exn + R,
      ∃ es, (outcome, emit (SessionRequest i) self).2 = emit_all es self
            ∧ (length (List.filter is_session_request es)
               ≤ length (i :: todo))%nat
            ∧ Forall (within_budget attempts) es
            ∧ total_sleep es ≤ backoff_budget attempts (i :: todo)).
    { intros outcome. exists [SessionRequest i]. rewrite emit_emit_all.
      split; [done|]. split; [simpl; lia|].
      split; [constructor; [done|constructor]|].
      assert (0 ≤ backoff_budget attempts todo).
      { clear -Hall. induction Hall as [|j todo Hj _ IH]; simpl; [done|].
        case_bool_decide; lia. }
      cbn [backoff_budget foldr]. fold (backoff_budget attempts todo).
      rewrite total_sleep_cons. simpl. case_bool_decide; lia. }
    cbn [request_after_throw].
    unfold bind at 1, effect at 1, modify at 1.
    destruct (net i) as [response|tag|e|tag]; try apply Hone.
    cbn [backoff_budget foldr]. fold (backoff_budget attempts todo).
    case_bool_decide as Hlast.
    + unfold bind, effect, modify.
      destruct (IH (Some tag) (emit (Sleep i) (emit (SessionRequest i) self)) Hall)
        as (es & -> & Hcount & Hes & Hsleep).
      exists (SessionRequest i :: Sleep i :: es).
      rewrite !emit_emit_all, !emit_all_app. simpl.
      split; [done|]. split; [lia|].
      split; [constructor; [done|]; constructor; [simpl; lia|done]|].
      rewrite ?total_sleep_cons. simpl. lia.
    + unfold bind, ret.
      destruct (IH (Some tag) (emit (SessionRequest i) self) Hall)
        as (es & -> & Hcount & Hes & Hsleep).
      exists (SessionRequest i :: es).
      rewrite !emit_emit_all, !emit_all_app. simpl.
      split; [done|]. split; [lia|]. split; [by constructor|].
      rewrite ?total_sleep_cons. simpl. lia.
Qed.

Lemma request_attempts_paced net attempts (todo : list Z)
    (cause : option Z) (self : Twitch) :
  Forall (λ i, 0 ≤ i < attempts) todo →
  ∃ es,
    (request_attempts net attempts todo cause self).2 = emit_all es self
    ∧ (length (List.filter is_session_request es) ≤ length todo)%nat
    ∧ Forall (within_budget attempts) es
    ∧ total_sleep es ≤ backoff_budget attempts todo.
Proof.
  revert cause self. induction todo as [|i todo IH]; intros cause self Hall.
  - exists []. simpl. by rewrite emit_all_nil.
  - apply Forall_cons in Hall as [Hi Hall].
    assert (Hone : ∀ outcome : Exn + R,
      ∃ es, (outcome, emit (SessionRequest i) self).2 = emit_all es self
            ∧ (length (List.filter is_session_request es)
               ≤ length (i :: todo))%nat
            ∧ Forall (within_budget attempts) es
            ∧ total_sleep es ≤ backoff_budget attempts (i :: todo)).
    { intros outcome. exists [SessionRequest i]. rewrite emit_emit_all.
      split; [done|]. split; [simpl; lia|].
      split; [constructor; [done|constructor]|].
      assert (0 ≤ backoff_budget attempts todo).
      { clear -Hall. induction Hall as [|j todo Hj _ IH]; simpl; [done|].
        case_bool_decide; lia. }
      cbn [backoff_budget foldr]. fold (backoff_budget attempts todo).
      rewrite total_sleep_cons. simpl. case_bool_decide; lia. }
    cbn [request_attempts].
    unfold bind at 1, effect at 1, modify at 1.
    destruct (net i) as [response|tag|e|tag]; try apply Hone.
    + cbn [backoff_budget foldr]. fold (backoff_budget attempts todo).
      case_bool_decide as Hlast.
      * unfold bind, effect, modify.
        destruct (IH (Some tag) (emit (Sleep i) (emit (SessionRequest i) self)) Hall)
          as (es & -> & Hcount & Hes & Hsleep).
        exists (SessionRequest i :: Sleep i :: es).
        rewrite !emit_emit_all, !emit_all_app. simpl.
        split; [done|]. split; [lia|].
        split; [constructor; [done|]; constructor; [simpl; lia|done]|].
        rewrite ?total_sleep_cons. simpl. lia.
      * unfold bind, ret.
        destruct (IH (Some tag) (emit (SessionRequest i) self) Hall)
          as (es & -> & Hcount & Hes & Hsleep).
        exists (SessionRequest i :: es).
        rewrite !emit_emit_all, !emit_all_app. simpl.
        split; [done|]. split; [lia|]. split; [by constructor|].
        rewrite ?total_sleep_cons. simpl. lia.
    + cbn [backoff_budget foldr]. fold (backoff_budget attempts todo).
      case_bool_decide as Hlast.
      * unfold bind, effect, modify.
        destruct (request_after_throw_paced net attempts todo (Some tag)
                    (emit (Sleep i) (emit (SessionRequest i) self)) Hall)
          as (es & -> & Hcount & Hes & Hsleep).
        exists (SessionRequest i :: Sleep i :: es).
        rewrite !emit_emit_all, !emit_all_app. simpl.
        split; [done|]. split; [lia|].
        split; [constructor; [done|]; constructor; [simpl; lia|done]|].
        rewrite ?total_sleep_cons. simpl. lia.
      * unfold bind, ret.
        destruct (request_after_throw_paced net attempts todo (Some tag)
                    (emit (SessionRequest i) self) Hall)
          as (es & -> & Hcount & Hes & Hsleep).
        exists (SessionRequest i :: es).
        rewrite !emit_emit_all, !emit_all_app. simpl.
        split; [done|]. split; [lia|]. split; [by constructor|].
        rewrite ?total_sleep_cons. simpl. lia.
Qed.

(** What an effect within the budget of a request is. *)
Lemma within_budget_waiting attempts (es : list Effect) :
  Forall (within_budget attempts) es →
  Forall (λ e, is_waiting e = true) es
  ∧ 0 ≤ total_sleep es
  ∧ List.filter is_current_drop_request es = [].
Proof.
  induction 1 as [|e es He _ (IH1 & IH2 & IH3)]; [done|].
  rewrite total_sleep_cons.
  destruct e; simpl in He; try done; simpl; rewrite ?IH3;
    (split; [by constructor|]); (split; [lia|done]).
Qed.

(** With a session at hand, a [gql_request] makes at most five session
    requests and sleeps at most six tenths of a second, whatever the
    network does. *)
Lemma gql_request_paced net (self : Twitch) :
  is_Some (_session self) →
  ∃ es,
    (gql_request net self).2 = emit_all es self
    ∧ Forall (λ e, is_waiting e = true) es
    ∧ 0 ≤ total_sleep es ≤ 6
    ∧ (length (List.filter is_session_request es) ≤ 5)%nat
    ∧ List.filter is_current_drop_request es = [].
Proof.
  intros [jar Hjar].
  destruct (request_attempts_paced net 5 (range 5) None self)
    as (es & Hrun & Hcount & Hes & Hsleep).
  { apply Forall_forall. intros i. by rewrite elem_of_range. }
  destruct (within_budget_waiting 5 es Hes) as (Hkind & Hlow & Hpolls).
  exists es. split.
  { unfold gql_request, request, bind, gets. rewrite Hjar. simpl. exact Hrun. }
  split; [done|]. split; [|by split].
  split; [done|]. etrans; [exact Hsleep|]. by vm_compute.
Qed.

(** A request that is answered after attempts that failed on the
    connection. *)
Lemma request_answered net attempts (j : nat) (response : R)
    (self : Twitch) :
  is_Some (_session self) → Z.of_nat j < attempts →
  answered_at net j response →
  request net attempts self = (inr response, emit_all (answered_trace j) self).
Proof.
  intros [jar Hjar] Hj [Hfail Hnet].
  destruct (range_split attempts j Hj) as [later Hsplit].
  unfold request, bind at 1 2, gets. rewrite Hjar. simpl.
  rewrite Hsplit, request_attempts_retried.
  2:{ apply Forall_forall. intros i Hi%elem_of_range. split; [lia|].
      by apply Hfail. }
  cbn [request_attempts]. unfold bind, effect, modify. rewrite Hnet.
  unfold ret, answered_trace. by rewrite emit_emit_all, emit_all_app.
Qed.
End RequestPace.

Lemma total_sleep_answered_trace (j : nat) :
  (j < 5)%nat → 0 ≤ total_sleep (answered_trace j) ≤ 6.
Proof.
  intros Hj. unfold answered_trace.
  assert (j = 0 ∨ j = 1 ∨ j = 2 ∨ j = 3 ∨ j = 4)%nat
    as [->|[->|[->|[->| ->]]]] by lia; by vm_compute.
Qed.

Lemma requests_answered_trace (j : nat) :
  length (List.filter is_session_request (answered_trace j)) = S j.
Proof.
  unfold answered_trace.
  rewrite List.filter_app, length_app, requests_retried. simpl. lia.
Qed.

Lemma waiting_emit_one (e : Effect) (es : list Effect) :
  is_waiting e = true → Forall (λ e, is_waiting e = true) es →
  Forall (λ e, is_waiting e = true) (e :: es).
Proof. by constructor. Qed.

(** Whatever the network does, the polls only add effects of the wait: one
    current-drop request per element of [todo] at most, each with at most
    five session requests and six tenths of a second of back-off, and a
    sleep of two seconds behind a poll that still sees the claimed drop. *)
Lemma next_drop_attempts_bounded (net : Z → Z → Attempt (option string))
    (drop_id : string) (todo : list Z) (self : Twitch) :
  is_Some (_session self) →
  ∃ es,
    (next_drop_attempts net drop_id todo self).2 = emit_all es self
    ∧ Forall (λ e, is_waiting e = true) es
    ∧ 0 ≤ total_sleep es ≤ 26 * Z.of_nat (length todo)
    ∧ (length (List.filter is_current_drop_request es) ≤ length todo)%nat
    ∧ (length (List.filter is_session_request es) ≤ 5 * length todo)%nat.
Proof.
  revert self. induction todo as [|attempt todo IH]; intros self Hsession.
  { exists []. rewrite emit_all_nil. by repeat split. }
  cbn [next_drop_attempts]. unfold bind at 1, effect at 1, modify at 1.
  set (s1 := emit GqlCurrentDrop self).
  assert (Hs1 : is_Some (_session s1)) by (unfold s1; by destruct self).
  destruct (gql_request_paced (net attempt) s1 Hs1)
    as (es & Hrun & Hkind & [Hlow Hhigh] & Hcount & Hpolls).
  assert (Hstop : ∀ outcome : Exn + unit,
    ∃ es', (outcome, emit_all es s1).2 = emit_all es' self
      ∧ Forall (λ e, is_waiting e = true) es'
      ∧ 0 ≤ total_sleep es' ≤ 26 * Z.of_nat (length (attempt :: todo))
      ∧ (length (List.filter is_current_drop_request es')
         ≤ length (attempt :: todo))%nat
      ∧ (length (List.filter is_session_request es')
         ≤ 5 * length (attempt :: todo))%nat).
  { intros outcome. exists (GqlCurrentDrop :: es).
    unfold s1. rewrite emit_emit_all, emit_all_app.
    split; [done|]. split; [by constructor|].
    rewrite total_sleep_cons. cbn [List.filter is_current_drop_request
      is_session_request length slept_tenths]. rewrite Hpolls.
    cbn [length]. repeat split; lia. }
  unfold bind at 1.
  destruct (gql_request (net attempt) s1) as [[e|drop_data] s2] eqn:Hgql.
  { simpl in Hrun. subst s2. apply Hstop. }
  simpl in Hrun. subst s2.
  destruct drop_data as [id|]; [|apply Hstop].
  case_bool_decide; [apply Hstop|].
  unfold bind at 1, effect at 1, modify at 1.
  destruct (IH (emit (Sleep 20) (emit_all es s1)))
    as (es' & -> & Hkind' & [Hlow' Hhigh'] & Hpolls' & Hcount').
  { assert (_session (emit (Sleep 20) (emit_all es s1)) = _session self)
      as -> by (unfold s1; by destruct self).
    done. }
  exists (GqlCurrentDrop :: es ++ Sleep 20 :: es').
  unfold s1. rewrite !emit_emit_all, !emit_all_app.
  split; [done|].
  split.
  { constructor; [done|]. apply Forall_app. split; [done|]. by constructor. }
  rewrite total_sleep_cons, total_sleep_app, total_sleep_cons.
  cbn [List.filter is_current_drop_request is_session_request].
  rewrite !List.filter_app, !length_app, Hpolls.
  cbn [List.filter is_current_drop_request is_session_request length
    slept_tenths app].
  repeat split; lia.
Qed.

(** Polls that still see the claimed drop: each is followed by its sleep,
    and the loop goes on. *)
Lemma next_drop_attempts_waited (net : Z → Z → Attempt (option string))
    (tries : Z → nat) (drop_id : string) (waited later : list Z)
    (self : Twitch) :
  is_Some (_session self) →
  Forall (λ i, (tries i < 5)%nat
               ∧ answered_at (net i) (tries i) (Some drop_id)) waited →
  next_drop_attempts net drop_id (waited ++ later) self
  = next_drop_attempts net drop_id later
      (emit_all (waited ≫= still_claimed tries) self).
Proof.
  revert self. induction waited as [|i waited IH]; intros self Hsession Hall.
  { by rewrite emit_all_nil. }
  apply Forall_cons in Hall as [[Hi Hanswered] Hall].
  cbn [app next_drop_attempts].
  unfold bind at 1, effect at 1, modify at 1. unfold bind at 1.
  unfold gql_request.
  rewrite (request_answered (net i) 5 (tries i) (Some drop_id));
    [|by destruct self|lia|done].
  rewrite bool_decide_eq_false_2 by (by intros ?).
  unfold bind at 1, effect at 1, modify at 1.
  rewrite IH; [|by destruct self|done].
  rewrite bind_cons. unfold still_claimed at 2.
  rewrite !emit_emit_all, !emit_all_app. f_equal. f_equal.
  by simplify_list_eq.
Qed.

Lemma total_sleep_still_claimed (tries : Z → nat) (n : nat) :
  (∀ i, 0 ≤ i < Z.of_nat n → (tries i < 5)%nat) →
  20 * Z.of_nat n
  ≤ total_sleep (range (Z.of_nat n) ≫= still_claimed tries)
  ≤ 26 * Z.of_nat n.
Proof.
  induction n as [|n IH]; intros Htries; [done|].
  rewrite range_succ, bind_app, total_sleep_app.
  assert (Hn : 20 ≤ total_sleep ([Z.of_nat n] ≫= still_claimed tries) ≤ 26).
  { csimpl. rewrite app_nil_r. unfold still_claimed.
    rewrite ?total_sleep_cons, total_sleep_app.
    pose proof (total_sleep_answered_trace (tries (Z.of_nat n))) as Hj.
    specialize (Hj ltac:(apply Htries; lia)).
    change (total_sleep [Sleep 20]) with 20. simpl. lia. }
  assert (20 * Z.of_nat n
          ≤ total_sleep (range (Z.of_nat n) ≫= still_claimed tries)
          ≤ 26 * Z.of_nat n) by (apply IH; intros i Hi; apply Htries; lia).
  lia.
Qed.

Lemma polls_still_claimed (tries : Z → nat) (l : list Z) :
  length (List.filter is_current_drop_request (l ≫= still_claimed tries))
  = length l.
Proof.
  induction l as [|i l IH]; [done|].
  rewrite bind_cons, List.filter_app, length_app, IH. unfold still_claimed.
  cbn [List.filter is_current_drop_request length].
  rewrite List.filter_app, length_app. unfold answered_trace.
  rewrite List.filter_app, length_app.
  assert (Hnone : ∀ n : nat,
    List.filter is_current_drop_request (range (Z.of_nat n) ≫= retried) = []).
  { intros n. induction n as [|n IHn]; [done|].
    by rewrite range_succ, bind_app, List.filter_app, IHn. }
  rewrite Hnone. simpl. lia.
Qed.

(** X23.  After a claim, with a session at hand and whatever the network
    does, the handler only sleeps and sends current-drop requests through
    [gql_request]: at most eight of them, of at most five session requests
    each.  It sleeps at least 4 seconds and at most 24.8 seconds in all: 4
    seconds at first, then 2 seconds behind each poll that still sees the
    claimed drop, and at most 0.6 seconds between the attempts of each
    poll. *)
Theorem await_next_drop_bounds (net : Z → Z → Attempt (option string))
    (drop_id : string) (self : Twitch) :
  is_Some (_session self) →
  ∃ es,
    (await_next_drop net drop_id self).2 = emit_all es self
    ∧ Forall (λ e, is_waiting e = true) es
    ∧ 40 ≤ total_sleep es ≤ 248
    ∧ (length (List.filter is_current_drop_request es) ≤ 8)%nat
    ∧ (length (List.filter is_session_request es) ≤ 40)%nat.
Proof.
  intros Hsession.
  unfold await_next_drop, bind, effect, modify.
  destruct (next_drop_attempts_bounded net drop_id (range 8)
              (emit (Sleep 40) self))
    as (es & -> & Hkind & [Hlow Hhigh] & Hpolls & Hcount).
  { by destruct self. }
  exists (Sleep 40 :: es). rewrite emit_emit_all, emit_all_app.
  split; [done|]. split; [by constructor|].
  rewrite total_sleep_cons.
  change (length (range 8)) with 8%nat in *. cbn. repeat split; lia.
Qed.

Lemma await_next_drop_bounds_witness :
  is_Some (_session chess_miner)
  ∧ ∃ es,
      (await_next_drop slow_backend "drop-a" chess_miner).2
      = emit_all es chess_miner
      ∧ Forall (λ e, is_waiting e = true) es
      ∧ 40 ≤ total_sleep es ≤ 248
      ∧ (length (List.filter is_current_drop_request es) ≤ 8)%nat
      ∧ (length (List.filter is_session_request es) ≤ 40)%nat.
Proof.
  assert (Hsession : is_Some (_session chess_miner)) by (by eexists).
  split; [exact Hsession|].
  exact (await_next_drop_bounds slow_backend "drop-a" chess_miner Hsession).
Defined.

(** X24.  With a session at hand, when the first [k] polls are answered
    (each possibly after connections that failed) and still see the claimed
    drop, and the next one is answered and sees another drop or none, the
    handler returns after that poll: it has sent [k + 1] polls and slept
    [4 + 2 k] seconds and the back-off of the polls, at most 0.6 seconds
    each; without a failed connection it has slept [4 + 2 k] seconds.  When
    all eight polls see the claimed drop, it returns after the eighth sleep
    of 2 seconds. *)
Theorem await_next_drop_stops (net : Z → Z → Attempt (option string))
    (tries : Z → nat) (drop_id : string) (k : nat) (self : Twitch) :
  is_Some (_session self) →
  (k ≤ 8)%nat →
  (∀ i, 0 ≤ i < Z.of_nat k →
        (tries i < 5)%nat ∧ answered_at (net i) (tries i) (Some drop_id)) →
  ((k < 8)%nat →
   (tries (Z.of_nat k) < 5)%nat
   ∧ ∃ next, answered_at (net (Z.of_nat k)) (tries (Z.of_nat k)) next
             ∧ next ≠ Some drop_id) →
  let es :=
    Sleep 40 :: (range (Z.of_nat k) ≫= still_claimed tries)
    ++ (if decide (k < 8)%nat
        then GqlCurrentDrop :: answered_trace (tries (Z.of_nat k)) else []) in
  await_next_drop net drop_id self = (inr tt, emit_all es self)
  ∧ length (List.filter is_current_drop_request es) = (k `min` 7 + 1)%nat
  ∧ 40 + 20 * Z.of_nat k ≤ total_sleep es ≤ 40 + 20 * Z.of_nat k
                                            + 6 * (Z.of_nat k + 1)
  ∧ ((∀ i, 0 ≤ i ≤ Z.of_nat k → tries i = 0%nat) →
     total_sleep es = 40 + 20 * Z.of_nat k).
Proof.
  intros Hsession Hk Hsame Hnext es. split; [|split; [|split]].
  - unfold await_next_drop, bind, effect, modify.
    assert (Hsplit : ∃ later,
               range 8 = range (Z.of_nat k) ++ later
               ∧ (later = [] ↔ k = 8%nat) ∧ head later = (if decide (k < 8)%nat
                                        then Some (Z.of_nat k) else None)).
    { destruct (decide (k < 8)%nat) as [Hlt|Hge].
      - destruct (range_split 8 k) as [later Hlater]; [lia|].
        exists (Z.of_nat k :: later). split; [done|]. split; [|done].
        split; [done|lia].
      - assert (k = 8%nat) as -> by lia. exists []. by rewrite app_nil_r. }
    destruct Hsplit as (later & -> & Hnil & Hhead).
    rewrite (next_drop_attempts_waited net tries).
    2: { by destruct self. }
    2: { apply Forall_forall. intros i Hi%elem_of_range. by apply Hsame. }
    unfold es. rewrite emit_emit_all, emit_all_app.
    destruct (decide (k < 8)%nat) as [Hlt|Hge].
    + destruct later as [|i later]; [done|]. injection Hhead as ->.
      destruct (Hnext Hlt) as (Htries & next & Hanswered & Hother).
      cbn [next_drop_attempts].
      unfold bind at 1, effect at 1, modify at 1. unfold bind at 1.
      unfold gql_request.
      rewrite (request_answered (net (Z.of_nat k)) 5 (tries (Z.of_nat k)) next);
        [|by destruct self|lia|done].
      rewrite emit_emit_all, !emit_all_app.
      destruct next as [id|]; unfold ret.
      * rewrite bool_decide_eq_true_2 by congruence.
        by rewrite <- !app_assoc.
      * by rewrite <- !app_assoc.
    + assert (later = []) as -> by (apply Hnil; lia).
      by rewrite app_nil_r.
  - unfold es. cbn [List.filter is_current_drop_request].
    rewrite List.filter_app, length_app, polls_still_claimed.
    assert (Hlen : length (range (Z.of_nat k)) = k).
    { unfold range. by rewrite length_fmap, length_seq, Nat2Z.id. }
    rewrite Hlen.
    destruct (decide (k < 8)%nat).
    + cbn [List.filter is_current_drop_request length].
      unfold answered_trace. rewrite List.filter_app, length_app.
      assert (Hnone : ∀ n : nat,
        List.filter is_current_drop_request
          (range (Z.of_nat n) ≫= retried) = []).
      { intros n. induction n as [|n IHn]; [done|].
        by rewrite range_succ, bind_app, List.filter_app, IHn. }
      rewrite Hnone. simpl. lia.
    + simpl. lia.
  - unfold es. rewrite total_sleep_cons, total_sleep_app.
    pose proof (total_sleep_still_claimed tries k) as Hwaited.
    specialize (Hwaited ltac:(intros i Hi; by apply Hsame)).
    destruct (decide (k < 8)%nat) as [Hlt|].
    + rewrite total_sleep_cons.
      destruct (Hnext Hlt) as (Htries & _).
      pose proof (total_sleep_answered_trace _ Htries). simpl. lia.
    + change (total_sleep []) with 0. simpl. lia.
  - intros Hfirst. unfold es. rewrite total_sleep_cons, total_sleep_app.
    assert (Hwaited : ∀ n : nat, (n ≤ k)%nat →
      total_sleep (range (Z.of_nat n) ≫= still_claimed tries)
      = 20 * Z.of_nat n).
    { intros n. induction n as [|n IHn]; intros Hn; [done|].
      rewrite range_succ, bind_app, total_sleep_app, IHn by lia.
      csimpl. rewrite app_nil_r. unfold still_claimed.
      rewrite Hfirst by lia.
      change (total_sleep (answered_trace 0 ++ [Sleep 20])) with 20. lia. }
    rewrite Hwaited by lia.
    destruct (decide (k < 8)%nat).
    + rewrite Hfirst by lia.
      change (total_sleep (GqlCurrentDrop :: answered_trace 0)) with 0.
      simpl. lia.
    + change (total_sleep []) with 0. simpl. lia.
Qed.

Lemma await_next_drop_stops_witness :
  is_Some (_session chess_miner)
  ∧ (2 ≤ 8)%nat
  ∧ (∀ i, 0 ≤ i < 2 →
          (slow_backend_tries i < 5)%nat
          ∧ answered_at (slow_backend i) (slow_backend_tries i)
              (Some "drop-a"))
  ∧ await_next_drop slow_backend "drop-a" chess_miner
    = (inr tt,
       emit_all [Sleep 40;
                 GqlCurrentDrop; SessionRequest 0; Sleep 20;
                 GqlCurrentDrop; SessionRequest 0; Sleep 0; SessionRequest 1;
                 Sleep 20;
                 GqlCurrentDrop; SessionRequest 0] chess_miner).
Proof.
  assert (Hsession : is_Some (_session chess_miner)) by (by eexists).
  assert (Hsame : ∀ i, 0 ≤ i < Z.of_nat 2 →
            (slow_backend_tries i < 5)%nat
            ∧ answered_at (slow_backend i) (slow_backend_tries i)
                (Some "drop-a")).
  { intros i Hi. assert (i = 0 ∨ i = 1) as [->| ->] by lia.
    - change (slow_backend_tries 0) with 0%nat.
      split; [lia|]. split; [intros j Hj; lia|done].
    - change (slow_backend_tries 1) with 1%nat.
      split; [lia|]. split; [|done].
      intros j Hj. assert (j = 0) as -> by lia. by eexists. }
  assert (Hk : (2 ≤ 8)%nat) by lia.
  split; [exact Hsession|]. split; [exact Hk|]. split; [exact Hsame|].
  refine (proj1 (await_next_drop_stops slow_backend slow_backend_tries
                   "drop-a" 2 chess_miner Hsession Hk Hsame _)).
  intros _. change (slow_backend_tries (Z.of_nat 2)) with 0%nat.
  split; [lia|]. exists (Some "drop-b").
  split; [|discriminate]. split; [intros j Hj; lia|done].
Defined.

(** ** [run], state [GAMES_UPDATE]: the claims *)

Section ClaimFacts.
Context `{!InventoryAPI}.

Lemma claim_drop_lookup (h : list TimedDrop) (l l' : loc) :
  length (claim_drop h l) = length h
  ∧ (l' ≠ l → claim_drop h l !! l' = h !! l')
  ∧ (∀ drop, h !! l = Some drop → drop_can_claim drop = false →
     claim_drop h l = h).
Proof.
  unfold claim_drop. destruct (h !! l) as [d|] eqn:Hl; [|done].
  destruct (drop_can_claim d) eqn:Hclaim.
  - split; [by rewrite length_insert|]. split.
    + intros Hne. by rewrite list_lookup_insert_ne.
    + intros drop [= <-] Hno. congruence.
  - done.
Qed.

(** The claims of one campaign leave alone every drop that cannot be
    claimed, and every drop that the campaign does not list. *)
Lemma claim_campaign_lookup (ls : list loc) (h : list TimedDrop) (l : loc)
    (drop : TimedDrop) :
  h !! l = Some drop →
  drop_can_claim drop = false ∨ l ∉ ls →
  length (foldl claim_drop h ls) = length h
  ∧ foldl claim_drop h ls !! l = Some drop.
Proof.
  revert h. induction ls as [|l0 ls IH]; intros h Hl Hsafe; [done|].
  simpl. destruct (claim_drop_lookup h l0 l) as (Hlen & Hother & Hsame).
  assert (Hl' : claim_drop h l0 !! l = Some drop).
  { destruct (decide (l = l0)) as [->|Hne]; [|by rewrite Hother].
    destruct Hsafe as [Hno|Hout]; [by rewrite (Hsame drop)|].
    exfalso. apply Hout. left. }
  destruct (IH (claim_drop h l0) Hl') as [Hlen' Hkept].
  { destruct Hsafe as [?|Hout]; [by left|right].
    intros Hin. apply Hout. by right. }
  split; [congruence|done].
Qed.

(** The same for the claims of all the campaigns that are not upcoming. *)
Lemma claim_drops_lookup (inv : list Campaign) (h : list TimedDrop) (l : loc)
    (drop : TimedDrop) :
  h !! l = Some drop →
  drop_can_claim drop = false
  ∨ (∀ campaign, campaign ∈ inv → l ∈ drops campaign →
     upcoming campaign = true) →
  length (claim_drops inv h) = length h
  ∧ claim_drops inv h !! l = Some drop.
Proof.
  unfold claim_drops. revert h.
  induction inv as [|c inv IH]; intros h Hl Hsafe; [done|].
  simpl.
  assert (Hstep : length (if negb (upcoming c) then foldl claim_drop h (drops c)
                          else h) = length h
                  ∧ (if negb (upcoming c) then foldl claim_drop h (drops c)
                     else h) !! l = Some drop).
  { destruct (upcoming c) eqn:Hup; simpl; [done|].
    apply claim_campaign_lookup; [done|].
    destruct Hsafe as [?|Hlisted]; [by left|right].
    intros Hin. specialize (Hlisted c (list_elem_of_here _ _) Hin). congruence. }
  destruct Hstep as [Hlen Hkept].
  destruct (IH _ Hkept) as [Hlen' Hkept'].
  { destruct Hsafe as [?|Hlisted]; [by left|right].
    intros c' Hc'. apply Hlisted. by right. }
  split; [congruence|done].
Qed.

(** X25.  The claims of [GAMES_UPDATE] touch no drop that cannot be claimed
    and no drop that only upcoming campaigns list (or no campaign at all);
    no drop object is added or lost. *)
Theorem games_update_claims_only_claimable (self : Twitch) (l : loc)
    (drop : TimedDrop) :
  heap self !! l = Some drop →
  drop_can_claim drop = false
  ∨ (∀ campaign, campaign ∈ inventory self → l ∈ drops campaign →
     upcoming campaign = true) →
  length (heap (games_update self)) = length (heap self)
  ∧ heap (games_update self) !! l = Some drop.
Proof.
  intros Hl Hsafe.
  assert (Hheap : heap (games_update self)
                  = claim_drops (inventory self) (heap self)).
  { unfold games_update. cbv zeta.
    match goal with
    | |- context [change_state _ ?s] =>
        destruct (change_state_frame CHANNELS_CLEANUP s)
          as (_ & _ & _ & _ & _ & _ & -> & _)
    end.
    by destruct self. }
  rewrite Hheap. by apply claim_drops_lookup.
Qed.
End ClaimFacts.

Lemma games_update_claims_only_claimable_witness :
  heap chess_only_updater !! 1%nat
  = Some {| drop_id := "drop-b"; current_minutes := 10; required_minutes := 30;
            is_claimed := false |}
  ∧ length (heap (@games_update simple_inventory chess_only_updater)) = 2%nat
  ∧ heap (@games_update simple_inventory chess_only_updater) !! 1%nat
    = Some {| drop_id := "drop-b"; current_minutes := 10;
              required_minutes := 30; is_claimed := false |}.
Proof.
  split; [reflexivity|].
  exact (@games_update_claims_only_claimable simple_inventory
           chess_only_updater 1%nat _ eq_refl (or_introl eq_refl)).
Defined.

(** ** [_login] *)

Lemma login_trace_print (msg : string) (granted : option string)
    (self s' : Twitch) :
  login_trace granted (emit (GuiPrint msg) self) s' → login_trace granted self s'.
Proof.
  intros [msgs ->]. exists (msg :: msgs). csimpl.
  rewrite emit_emit_all, emit_all_app. done.
Qed.

Lemma login_trace_here (self : Twitch) : login_trace None self self.
Proof. exists []. by rewrite emit_all_nil. Qed.

(** What the two attempts of a turn do to the miner. *)
Lemma login_attempts_trace (post : Z → Payload → Exn + LoginResponse)
    (token : string) (payload : Payload) (todo : list Z) (self : Twitch) :
  match login_attempts post token payload todo self with
  | (inr (Granted access_token, _), s') => login_trace (Some access_token) self s'
  | (_, s') => login_trace None self s'
  end.
Proof.
  revert payload self. induction todo as [|attempt todo IH];
    intros payload self; [apply login_trace_here|].
  cbn [login_attempts]. cbv zeta. unfold bind at 1, await at 1.
  destruct (post attempt payload) as [e|response]; [apply login_trace_here|].
  destruct (error_code response) as [code|].
  - repeat case_bool_decide;
      unfold bind, effect, modify, raise, ret; simpl;
      try apply login_trace_here;
      try (eapply login_trace_print, login_trace_here);
      try apply IH.
    destruct (error response); apply login_trace_here.
  - destruct (access_token response) as [a|]; [|apply IH].
    unfold bind, modify, ret. simpl. exists []. by rewrite emit_all_nil.
Qed.

Lemma login_trace_trans (granted : option string) (s1 s2 s3 : Twitch) :
  login_trace None s1 s2 → login_trace granted s2 s3 → login_trace granted s1 s3.
Proof.
  intros [msgs1 ->] [msgs2 ->]. exists (msgs1 ++ msgs2).
  by rewrite emit_all_app, fmap_app.
Qed.

(** What the turns of the login flow do to the miner. *)
Lemma login_prompts_trace (ask : Z → Exn + (string * string * string))
    (post : Z → Z → Payload → Exn + LoginResponse) (proof : option string)
    (prompt : Z) (prompts : nat) (self : Twitch) :
  match login_prompts ask post proof prompt prompts self with
  | (inr granted, s') => login_trace granted self s'
  | (inl _, s') => login_trace None self s'
  end.
Proof.
  revert proof prompt self. induction prompts as [|prompts IH];
    intros proof prompt self; [apply login_trace_here|].
  cbn [login_prompts]. cbv zeta. unfold bind at 1, await at 1.
  destruct (ask prompt) as [e|[[u p] t]]; [apply login_trace_here|].
  unfold bind at 1.
  pose proof (login_attempts_trace (post prompt) t
                (first_payload u p proof) (range 2) self) as Hturn.
  unfold first_payload in Hturn.
  destruct (login_attempts (post prompt) t _ (range 2) self)
    as [[e|[[a|] payload]] s1]; try done.
  specialize (IH (captcha payload) (prompt + 1) s1).
  destruct (login_prompts ask post (captcha payload) (prompt + 1) prompts s1)
    as [[e|granted] s2]; by eapply login_trace_trans.
Qed.

(** X26.  Whatever the user types and the backend answers, and however many
    prompts it takes, the login flow stores an access token exactly when it
    returns one, and then the token it returns; when it raises, or is still
    asking, the stored token is what it was.  The state machine, the
    channels, the cookie file and the user are not touched. *)
Theorem _login_stores_granted_token
    (ask : Z → Exn + (string * string * string))
    (post : Z → Z → Payload → Exn + LoginResponse) (prompts : nat)
    (self : Twitch) :
  let outcome := _login ask post prompts self in
  _access_token outcome.2
  = match outcome.1 with
    | inr (Some token) => Some token
    | _ => _access_token self
    end
  ∧ keeps_control self outcome.2
  ∧ keeps_channels self outcome.2
  ∧ cookies_file outcome.2 = cookies_file self
  ∧ _user_id outcome.2 = _user_id self
  ∧ _is_logged_in outcome.2 = _is_logged_in self.
Proof.
  cbv zeta. unfold _login.
  pose proof (login_prompts_trace ask post None 0 prompts self) as Htrace.
  destruct (login_prompts ask post None 0 prompts self) as [[e|[token|]] s'];
    simpl in *; destruct Htrace as [msgs ->];
    (split; [by destruct self|]); (split; [by destruct self|]);
    (split; [by destruct self|]); repeat (split; [by destruct self|]);
    by destruct self.
Qed.

(** One turn of the [while True] of [_login]. *)
Lemma login_prompts_step (ask : Z → Exn + (string * string * string))
    (post : Z → Z → Payload → Exn + LoginResponse) (proof : option string)
    (prompt : Z) (prompts : nat) (self : Twitch) (u p t : string) :
  ask prompt = inr (u, p, t) →
  login_prompts ask post proof prompt (S prompts) self
  = match login_attempts (post prompt) t (first_payload u p proof) [0; 1] self
    with
    | (inl e, s) => (inl e, s)
    | (inr (Granted access_token, _), s) => (inr (Some access_token), s)
    | (inr (AskAgain, payload), s) =>
        login_prompts ask post (captcha payload) (prompt + 1) prompts s
    end.
Proof.
  intros Hask. cbn [login_prompts]. unfold bind at 1, await at 1.
  rewrite Hask. unfold bind at 1. rewrite range_2.
  fold (first_payload u p proof).
  by destruct (login_attempts (post prompt) t (first_payload u p proof)
                 [0; 1] self) as [[e|[[a|] payload]] s].
Qed.

(** An attempt that is asked for a 2FA code which the user has typed: the
    code goes into the payload and the next attempt follows. *)
Lemma login_attempt_needs_code (post : Z → Payload → Exn + LoginResponse)
    (token : string) (payload : Payload) (attempt : Z) (todo : list Z)
    (self : Twitch) (response : LoginResponse) (email : bool) :
  post attempt payload = inr response →
  error_code response = Some (if email then 3022 else 3011) →
  token ≠ "" →
  login_attempts post token payload (attempt :: todo) self
  = login_attempts post token
      ((if email then set_twitchguard_code (Some token)
        else set_authy_token (Some token)) (with_proof response payload))
      todo self.
Proof.
  intros Hpost Hcode Htoken. cbn [login_attempts].
  unfold bind at 1, await at 1. rewrite Hpost. cbv zeta.
  fold (with_proof response payload). rewrite Hcode.
  destruct email; repeat case_bool_decide; try done; lia.
Qed.

(** An attempt whose 2FA code is refused: a message, and the turn ends. *)
Lemma login_attempt_bad_code (post : Z → Payload → Exn + LoginResponse)
    (token : string) (payload : Payload) (attempt : Z) (todo : list Z)
    (self : Twitch) (response : LoginResponse) (email : bool) :
  post attempt payload = inr response →
  error_code response = Some (if email then 3023 else 3012) →
  login_attempts post token payload (attempt :: todo) self
  = (inr (AskAgain, with_proof response payload),
     emit (GuiPrint (if email then "Incorrect email code."
                     else "Incorrect 2FA code.")) self).
Proof.
  intros Hpost Hcode. cbn [login_attempts].
  unfold bind at 1, await at 1. rewrite Hpost. cbv zeta.
  fold (with_proof response payload). rewrite Hcode.
  destruct email; repeat case_bool_decide; try done; lia.
Qed.

(** An attempt that is granted a token. *)
Lemma login_attempt_granted (post : Z → Payload → Exn + LoginResponse)
    (token : string) (payload : Payload) (attempt : Z) (todo : list Z)
    (self : Twitch) (response : LoginResponse) (granted : string) :
  post attempt payload = inr response →
  error_code response = None →
  access_token response = Some granted →
  login_attempts post token payload (attempt :: todo) self
  = (inr (Granted granted, with_proof response payload),
     set_access_token (Some granted) self).
Proof.
  intros Hpost Hcode Hgranted. cbn [login_attempts].
  unfold bind at 1, await at 1. rewrite Hpost. cbv zeta.
  fold (with_proof response payload). by rewrite Hcode, Hgranted.
Qed.

(** X27.  The second request of a turn carries the 2FA code.  When the
    first response asks for an authenticator code (3011) or an email code
    (3022) and the user has typed a code, the request is sent again with the
    code under ["authy_token"] or ["twitchguard_code"], and with the captcha
    proof of the first response if there was one; when this second request
    is granted a token, [_login] stores and returns it, without a message
    and without a new prompt. *)
Theorem _login_forwards_code (ask : Z → Exn + (string * string * string))
    (post : Z → Z → Payload → Exn + LoginResponse) (prompts : nat)
    (self : Twitch) (u p t : string) (email : bool)
    (asked granted : LoginResponse) (token : string) :
  ask 0 = inr (u, p, t) →
  t ≠ "" →
  let first := first_payload u p None in
  post 0 0 first = inr asked →
  error_code asked = Some (if email then 3022 else 3011) →
  let second :=
    (if email then set_twitchguard_code (Some t) else set_authy_token (Some t))
      (with_proof asked first) in
  post 0 1 second = inr granted →
  error_code granted = None →
  access_token granted = Some token →
  _login ask post (S prompts) self
  = (inr (Some token), set_access_token (Some token) self).
Proof.
  intros Hask Ht first Hasked Hcode second Hgranted Hfine Htoken.
  unfold _login. rewrite (login_prompts_step _ _ _ _ _ _ u p t Hask).
  fold first.
  rewrite (login_attempt_needs_code _ _ _ _ _ _ asked email Hasked Hcode Ht).
  fold second.
  by rewrite (login_attempt_granted _ _ _ _ _ _ granted token Hgranted Hfine
                Htoken).
Qed.

(** X28.  A refused 2FA code does not reach the next prompt.  When the
    code the user typed is sent and refused (3012, or 3023 for an email
    code), the user is told so and asked again, and the first request of the
    new prompt carries the new credentials and the latest captcha proof but
    no 2FA code; when it is granted a token, [_login] stores and returns
    it. *)
Theorem _login_drops_refused_code (ask : Z → Exn + (string * string * string))
    (post : Z → Z → Payload → Exn + LoginResponse) (prompts : nat)
    (self : Twitch) (u p t u' p' t' : string) (email : bool)
    (asked refused granted : LoginResponse) (token : string) :
  ask 0 = inr (u, p, t) →
  t ≠ "" →
  let first := first_payload u p None in
  post 0 0 first = inr asked →
  error_code asked = Some (if email then 3022 else 3011) →
  let second :=
    (if email then set_twitchguard_code (Some t) else set_authy_token (Some t))
      (with_proof asked first) in
  post 0 1 second = inr refused →
  error_code refused = Some (if email then 3023 else 3012) →
  ask 1 = inr (u', p', t') →
  let third := first_payload u' p' (captcha (with_proof refused second)) in
  post 1 0 third = inr granted →
  error_code granted = None →
  access_token granted = Some token →
  authy_token third = None
  ∧ twitchguard_code third = None
  ∧ _login ask post (S (S prompts)) self
    = (inr (Some token),
       set_access_token (Some token)
         (emit (GuiPrint (if email then "Incorrect email code."
                          else "Incorrect 2FA code.")) self)).
Proof.
  intros Hask Ht first Hasked Hcode second Hrefused Hbad Hask' third Hgranted
    Hfine Htoken.
  split; [done|]. split; [done|].
  unfold _login. rewrite (login_prompts_step _ _ _ _ _ _ u p t Hask).
  fold first.
  rewrite (login_attempt_needs_code _ _ _ _ _ _ asked email Hasked Hcode Ht).
  fold second.
  rewrite (login_attempt_bad_code _ _ _ _ _ _ refused email Hrefused Hbad).
  change (0 + 1) with 1.
  rewrite (login_prompts_step _ _ _ _ _ _ u' p' t' Hask').
  fold third.
  by rewrite (login_attempt_granted _ _ _ _ _ _ granted token Hgranted Hfine
                Htoken).
Qed.

Lemma _login_forwards_code_witness :
  authy_user 0 = inr ("user", "secret", "123456")
  ∧ "123456" ≠ ""
  ∧ _login authy_user authy_backend 1 chess_miner
    = (inr (Some "granted"), set_access_token (Some "granted") chess_miner).
Proof.
  assert (Hcode : "123456" ≠ "") by discriminate.
  split; [reflexivity|]. split; [exact Hcode|].
  exact (_login_forwards_code authy_user authy_backend 0 chess_miner
           "user" "secret" "123456" false _ _ "granted"
           eq_refl Hcode eq_refl eq_refl eq_refl eq_refl eq_refl).
Defined.

Lemma _login_drops_refused_code_witness :
  "123456" ≠ ""
  ∧ authy_token (first_payload "user" "secret" (Some "proof")) = None
  ∧ _login authy_user picky_backend 2 chess_miner
    = (inr (Some "granted"),
       set_access_token (Some "granted")
         (emit (GuiPrint "Incorrect 2FA code.") chess_miner)).
Proof.
  assert (Hcode : "123456" ≠ "") by discriminate.
  split; [exact Hcode|].
  destruct (_login_drops_refused_code authy_user picky_backend 0 chess_miner
              "user" "secret" "123456" "user" "secret" "123456" false _ _ _
              "granted" eq_refl Hcode eq_refl eq_refl eq_refl eq_refl eq_refl
              eq_refl eq_refl eq_refl) as (Hauthy & _ & Hrun).
  split; [exact Hauthy|exact Hrun].
Defined.

(** ** [_watch_loop] *)

Global Instance only_minutes_preorder : PreOrder only_minutes.
Proof.
  split.
  - intros s. repeat split; [done..|]. intros l d Hl. by exists d.
  - intros s1 s2 s3 (Hi & Hd & Hlen & Hkeep) (Hi' & Hd' & Hlen' & Hkeep').
    repeat split; [congruence..|].
    intros l d Hl. destruct (Hkeep l d Hl) as (d' & Hl' & ? & ? & ?).
    destruct (Hkeep' l d' Hl') as (d'' & Hl'' & ? & ? & ?).
    exists d''. repeat split; congruence.
Qed.





Section WatchLoopFacts.
Context `{!InventoryAPI}.


End WatchLoopFacts.

Global Instance quiet_preorder : PreOrder quiet.
Proof.
  split.
  - intros s. exists []. by rewrite app_nil_r.
  - intros s1 s2 s3 (es1 & H1 & Hq1) (es2 & H2 & Hq2). exists (es1 ++ es2).
    split; [by rewrite H2, H1, app_assoc|].
    by rewrite List.filter_app, Hq1, Hq2.
Qed.

Global Instance keeps_pending_preorder : PreOrder keeps_pending.
Proof.
  split; [by intros s|]. intros s1 s2 s3 H1 H2. unfold keeps_pending in *.
  congruence.
Qed.

Lemma quiet_same (s s' : Twitch) : effects s' = effects s → quiet s s'.
Proof. intros He. exists []. by rewrite app_nil_r. Qed.

Lemma quiet_emit (e : Effect) (s : Twitch) :
  is_pacing e = false → quiet s (emit e s).
Proof.
  intros He. exists [e]. split; [apply effects_emit|]. simpl. by rewrite He.
Qed.

Ltac quiet_leaf :=
  lazymatch goal with
  | |- quiet _ (emit _ _) => by apply quiet_emit
  | |- quiet ?s _ => apply quiet_same; unfold mutate_drop; by destruct s
  | |- keeps_pending ?s _ =>
      unfold keeps_pending, mutate_drop; by destruct s
  end.

Section PacingFacts.
Context `{!InventoryAPI}.

Lemma poll_current_drop_quiet (channel : Channel)
    (poll : Exn + option (string * Z)) :
  frames quiet (poll_current_drop channel poll)
  ∧ frames keeps_pending (poll_current_drop channel poll).
Proof.
  unfold poll_current_drop. split.
  - frames_steps quiet; quiet_leaf.
  - frames_steps keeps_pending; quiet_leaf.
Qed.

Lemma estimate_locally_quiet (channel : Channel) :
  frames quiet (estimate_locally channel)
  ∧ frames keeps_pending (estimate_locally channel).
Proof.
  unfold estimate_locally. split.
  - frames_steps quiet; quiet_leaf.
  - frames_steps keeps_pending; quiet_leaf.
Qed.

Lemma process_drops_progress_quiet (drop_id : string) (minutes : Z)
    (self : Twitch) :
  quiet self (process_drops_progress drop_id minutes self).1.
Proof.
  unfold process_drops_progress. cbv zeta.
  repeat case_match; simpl; try reflexivity; try quiet_leaf.
  match goal with
  | |- context [Display ?l] => exists [Display l]
  end.
  split; [|done]. unfold mutate_drop. by destruct self.
Qed.

(** X30.  A turn of the watch loop that watches a channel and returns is
    paced: it starts with one heartbeat for that channel and ends with one
    sleep of the watch loop (until the next interval after a heartbeat that
    succeeded, sixty seconds after one that failed), with neither a
    heartbeat nor a sleep of the watch loop in between, whatever else
    happens there; after a heartbeat that succeeded, no progress update is
    pending at the end. *)
Theorem watch_turn_paces (succeeded : bool) (push : option (string * Z))
    (poll : Exn + option (string * Z)) (self : Twitch) (channel : Channel) :
  watching_channel self = Some channel →
  (watch_turn succeeded push poll self).1 = inr tt →
  let s' := (watch_turn succeeded push poll self).2 in
  ∃ between,
    effects s'
    = effects self
      ++ SendWatch (channel_id channel) :: between
      ++ [if succeeded then WatchSleepNext else WatchSleep 60]
    ∧ List.filter is_pacing between = []
    ∧ (succeeded = true → _drop_update s' = false).
Proof.
  intros Hw. cbv zeta.
  assert (Hshape :
    match watch_turn succeeded push poll self with
    | (inr _, s') =>
        ∃ s5, quiet (emit (SendWatch (channel_id channel)) self) s5
              ∧ s' = emit (if succeeded then WatchSleepNext else WatchSleep 60) s5
              ∧ (succeeded = true → _drop_update s5 = false)
    | (inl _, _) => True
    end).
  { unfold watch_turn. unfold bind at 1, gets at 1. rewrite Hw.
    unfold bind at 1, effect at 1, modify at 1.
    set (s1 := emit (SendWatch (channel_id channel)) self).
    destruct succeeded; cbn [negb].
    - unfold bind at 1, modify at 1.
      set (s2 := set_drop_update true s1).
      assert (Hs2 : quiet s1 s2) by (unfold s2; quiet_leaf).
      unfold bind at 1.
      assert (Hpush : match match push with
                            | Some (drop_id, minutes) =>
                                handler (process_drops_progress drop_id minutes)
                            | None => ret None
                            end s2 with
                      | (inr _, s3) => quiet s2 s3
                      | (inl _, _) => False
                      end).
      { destruct push as [[id minutes]|];
          [|unfold ret; cbv beta iota; reflexivity].
        unfold handler.
        pose proof (process_drops_progress_quiet id minutes s2) as Hq.
        by destruct (process_drops_progress id minutes s2). }
      destruct (match push with
                | Some (drop_id, minutes) =>
                    handler (process_drops_progress drop_id minutes)
                | None => ret None
                end s2) as [[e|resolution] s3]; [done|].
      assert (Hs3 : quiet s1 s3) by (by etrans).
      clear Hpush Hs2.
      assert (Hrest : ∀ handled use_active,
        match (modify (set_drop_update false) >>
               (if negb handled then
                  do use_active <-
                    (if negb use_active then poll_current_drop channel poll
                     else ret use_active);
                  if use_active then estimate_locally channel else ret tt
                else ret tt) >>
               effect WatchSleepNext)%M s3 with
        | (inr _, s') =>
            ∃ s5, quiet s1 s5 ∧ s' = emit WatchSleepNext s5
                  ∧ (true = true → _drop_update s5 = false)
        | (inl _, _) => True
        end).
      { intros handled use_active.
        unfold bind at 1, modify at 1.
        set (s4 := set_drop_update false s3).
        assert (Hs4 : quiet s1 s4 ∧ _drop_update s4 = false).
        { split; [|unfold s4; by destruct s3].
          etrans; [exact Hs3|]. unfold s4. quiet_leaf. }
        destruct Hs4 as [Hs4 Hflag].
        unfold bind at 1.
        match goal with
        | |- context [match ?m s4 with _ => _ end] =>
            assert (Hmid : frames quiet m ∧ frames keeps_pending m)
        end.
        { destruct handled; cbn [negb];
            [split; [apply (frames_ret quiet)|apply (frames_ret keeps_pending)]|].
          destruct (poll_current_drop_quiet channel poll) as [Hq Hp].
          destruct (estimate_locally_quiet channel) as [Hq' Hp'].
          split.
          - apply (frames_bind quiet).
            + destruct use_active; cbn [negb]; [apply (frames_ret quiet)|done].
            + intros []; [done|apply (frames_ret quiet)].
          - apply (frames_bind keeps_pending).
            + destruct use_active; cbn [negb];
                [apply (frames_ret keeps_pending)|done].
            + intros []; [done|apply (frames_ret keeps_pending)]. }
        destruct Hmid as [Hquiet Hpending].
        specialize (Hquiet s4). specialize (Hpending s4).
        match goal with
        | |- context [match ?m s4 with _ => _ end] =>
            destruct (m s4) as [[e|[]] s5]
        end; [done|].
        simpl in Hquiet, Hpending. unfold effect, modify.
        exists s5. split; [by etrans|]. split; [done|].
        intros _. unfold keeps_pending in Hpending. congruence. }
      destruct resolution as [handled|]; apply Hrest.
    - unfold bind, effect, modify.
      eexists. split; [|split; [reflexivity|done]].
      fold s1. by apply quiet_emit. }
  destruct (watch_turn succeeded push poll self) as [[e|[]] s']; [done|].
  intros _. destruct Hshape as (s5 & (es & Heffects & Hquiet) & -> & Hflag).
  exists es. cbn [snd]. rewrite effects_emit, Heffects, effects_emit.
  split; [by rewrite <- !app_assoc|]. split; [done|].
  intros Hok. specialize (Hflag Hok). by destruct s5.
Qed.
End PacingFacts.

Lemma watch_turn_paces_witness :
  let outcome :=
    @watch_turn simple_inventory true (Some ("drop-x", 5))
      (inr (Some ("drop-b", 25))) chess_watcher in
  watching_channel chess_watcher = Some chess_channel
  ∧ outcome.1 = inr tt
  ∧ effects outcome.2
    = [SendWatch 5; GqlCurrentDrop; Display 1%nat; WatchSleepNext]
  ∧ _drop_update outcome.2 = false.
Proof.
  intros outcome.
  destruct (@watch_turn_paces simple_inventory true (Some ("drop-x", 5))
              (inr (Some ("drop-b", 25))) chess_watcher chess_channel
              eq_refl eq_refl) as (between & _ & _ & Hflag).
  split; [reflexivity|]. split; [reflexivity|]. split; [reflexivity|].
  exact (Hflag eq_refl).
Defined.
